(** * Authoritative multiplayer game server: a shallow embedding

    The development follows [src/multiplayerServer.js] (class
    [MultiplayerServer]).  JavaScript numbers that hold coordinates, speeds
    and random samples are IEEE-754 binary64 values, embedded as Rocq's
    primitive [float]; counters, hit points, ammunition and millisecond
    clock readings only ever hold small integers and are embedded as [Z].
    A JavaScript [Map] is an association list in insertion order.  Player
    records are objects shared between the player store and the pending
    timers, so they live in a heap and are referred to by location.  The
    position of a player is the object the peer sent, kept as it came: the
    server converts its fields to numbers only where it computes with
    them, as JavaScript's arithmetic does. *)

From Stdlib Require Import ZArith Floats String Ascii List Bool Lia.
From stdpp Require Import base option list strings pretty.

Set Warnings "-inexact-float,-register-all".

Local Open Scope Z_scope.

(** ** JavaScript values, as they arrive in a decoded payload

    An object is the list of its own properties; none of them is a
    function, so an object has the methods of [Object.prototype] unless
    an own property hides them.  Arrays are not among these values. *)

Inductive JSVal : Type :=
  | VUndefined
  | VNull
  | VBool (b : bool)
  | VNumber (f : float)
  | VString (s : string)
  | VObject (fields : list (string * JSVal)).

Module JS.

(** [typeof v] *)
Definition typeof (v : JSVal) : string :=
  match v with
  | VUndefined => "undefined"
  | VNull => "object"
  | VBool _ => "boolean"
  | VNumber _ => "number"
  | VString _ => "string"
  | VObject _ => "object"
  end.

(** ToBoolean: [0], [-0] and [NaN] are the falsy numbers. *)
Definition truthy (v : JSVal) : bool :=
  match v with
  | VUndefined | VNull => false
  | VBool b => b
  | VNumber f => negb (PrimFloat.eqb f 0 || PrimFloat.is_nan f)
  | VString s => negb (String.eqb s "")
  | VObject _ => true
  end.

Fixpoint lookupField (fields : list (string * JSVal)) (k : string) : JSVal :=
  match fields with
  | [] => VUndefined
  | (k', v) :: rest => if String.eqb k' k then v else lookupField rest k
  end.

(** [v.k] on a value that is neither [undefined] nor [null]: a primitive
    has none of the properties read here. *)
Definition get (v : JSVal) (k : string) : JSVal :=
  match v with
  | VObject fields => lookupField fields k
  | _ => VUndefined
  end.

(** The number held by a value whose [typeof] is ["number"]. *)
Definition numberOf (v : JSVal) : float :=
  match v with
  | VNumber f => f
  | _ => PrimFloat.nan
  end.

(** [x ** 2] *)
Definition square (x : float) : float := (x * x)%float.

(** *** StringToNumber

    A string is held as the bytes of its UTF-8 encoding. *)

Definition bytesOf (s : string) : list Z :=
  (fun c => Z.of_N (N_of_ascii c)) <$> list_ascii_of_string s.

(** The characters of StrWhiteSpaceChar (WhiteSpace and LineTerminator),
    each as its UTF-8 bytes: U+0009 to U+000D, U+0020, U+00A0, U+1680,
    U+2000 to U+200A, U+2028, U+2029, U+202F, U+205F, U+3000, U+FEFF. *)
Definition whiteSpace : list (list Z) :=
  [[9]; [10]; [11]; [12]; [13]; [32]; [194; 160]; [225; 154; 128]]
  ++ ((fun b => [226; 128; b])
        <$> [128; 129; 130; 131; 132; 133; 134; 135; 136; 137; 138])
  ++ [[226; 128; 168]; [226; 128; 169]; [226; 128; 175]; [226; 129; 159];
      [227; 128; 128]; [239; 187; 191]].

Fixpoint dropPrefix (p s : list Z) : option (list Z) :=
  match p, s with
  | [], _ => Some s
  | a :: p', b :: s' => if a =? b then dropPrefix p' s' else None
  | _ :: _, [] => None
  end.

(** [s] without the first of the sequences [ps] that begins it. *)
Fixpoint dropOneOf (ps : list (list Z)) (s : list Z) : option (list Z) :=
  match ps with
  | [] => None
  | p :: ps' =>
      match dropPrefix p s with
      | Some rest => Some rest
      | None => dropOneOf ps' s
      end
  end.

Fixpoint dropLeading (ps : list (list Z)) (fuel : nat) (s : list Z) : list Z :=
  match fuel with
  | O => s
  | S fuel' =>
      match dropOneOf ps s with
      | Some rest => dropLeading ps fuel' rest
      | None => s
      end
  end.

(** The text between leading and trailing white space.  Each round of
    [dropLeading] removes at least one byte, so the length is fuel
    enough. *)
Definition trim (s : list Z) : list Z :=
  let s1 := dropLeading whiteSpace (length s) s in
  rev (dropLeading (map (@rev Z) whiteSpace) (length s1) (rev s1)).

Definition digitValue (c : Z) : option Z :=
  if (48 <=? c) && (c <=? 57) then Some (c - 48)
  else if (97 <=? c) && (c <=? 122) then Some (c - 87)
  else if (65 <=? c) && (c <=? 90) then Some (c - 55)
  else None.

(** The run of digits below [radix] that begins [s]: the number they
    write when appended to [acc], how many they are, and what follows. *)
Fixpoint readDigits (radix acc count : Z) (s : list Z) : Z * Z * list Z :=
  match s with
  | c :: rest =>
      match digitValue c with
      | Some d =>
          if d <? radix then readDigits radix (acc * radix + d) (count + 1) rest
          else (acc, count, s)
      | None => (acc, count, s)
      end
  | [] => (acc, count, s)
  end.

(** The Number value for [m * 10 ^ e] with [0 <= m]: the binary64 value
    nearest to it, ties to even.  A negative exponent is a division; its
    quotient is taken with at least 63 bits and the remainder tells on
    which side of the quotient the exact value lies. *)
Definition numberValue (m e : Z) : float :=
  if e <? 0 then
    let d := 10 ^ (- e) in
    let s := Z.log2 d + 64 in
    let q := (m * 2 ^ s) / d in
    let r := (m * 2 ^ s) mod d in
    let l := if r =? 0 then loc_Exact else loc_Inexact (2 * r ?= d) in
    SF2Prim (binary_round_aux prec emax false q (- s) l)
  else SF2Prim (binary_normalize prec emax (m * 10 ^ e) 0 false).

(** StrUnsignedDecimalLiteral; [None] when [s] is not one. *)
Definition strUnsignedDecimalLiteral (s : list Z) : option float :=
  if bool_decide (s = bytesOf "Infinity") then Some infinity
  else
    let '(whole, wholeDigits, s1) := readDigits 10 0 0 s in
    let '(mantissa, fractionDigits, s2) :=
      match s1 with
      | 46 :: t => readDigits 10 whole 0 t
      | _ => (whole, 0, s1)
      end in
    if wholeDigits + fractionDigits =? 0 then None
    else
      match s2 with
      | [] => Some (numberValue mantissa (- fractionDigits))
      | c :: t =>
          if (c =? 101) || (c =? 69) then
            let '(negative, t1) :=
              match t with
              | 45 :: u => (true, u)
              | 43 :: u => (false, u)
              | _ => (false, t)
              end in
            let '(exponent, exponentDigits, rest) := readDigits 10 0 0 t1 in
            if (0 <? exponentDigits) && bool_decide (rest = []) then
              Some (numberValue mantissa
                      ((if negative then - exponent else exponent) - fractionDigits))
            else None
          else None
      end.

(** The digits of a NonDecimalIntegerLiteral, after its prefix. *)
Definition nonDecimalIntegerLiteral (radix : Z) (s : list Z) : option float :=
  let '(value, digits, rest) := readDigits radix 0 0 s in
  if (0 <? digits) && bool_decide (rest = []) then Some (numberValue value 0)
  else None.

(** StrNumericLiteral: a signed decimal literal, or an unsigned one in
    base 16, 8 or 2. *)
Definition strNumericLiteral (s : list Z) : option float :=
  match s with
  | 43 :: u => strUnsignedDecimalLiteral u
  | 45 :: u => PrimFloat.opp <$> strUnsignedDecimalLiteral u
  | 48 :: c :: u =>
      if (c =? 120) || (c =? 88) then nonDecimalIntegerLiteral 16 u
      else if (c =? 111) || (c =? 79) then nonDecimalIntegerLiteral 8 u
      else if (c =? 98) || (c =? 66) then nonDecimalIntegerLiteral 2 u
      else strUnsignedDecimalLiteral s
  | _ => strUnsignedDecimalLiteral s
  end.

(** StringToNumber: the empty or blank string is [+0], a string that is
    no numeric literal is [NaN]. *)
Definition stringToNumber (s : string) : float :=
  match trim (bytesOf s) with
  | [] => 0%float
  | t => default PrimFloat.nan (strNumericLiteral t)
  end.

(** *** ToNumber *)

Definition hasOwn (fields : list (string * JSVal)) (k : string) : bool :=
  existsb (fun e : string * JSVal => String.eqb e.1 k) fields.

(** ToNumber, the conversion that [-] applies to its operands; [None]
    is a thrown [TypeError].  An object is first converted to a
    primitive: [valueOf] is tried and gives no primitive (the inherited
    method returns the object, an own property of that name is no
    function), then [toString], which is the inherited method and
    returns a text that is no number, unless an own property hides it:
    then nothing is left to call and the conversion throws. *)
Definition toNumber (v : JSVal) : option float :=
  match v with
  | VUndefined => Some PrimFloat.nan
  | VNull => Some 0%float
  | VBool b => Some (if b then 1%float else 0%float)
  | VNumber f => Some f
  | VString s => Some (stringToNumber s)
  | VObject fields => if hasOwn fields "toString" then None else Some PrimFloat.nan
  end.

(** The object literal [{ x: x, y: y, z: z }]. *)
Definition point (x y z : float) : JSVal :=
  VObject [("x"%string, VNumber x); ("y"%string, VNumber y); ("z"%string, VNumber z)].

End JS.

(** [isValidPosition(position)] *)
Definition isValidPosition (position : JSVal) : bool :=
  if negb (JS.truthy position)
     || negb (String.eqb (JS.typeof (JS.get position "x")) "number")
     || negb (String.eqb (JS.typeof (JS.get position "z")) "number")
  then false
  else if PrimFloat.ltb 1000 (PrimFloat.abs (JS.numberOf (JS.get position "x")))
          || PrimFloat.ltb 1000 (PrimFloat.abs (JS.numberOf (JS.get position "z")))
  then false
  else true.

(** ** Vectors *)

Record Vec3 : Type := mkVec3 { v3x : float; v3y : float; v3z : float }.
Record Vec2 : Type := mkVec2 { v2x : float; v2z : float }.

Abbreviation loc := nat.

(** ** Records of the World State Store *)

Module Player.

Record t : Type := mk {
  id : string;
  position : JSVal;
  rotation : Vec3;
  velocity : Vec2;
  health : Z;
  maxHealth : Z;
  ammo : Z;
  totalAmmo : Z;
  isReloading : bool;
  lastUpdate : Z;
  lastFireTime : option Z;   (* [None] is [undefined]: never assigned *)
  name : string;
  kills : Z;
  deaths : Z;
  connected : bool
}.

Definition set_position (v : JSVal) (p : t) : t :=
  mk (id p) v (rotation p) (velocity p) (health p) (maxHealth p) (ammo p)
     (totalAmmo p) (isReloading p) (lastUpdate p) (lastFireTime p) (name p)
     (kills p) (deaths p) (connected p).
Definition set_rotation (v : Vec3) (p : t) : t :=
  mk (id p) (position p) v (velocity p) (health p) (maxHealth p) (ammo p)
     (totalAmmo p) (isReloading p) (lastUpdate p) (lastFireTime p) (name p)
     (kills p) (deaths p) (connected p).
Definition set_velocity (v : Vec2) (p : t) : t :=
  mk (id p) (position p) (rotation p) v (health p) (maxHealth p) (ammo p)
     (totalAmmo p) (isReloading p) (lastUpdate p) (lastFireTime p) (name p)
     (kills p) (deaths p) (connected p).
Definition set_health (h : Z) (p : t) : t :=
  mk (id p) (position p) (rotation p) (velocity p) h (maxHealth p) (ammo p)
     (totalAmmo p) (isReloading p) (lastUpdate p) (lastFireTime p) (name p)
     (kills p) (deaths p) (connected p).
Definition set_ammo (a : Z) (p : t) : t :=
  mk (id p) (position p) (rotation p) (velocity p) (health p) (maxHealth p) a
     (totalAmmo p) (isReloading p) (lastUpdate p) (lastFireTime p) (name p)
     (kills p) (deaths p) (connected p).
Definition set_totalAmmo (a : Z) (p : t) : t :=
  mk (id p) (position p) (rotation p) (velocity p) (health p) (maxHealth p)
     (ammo p) a (isReloading p) (lastUpdate p) (lastFireTime p) (name p)
     (kills p) (deaths p) (connected p).
Definition set_isReloading (b : bool) (p : t) : t :=
  mk (id p) (position p) (rotation p) (velocity p) (health p) (maxHealth p)
     (ammo p) (totalAmmo p) b (lastUpdate p) (lastFireTime p) (name p)
     (kills p) (deaths p) (connected p).
Definition set_lastUpdate (u : Z) (p : t) : t :=
  mk (id p) (position p) (rotation p) (velocity p) (health p) (maxHealth p)
     (ammo p) (totalAmmo p) (isReloading p) u (lastFireTime p) (name p)
     (kills p) (deaths p) (connected p).
Definition set_lastFireTime (f : option Z) (p : t) : t :=
  mk (id p) (position p) (rotation p) (velocity p) (health p) (maxHealth p)
     (ammo p) (totalAmmo p) (isReloading p) (lastUpdate p) f (name p)
     (kills p) (deaths p) (connected p).
Definition set_kills (k : Z) (p : t) : t :=
  mk (id p) (position p) (rotation p) (velocity p) (health p) (maxHealth p)
     (ammo p) (totalAmmo p) (isReloading p) (lastUpdate p) (lastFireTime p)
     (name p) k (deaths p) (connected p).
Definition set_deaths (d : Z) (p : t) : t :=
  mk (id p) (position p) (rotation p) (velocity p) (health p) (maxHealth p)
     (ammo p) (totalAmmo p) (isReloading p) (lastUpdate p) (lastFireTime p)
     (name p) (kills p) d (connected p).

End Player.

Module Bullet.

Record t : Type := mk {
  id : string;
  playerId : string;
  position : Vec3;
  direction : Vec3;
  speed : float;
  damage : Z;
  createdAt : Z;
  lifetime : Z
}.

Definition set_position (v : Vec3) (b : t) : t :=
  mk (id b) (playerId b) v (direction b) (speed b) (damage b) (createdAt b)
     (lifetime b).

End Bullet.

(** ** The JavaScript [Map], in insertion order *)

Section JSMap.

Context {V : Type}.

Fixpoint mapGet (m : list (string * V)) (k : string) : option V :=
  match m with
  | [] => None
  | (k', v) :: rest => if String.eqb k' k then Some v else mapGet rest k
  end.

(** [m.set(k, v)]: an existing key keeps its place, a new key goes last. *)
Fixpoint mapSet (m : list (string * V)) (k : string) (v : V) : list (string * V) :=
  match m with
  | [] => [(k, v)]
  | (k', v') :: rest =>
      if String.eqb k' k then (k, v) :: rest else (k', v') :: mapSet rest k v
  end.

Fixpoint mapDelete (m : list (string * V)) (k : string) : list (string * V) :=
  match m with
  | [] => []
  | (k', v') :: rest =>
      if String.eqb k' k then mapDelete rest k else (k', v') :: mapDelete rest k
  end.

Definition mapKeys (m : list (string * V)) : list string := fst <$> m.

End JSMap.

(** ** Published notifications *)

Inductive Audience : Type :=
  | ToSocket (socketId : string)     (* socket.emit *)
  | ToOthers (socketId : string)     (* socket.broadcast.emit *)
  | ToAll                            (* io.emit *)
  | ToRoom (room : string).          (* io.to(room).emit *)

Record PlayerData : Type := mkPlayerData {
  pd_id : string; pd_position : JSVal; pd_rotation : Vec3; pd_velocity : Vec2;
  pd_health : Z; pd_maxHealth : Z; pd_name : string; pd_kills : Z; pd_deaths : Z
}.

Record BulletData : Type := mkBulletData {
  bd_id : string; bd_position : Vec3; bd_direction : Vec3
}.

Inductive Event : Type :=
  | GameInit (playerId : string) (players : list Player.t) (tick lastUpdate : Z)
  | PlayerJoined (player : Player.t)
  | PlayerFired (playerId bulletId : string) (position direction : Vec3) (ammo : Z)
  | ReloadComplete (ammo totalAmmo : Z)
  | PlayerLeft (playerId : string)
  | BulletExpired (bulletId : string)
  | PlayerHit (hitPlayerId shooterId : string) (damage newHealth : Z) (bulletId : string)
  | PlayerKilled (killedPlayerId killerId killerName victimName : string)
  | PlayerRespawned (playerId : string) (position : JSVal) (health : Z)
  | GameUpdate (players : list PlayerData) (bullets : list BulletData) (tick : Z).

(** ** Pending one-shot timers

    A timer closure captures the player object itself, that is, its heap
    location, together with the delay it was scheduled with. *)

Inductive TimerKind : Type := ReloadTimer | RespawnTimer.

Record Timer : Type := mkTimer {
  kind : TimerKind;
  target : loc;
  delay : Z
}.

(** ** The server state *)

Record World : Type := mkWorld {
  heap : list Player.t;                   (* player objects, by location *)
  players : list (string * loc);          (* this.players *)
  bullets : list (string * Bullet.t);     (* this.bullets *)
  tick : Z;                               (* this.gameState.tick *)
  lastUpdate : Z;                         (* this.gameState.lastUpdate *)
  timers : list Timer;                    (* pending setTimeout callbacks *)
  outbox : list (Audience * Event)        (* everything emitted so far *)
}.

Definition set_heap (h : list Player.t) (w : World) : World :=
  mkWorld h (players w) (bullets w) (tick w) (lastUpdate w) (timers w) (outbox w).
Definition set_players (ps : list (string * loc)) (w : World) : World :=
  mkWorld (heap w) ps (bullets w) (tick w) (lastUpdate w) (timers w) (outbox w).
Definition set_bullets (bs : list (string * Bullet.t)) (w : World) : World :=
  mkWorld (heap w) (players w) bs (tick w) (lastUpdate w) (timers w) (outbox w).
Definition set_clock (t u : Z) (w : World) : World :=
  mkWorld (heap w) (players w) (bullets w) t u (timers w) (outbox w).
Definition set_timers (ts : list Timer) (w : World) : World :=
  mkWorld (heap w) (players w) (bullets w) (tick w) (lastUpdate w) ts (outbox w).

Definition emit (a : Audience) (e : Event) (w : World) : World :=
  mkWorld (heap w) (players w) (bullets w) (tick w) (lastUpdate w) (timers w)
          (outbox w ++ [(a, e)]).

(** Mutation of the player object at location [l]. *)
Definition mutate (l : loc) (f : Player.t -> Player.t) (w : World) : World :=
  set_heap (alter f l (heap w)) w.

Definition schedule (t : Timer) (w : World) : World :=
  set_timers (timers w ++ [t]) w.

Definition initialWorld (now : Z) : World := mkWorld [] [] [] 0 now [] [].

Definition TICK_RATE : Z := 60.
Definition CLIENT_UPDATE_RATE : Z := 20.
Definition BULLET_CLEANUP_INTERVAL : Z := 5000.
Definition MAX_BULLETS : nat := 500.

(** ** Connection and input handlers *)

Definition playerValues (w : World) : list Player.t :=
  omap (fun e : string * loc => heap w !! e.2) (players w).

(** [initializePlayer(socket)]; [now] is the reading of [Date.now()]. *)
Definition initializePlayer (socketId : string) (now : Z) (w : World) : World :=
  let player :=
    Player.mk socketId (JS.point 0 1.8 0) (mkVec3 0 0 0) (mkVec2 0 0)
              100 100 30 120 false now None
              ("Player_" ++ substring 0 6 socketId) 0 0 true in
  let l := length (heap w) in
  let w1 := set_players (mapSet (players w) socketId l)
                        (set_heap (heap w ++ [player]) w) in
  let w2 := emit (ToSocket socketId)
                 (GameInit socketId (playerValues w1) (tick w1) (lastUpdate w1)) w1 in
  emit (ToOthers socketId) (PlayerJoined player) w2.

(** The payload of [player-update].  [position] is whatever the peer sent;
    [velocity] is [None] when the field is absent (falsy). *)
Record UpdateData : Type := mkUpdateData {
  ud_position : JSVal;
  ud_rotation : Vec3;
  ud_velocity : option Vec2
}.

Definition horizontalSpeed (v : Vec2) : float :=
  PrimFloat.sqrt (JS.square (v2x v) + JS.square (v2z v))%float.

(** Lines 79-88 of [handlePlayerUpdate]: the speed limit applied to
    [data.velocity]. *)
Definition clampVelocity (velocity : Vec2) : Vec2 :=
  let maxSpeed := 0.5%float in
  let speed := horizontalSpeed velocity in
  if PrimFloat.ltb maxSpeed speed then
    let factor := (maxSpeed / speed)%float in
    mkVec2 (v2x velocity * factor)%float (v2z velocity * factor)%float
  else velocity.

(** [handlePlayerUpdate(socket, data)] *)
Definition handlePlayerUpdate (socketId : string) (data : UpdateData) (now : Z)
    (w : World) : World :=
  match mapGet (players w) socketId with
  | None => w
  | Some l =>
      if negb (isValidPosition (ud_position data)) then w
      else
        let velocity := option_map clampVelocity (ud_velocity data) in
        mutate l (fun player =>
          Player.set_lastUpdate now
            (Player.set_velocity (default (mkVec2 0 0) velocity)
              (Player.set_rotation (ud_rotation data)
                (Player.set_position (ud_position data) player)))) w
  end.

(** [startReload(player)]: the flag is raised at once, the refill is left
    to a timer that fires 2000 ms later. *)
Definition startReload (l : loc) (w : World) : World :=
  schedule (mkTimer ReloadTimer l 2000) (mutate l (Player.set_isReloading true) w).

(** The callback given to [setTimeout] in [startReload]. *)
Definition reloadCallback (l : loc) (w : World) : World :=
  match heap w !! l with
  | None => w
  | Some player =>
      let ammoNeeded := 30 - Player.ammo player in
      let ammoToReload := Z.min ammoNeeded (Player.totalAmmo player) in
      let player' :=
        Player.set_isReloading false
          (Player.set_totalAmmo (Player.totalAmmo player - ammoToReload)
            (Player.set_ammo (Player.ammo player + ammoToReload) player)) in
      emit (ToRoom (Player.id player'))
           (ReloadComplete (Player.ammo player') (Player.totalAmmo player'))
           (mutate l (fun _ => player') w)
  end.

(** [entries.sort((a, b) => a[1].createdAt - b[1].createdAt)]: a stable
    sort by creation time. *)
Fixpoint insertByCreatedAt (e : string * Bullet.t) (sorted : list (string * Bullet.t))
    : list (string * Bullet.t) :=
  match sorted with
  | [] => [e]
  | e' :: rest =>
      if Bullet.createdAt e.2 <=? Bullet.createdAt e'.2 then e :: e' :: rest
      else e' :: insertByCreatedAt e rest
  end.

Definition sortByCreatedAt (entries : list (string * Bullet.t))
    : list (string * Bullet.t) :=
  foldr insertByCreatedAt [] entries.

(** Lines 132-136 of [handlePlayerFire]. *)
Definition limitBullets (w : World) : World :=
  if (MAX_BULLETS <? length (bullets w))%nat then
    match sortByCreatedAt (bullets w) with
    | oldestBullet :: _ => set_bullets (mapDelete (bullets w) oldestBullet.1) w
    | [] => w
    end
  else w.

(** The payload of [player-fire]. *)
Record FireData : Type := mkFireData {
  fd_position : Vec3;
  fd_direction : Vec3
}.

(** [!player.lastFireTime] *)
Definition noLastFireTime (player : Player.t) : bool :=
  match Player.lastFireTime player with
  | None => true
  | Some t => t =? 0
  end.

(** [handlePlayerFire(socket, data)].  [now] is the first reading of
    [Date.now()]; [suffix] is the text of the second reading and of
    [Math.random()] that ends the bullet identifier. *)
Definition handlePlayerFire (socketId : string) (data : FireData) (now : Z)
    (suffix : string) (w : World) : World :=
  match mapGet (players w) socketId with
  | None => w
  | Some l =>
      match heap w !! l with
      | None => w
      | Some player =>
          if (Player.health player <=? 0) || Player.isReloading player
             || (Player.ammo player <=? 0)
          then w
          else
            let player1 :=
              if noLastFireTime player then Player.set_lastFireTime (Some 0) player
              else player in
            let w1 := mutate l (fun _ => player1) w in
            if now - default 0 (Player.lastFireTime player1) <? 100 then w1
            else
              let player2 :=
                Player.set_ammo (Player.ammo player1 - 1)
                  (Player.set_lastFireTime (Some now) player1) in
              let w2 := mutate l (fun _ => player2) w1 in
              let w3 :=
                if (Player.ammo player2 <=? 0) && (0 <? Player.totalAmmo player2)
                then startReload l w2 else w2 in
              let bulletId := (socketId ++ "_" ++ suffix)%string in
              let bullet :=
                Bullet.mk bulletId socketId (fd_position data) (fd_direction data)
                          50 25 now 3000 in
              let w4 := set_bullets (mapSet (bullets w3) bulletId bullet) w3 in
              let w5 := limitBullets w4 in
              emit ToAll
                   (PlayerFired socketId bulletId (Bullet.position bullet)
                                (Bullet.direction bullet) (Player.ammo player2))
                   w5
      end
  end.

(** [handlePlayerReload(socket)] *)
Definition handlePlayerReload (socketId : string) (w : World) : World :=
  match mapGet (players w) socketId with
  | None => w
  | Some l =>
      match heap w !! l with
      | None => w
      | Some player =>
          if Player.isReloading player || (Player.totalAmmo player <=? 0)
             || (30 <=? Player.ammo player)
          then w
          else startReload l w
      end
  end.

(** [handleDisconnect(socket)] *)
Definition handleDisconnect (socketId : string) (w : World) : World :=
  match mapGet (players w) socketId with
  | None => w
  | Some _ =>
      let w1 :=
        fold_left
          (fun (acc : World) (entry : string * Bullet.t) =>
             if String.eqb (Bullet.playerId entry.2) socketId
             then set_bullets (mapDelete (bullets acc) entry.1) acc
             else acc)
          (bullets w) w in
      let w2 := set_players (mapDelete (players w1) socketId) w1 in
      emit (ToOthers socketId) (PlayerLeft socketId) w2
  end.

(** ** The simulation tick *)

(** The three [+=] statements of [updateBullets]. *)
Definition moveBullet (deltaTime : float) (bullet : Bullet.t) : Bullet.t :=
  let p := Bullet.position bullet in
  let d := Bullet.direction bullet in
  Bullet.set_position
    (mkVec3 (v3x p + v3x d * Bullet.speed bullet * deltaTime)%float
            (v3y p + v3y d * Bullet.speed bullet * deltaTime)%float
            (v3z p + v3z d * Bullet.speed bullet * deltaTime)%float)
    bullet.

Definition isExpired (now : Z) (bullet : Bullet.t) : bool :=
  Bullet.lifetime bullet <? now - Bullet.createdAt bullet.

(** One iteration of the loop of [updateBullets]. *)
Definition updateBullet (now : Z) (w : World) (entry : string * Bullet.t) : World :=
  let deltaTime := 0.016%float in
  let bulletId := entry.1 in
  let bullet := moveBullet deltaTime entry.2 in
  let w1 := set_bullets (mapSet (bullets w) bulletId bullet) w in
  if isExpired now bullet
  then emit ToAll (BulletExpired bulletId)
            (set_bullets (mapDelete (bullets w1) bulletId) w1)
  else w1.

(** [updateBullets(now)] *)
Definition updateBullets (now : Z) (w : World) : World :=
  fold_left (updateBullet now) (bullets w) w.

(** [handlePlayerHit(bullet, hitPlayer)]; [hit] is the location of the
    object bound to [hitPlayer]. *)
Definition handlePlayerHit (bullet : Bullet.t) (hit : loc) (w : World) : World :=
  match mapGet (players w) (Bullet.playerId bullet) with
  | None => w
  | Some shooter =>
      let w1 :=
        mutate hit
          (fun p => Player.set_health (Player.health p - Bullet.damage bullet) p) w in
      match heap w1 !! hit, heap w1 !! shooter with
      | Some hitPlayer, Some shooterPlayer =>
          let w2 :=
            emit ToAll
                 (PlayerHit (Player.id hitPlayer) (Player.id shooterPlayer)
                            (Bullet.damage bullet) (Player.health hitPlayer)
                            (Bullet.id bullet)) w1 in
          if Player.health hitPlayer <=? 0 then
            let w3 := mutate hit (fun p => Player.set_deaths (Player.deaths p + 1) p) w2 in
            let w4 := mutate shooter (fun p => Player.set_kills (Player.kills p + 1) p) w3 in
            let w5 :=
              emit ToAll
                   (PlayerKilled (Player.id hitPlayer) (Player.id shooterPlayer)
                                 (Player.name shooterPlayer) (Player.name hitPlayer))
                   w4 in
            schedule (mkTimer RespawnTimer hit 3000) w5
          else w2
      | _, _ => w1
      end
  end.

(** How a piece of code ends: normally, or by a [TypeError] that nothing
    catches; either way with the state it has reached. *)
Inductive Completion : Type :=
  | Normal (w : World)
  | Throw (w : World).

Definition stateOf (c : Completion) : World :=
  match c with
  | Normal w => w
  | Throw w => w
  end.

(** The distance computed in [checkBulletCollisions] between the position
    of a projectile and [player.position].  Reading a field of
    [undefined] or [null] throws, and so may the conversion of a field
    to a number. *)
Definition distance (a : Vec3) (position : JSVal) : option float :=
  match position with
  | VUndefined | VNull => None
  | _ =>
      match JS.toNumber (JS.get position "x"), JS.toNumber (JS.get position "y"),
            JS.toNumber (JS.get position "z") with
      | Some x, Some y, Some z =>
          Some (PrimFloat.sqrt
                  (JS.square (v3x a - x) + JS.square (v3y a - y)
                   + JS.square (v3z a - z))%float)
      | _, _, _ => None
      end
  end.

(** The inner loop of [checkBulletCollisions], over the entries of
    [this.players] that are still to be visited. *)
Fixpoint scanPlayers (bulletId : string) (bullet : Bullet.t)
    (entries : list (string * loc)) (w : World) : Completion :=
  match entries with
  | [] => Normal w
  | (playerId, l) :: rest =>
      match heap w !! l with
      | None => scanPlayers bulletId bullet rest w
      | Some player =>
          if String.eqb (Bullet.playerId bullet) playerId
             || (Player.health player <=? 0)
          then scanPlayers bulletId bullet rest w
          else
            match distance (Bullet.position bullet) (Player.position player) with
            | None => Throw w
            | Some d =>
                if PrimFloat.ltb d 0.8 then
                  let w1 := handlePlayerHit bullet l w in
                  Normal (set_bullets (mapDelete (bullets w1) bulletId) w1)
                else scanPlayers bulletId bullet rest w
            end
      end
  end.

(** The outer loop of [checkBulletCollisions], over the entries of
    [this.bullets] that are still to be visited. *)
Fixpoint scanBullets (entries : list (string * Bullet.t)) (w : World) : Completion :=
  match entries with
  | [] => Normal w
  | (bulletId, bullet) :: rest =>
      match scanPlayers bulletId bullet (players w) w with
      | Normal w1 => scanBullets rest w1
      | Throw w1 => Throw w1
      end
  end.

(** [checkBulletCollisions()] *)
Definition checkBulletCollisions (w : World) : Completion :=
  scanBullets (bullets w) w.

(** [respawnPlayer(player)]; [r1] and [r2] are the two samples of
    [Math.random()]. *)
Definition respawnPlayer (l : loc) (r1 r2 : float) (w : World) : World :=
  match heap w !! l with
  | None => w
  | Some player =>
      let player' :=
        Player.set_position
          (JS.point ((r1 - 0.5) * 50)%float 1.8 ((r2 - 0.5) * 50)%float)
          (Player.set_isReloading false
            (Player.set_totalAmmo 120
              (Player.set_ammo 30
                (Player.set_health (Player.maxHealth player) player)))) in
      emit ToAll
           (PlayerRespawned (Player.id player') (Player.position player')
                            (Player.health player'))
           (mutate l (fun _ => player') w)
  end.

(** [cleanupInactivePlayers(now)] *)
Definition cleanupInactivePlayers (now : Z) (w : World) : World :=
  fold_left
    (fun (acc : World) (entry : string * loc) =>
       match heap acc !! entry.2 with
       | None => acc
       | Some player =>
           if 60000 <? now - Player.lastUpdate player
           then emit ToAll (PlayerLeft entry.1)
                     (set_players (mapDelete (players acc) entry.1) acc)
           else acc
       end)
    (players w) w.

(** [updateGameState()].  An error thrown by the collision pass ends the
    callback there: the players are not swept in that tick. *)
Definition updateGameState (now : Z) (w : World) : World :=
  let w1 := set_clock (tick w + 1) now w in
  let w2 := updateBullets now w1 in
  match checkBulletCollisions w2 with
  | Normal w3 => cleanupInactivePlayers now w3
  | Throw w3 => w3
  end.

(** [sendClientUpdates()] *)
Definition sendClientUpdates (w : World) : World :=
  if (length (players w) =? 0)%nat then w
  else
    let playersData :=
      map (fun p => mkPlayerData (Player.id p) (Player.position p) (Player.rotation p)
                      (Player.velocity p) (Player.health p) (Player.maxHealth p)
                      (Player.name p) (Player.kills p) (Player.deaths p))
          (playerValues w) in
    let bulletsData :=
      map (fun e : string * Bullet.t =>
             mkBulletData (Bullet.id e.2) (Bullet.position e.2) (Bullet.direction e.2))
          (bullets w) in
    emit ToAll (GameUpdate playersData bulletsData (tick w)) w.

(** The body of the interval started by [startCleanupLoop]. *)
Definition cleanupLoop (now : Z) (w : World) : World :=
  fold_left
    (fun (acc : World) (entry : string * Bullet.t) =>
       if isExpired now entry.2
       then set_bullets (mapDelete (bullets acc) entry.1) acc
       else acc)
    (bullets w) w.

(** ** Timers and the event loop *)

(** A pending timer fires: it leaves the pending list and its callback
    runs.  [r1] and [r2] feed [Math.random()] in the respawn callback. *)
Definition fireTimer (i : nat) (r1 r2 : float) (w : World) : World :=
  match timers w !! i with
  | None => w
  | Some t =>
      let w1 := set_timers (delete i (timers w)) w in
      match kind t with
      | ReloadTimer => reloadCallback (target t) w1
      | RespawnTimer => respawnPlayer (target t) r1 r2 w1
      end
  end.

(** Everything the single-threaded event loop can run next.  A callback
    that throws ends where it threw and leaves the state it had reached.
    Node then ends the process unless its host handles uncaught errors;
    the runs below do not stop there, so they pass through every state
    the server passes through. *)
Inductive Action : Type :=
  | Connect (socketId : string) (now : Z)
  | PlayerUpdate (socketId : string) (data : UpdateData) (now : Z)
  | PlayerFire (socketId : string) (data : FireData) (now : Z) (suffix : string)
  | PlayerReload (socketId : string)
  | Disconnect (socketId : string)
  | GameTick (now : Z)
  | ClientTick
  | CleanupTick (now : Z)
  | TimerFires (i : nat) (r1 r2 : float).

Definition step (a : Action) (w : World) : World :=
  match a with
  | Connect socketId now => initializePlayer socketId now w
  | PlayerUpdate socketId data now => handlePlayerUpdate socketId data now w
  | PlayerFire socketId data now suffix => handlePlayerFire socketId data now suffix w
  | PlayerReload socketId => handlePlayerReload socketId w
  | Disconnect socketId => handleDisconnect socketId w
  | GameTick now => updateGameState now w
  | ClientTick => sendClientUpdates w
  | CleanupTick now => cleanupLoop now w
  | TimerFires i r1 r2 => fireTimer i r1 r2 w
  end.

Definition run (actions : list Action) (w : World) : World :=
  fold_left (fun acc a => step a acc) actions w.

(** The states the server can be in: those reached from the state built by
    the constructor by running handlers, ticks and timer callbacks. *)
Inductive reachable : World -> Prop :=
  | reachable_init (now : Z) : reachable (initialWorld now)
  | reachable_step (a : Action) (w : World) :
      reachable w -> reachable (step a w).

(** ** Notions used to state the properties *)

(** The store holds the object at [l]: some identifier maps to it. *)
Definition stored (w : World) (l : loc) : Prop :=
  exists socketId, mapGet (players w) socketId = Some l.

(** The preconditions of a fire request, as the design states them: the
    player exists, is alive, is not reloading, has a round left, and its
    last successful fire, if any, is at least 100 ms old. *)
Definition fireAllowed (socketId : string) (now : Z) (w : World) : bool :=
  match mapGet (players w) socketId with
  | None => false
  | Some l =>
      match heap w !! l with
      | None => false
      | Some player =>
          (0 <? Player.health player) && negb (Player.isReloading player)
          && (0 <? Player.ammo player)
          && match Player.lastFireTime player with
             | None => true
             | Some t => 100 <=? now - t
             end
      end
  end.

(** What the collision pass makes of a player entry when it tests
    [bullet] against it.  The entry is passed over when it is the
    shooter's, when its player has no health left, or when the player is
    not strictly closer than the hit radius; it is hit when the player is;
    the test fails when the distance cannot be computed. *)
Inductive Verdict : Type := Passed | Hit | Failed.

Definition verdict (bullet : Bullet.t) (h : list Player.t) (entry : string * loc)
    : Verdict :=
  match h !! entry.2 with
  | None => Passed
  | Some player =>
      if negb (String.eqb (Bullet.playerId bullet) entry.1)
         && (0 <? Player.health player)
      then
        match distance (Bullet.position bullet) (Player.position player) with
        | None => Failed
        | Some d => if PrimFloat.ltb d 0.8 then Hit else Passed
        end
      else Passed
  end.

(** The scan of the players ends at this entry. *)
Definition stops (bullet : Bullet.t) (h : list Player.t) (entry : string * loc) : bool :=
  match verdict bullet h entry with
  | Passed => false
  | _ => true
  end.


Definition healthOf (w : World) (l : loc) : option Z :=
  Player.health <$> heap w !! l.

(** A bullet is not the oldest of the store [m] when some entry of [m] is
    at least as old. *)
Definition notOldest (m : list (string * Bullet.t)) (bullet : Bullet.t) : Prop :=
  exists e, e ∈ m /\ Bullet.createdAt e.2 <= Bullet.createdAt bullet.

(** Health is a multiple of the fixed damage between 0 and the maximum. *)
Definition player_ok (p : Player.t) : Prop :=
  Player.maxHealth p = 100 /\ 0 <= Player.health p <= 100
  /\ (25 | Player.health p).

Definition bullet_ok (e : string * Bullet.t) : Prop := Bullet.damage e.2 = 25.

Definition message_ok (m : Audience * Event) : Prop :=
  match m.2 with
  | PlayerHit _ _ _ newHealth _ => 0 <= newHealth <= 100
  | _ => True
  end.

Definition world_ok (w : World) : Prop :=
  Forall player_ok (heap w) /\ Forall bullet_ok (bullets w)
  /\ Forall message_ok (outbox w).

(** The bullet a request creates. *)
Definition firedBullet (socketId : string) (data : FireData) (now : Z)
    (suffix : string) : Bullet.t :=
  Bullet.mk (socketId ++ "_" ++ suffix) socketId (fd_position data)
            (fd_direction data) 50 25 now 3000.

(** What each timer publishes for the record [p] it captured. *)
Definition timerNotice (k : TimerKind) (r1 r2 : float) (p : Player.t)
    : Audience * Event :=
  match k with
  | ReloadTimer =>
      let moved := Z.min (30 - Player.ammo p) (Player.totalAmmo p) in
      (ToRoom (Player.id p),
       ReloadComplete (Player.ammo p + moved) (Player.totalAmmo p - moved))
  | RespawnTimer =>
      (ToAll,
       PlayerRespawned (Player.id p)
         (JS.point ((r1 - 0.5) * 50)%float 1.8 ((r2 - 0.5) * 50)%float)
         (Player.maxHealth p))
  end.

(** ** Sample runs *)

Definition origin : Vec3 := mkVec3 0 0 0.
Definition spawnPoint : Vec3 := mkVec3 0 1.8 0.

(** One player joins and fires a round along the x axis. *)
Definition oneShotFired : World :=
  run [Connect "a" 0; PlayerFire "a" (mkFireData origin (mkVec3 1 0 0)) 1000 "1000_0.5"]
      (initialWorld 0).

(** Two players; the first has fired one round. *)
Definition twoPlayers : World :=
  run [Connect "a" 0; Connect "b" 0;
       PlayerFire "a" (mkFireData origin (mkVec3 1 0 0)) 1000 "1000_0.5";
       PlayerFire "b" (mkFireData origin (mkVec3 0 0 1)) 1000 "1000_0.25"]
      (initialWorld 0).

(** A player joins and fires [n] rounds, 100 ms apart. *)
Definition roundsFired (n : nat) : World :=
  run (Connect "a" 0
       :: map (fun i : nat =>
                 PlayerFire "a" (mkFireData origin (mkVec3 1 0 0))
                            (1000 + 100 * Z.of_nat i) (pretty i))
              (seq 0 n))
      (initialWorld 0).

(** A store at capacity: one player and 500 projectiles, created one
    millisecond apart. *)
Definition fullStore : World :=
  mkWorld
    [Player.mk "a" (JS.point 0 1.8 0) origin (mkVec2 0 0) 100 100 30 120 false 0
               None "Player_a" 0 0 true]
    [("a"%string, 0%nat)]
    (map (fun i : nat =>
            (pretty i, Bullet.mk (pretty i) "a" origin (mkVec3 1 0 0) 50 25
                                 (Z.of_nat i) 3000))
         (seq 0 500))
    0 0 [] [].

(** The rounds one player fires, 100 ms apart from 10 s on. *)
Definition volley (shooter shots : nat) : list Action :=
  map (fun i : nat =>
         PlayerFire ("p" ++ pretty shooter) (mkFireData origin (mkVec3 1 0 0))
                    (10000 + 100 * Z.of_nat i) (pretty i))
      (seq 0 shots).

(** Eighteen players join.  Sixteen of them empty their magazines and
    the seventeenth fires twenty rounds, which fills the store to
    capacity; the eighteenth has not fired. *)
Definition crowded : World :=
  run (map (fun j : nat => Connect ("p" ++ pretty j) 0) (seq 0 18)
       ++ concat (map (fun j : nat => volley j 30) (seq 0 16))
       ++ volley 16 20)
      (initialWorld 0).

(** A player takes one shot, asks for a reload and leaves before the
    reload timer fires. *)
Definition reloadOrphan : World :=
  run [Connect "a" 0;
       PlayerFire "a" (mkFireData origin (mkVec3 1 0 0)) 1000 "x";
       PlayerReload "a";
       Disconnect "a"]
      (initialWorld 0).

(** Two players stand on the spawn point.  The first shoots the second
    four times, one tick after each shot. *)
Definition duel : World :=
  run [Connect "a" 0; Connect "b" 0;
       PlayerFire "a" (mkFireData spawnPoint origin) 1000 "1"; GameTick 1016;
       PlayerFire "a" (mkFireData spawnPoint origin) 1100 "2"; GameTick 1116;
       PlayerFire "a" (mkFireData spawnPoint origin) 1200 "3"; GameTick 1216;
       PlayerFire "a" (mkFireData spawnPoint origin) 1300 "4"; GameTick 1316]
      (initialWorld 0).

(** The victim leaves before the respawn timer fires. *)
Definition respawnOrphan : World := step (Disconnect "b") duel.

(** Three players on the spawn point and a projectile of the first one
    at the same place. *)
Definition threePlayers : World :=
  run [Connect "a" 0; Connect "b" 0; Connect "c" 0;
       PlayerFire "a" (mkFireData spawnPoint origin) 1000 "1"]
      (initialWorld 0).


(** The second of two players reports a position on the vertical axis
    whose [y] is [height]; the first then fires, at time [now], a
    projectile that stays at the origin. *)
Definition standingAt (height : JSVal) (now : Z) : World :=
  run [Connect "a" 0; Connect "b" 0;
       PlayerUpdate "b"
         (mkUpdateData
            (VObject [("x"%string, VNumber 0); ("y"%string, height);
                      ("z"%string, VNumber 0)])
            origin None) 500;
       PlayerFire "a" (mkFireData origin origin) now "1"]
      (initialWorld 0).

(** ** Further notions *)

(** The preconditions of an explicit reload request: the player exists,
    is not reloading, has rounds in reserve and a magazine that is not
    full. *)
Definition reloadAllowed (socketId : string) (w : World) : bool :=
  match mapGet (players w) socketId with
  | None => false
  | Some l =>
      match heap w !! l with
      | None => false
      | Some player =>
          negb (Player.isReloading player) && (0 <? Player.totalAmmo player)
          && (Player.ammo player <? 30)
      end
  end.

(** The fields of a player record that input handling must leave alone. *)
Definition sameCombatState (p p' : Player.t) : Prop :=
  Player.id p' = Player.id p /\ Player.name p' = Player.name p
  /\ Player.health p' = Player.health p /\ Player.maxHealth p' = Player.maxHealth p
  /\ Player.ammo p' = Player.ammo p /\ Player.totalAmmo p' = Player.totalAmmo p
  /\ Player.isReloading p' = Player.isReloading p
  /\ Player.lastFireTime p' = Player.lastFireTime p
  /\ Player.kills p' = Player.kills p /\ Player.deaths p' = Player.deaths p.

(** The magazine holds at most 30 rounds, the reserve at most 120, and
    the counters are not negative. *)
Definition counters_ok (p : Player.t) : Prop :=
  0 <= Player.ammo p <= 30 /\ 0 <= Player.totalAmmo p <= 120
  /\ 0 <= Player.kills p /\ 0 <= Player.deaths p.

(** A stored projectile is filed under its own identifier and carries the
    fixed speed, damage and lifetime. *)
Definition bullet_wf (e : string * Bullet.t) : Prop :=
  Bullet.id e.2 = e.1 /\ Bullet.speed e.2 = 50%float /\ Bullet.damage e.2 = 25
  /\ Bullet.lifetime e.2 = 3000.

Definition store_ok (w : World) : Prop :=
  NoDup (mapKeys (players w)) /\ NoDup (mapKeys (bullets w))
  /\ (length (bullets w) <= MAX_BULLETS)%nat /\ Forall bullet_wf (bullets w).

(** The entry's record has had no update for more than 60 s. *)
Definition isInactive (now : Z) (h : list Player.t) (entry : string * loc) : bool :=
  match h !! entry.2 with
  | Some player => 60000 <? now - Player.lastUpdate player
  | None => false
  end.

(** The number of simulation ticks among the actions of a run. *)
Definition countTicks (actions : list Action) : nat :=
  length (List.filter (fun a => match a with GameTick _ => true | _ => false end)
                      actions).

(** Every entry of the player store refers to a record that exists and
    carries the entry's key as its identifier, and every pending timer
    refers to a record that exists. *)
Definition refs_ok (w : World) : Prop :=
  (forall k l, (k, l) ∈ players w ->
     exists p, heap w !! l = Some p /\ Player.id p = k)
  /\ Forall (fun t => (target t < length (heap w))%nat) (timers w).

(** Kills minus deaths, summed over all records. *)
Definition balance (h : list Player.t) : Z :=
  foldr (fun p acc => Player.kills p - Player.deaths p + acc) 0 h.

(** A hit notification names two different players and the fixed damage. *)
Definition hit_notice_ok (m : Audience * Event) : Prop :=
  match m.2 with
  | PlayerHit hitPlayerId shooterId damage _ _ =>
      hitPlayerId <> shooterId /\ damage = 25
  | _ => True
  end.

Definition notices_ok (w : World) : Prop := Forall hit_notice_ok (outbox w).

(** Every record of the heap satisfies [P]. *)
Definition heap_inv (P : Player.t -> Prop) (w : World) : Prop := Forall P (heap w).

(** * Properties *)

(** ** The insertion-ordered map *)

Section JSMapFacts.

Context {V : Type}.
Implicit Types (m : list (string * V)) (k : string) (v : V).

Lemma mapGet_mapSet_eq m k v : mapGet (mapSet m k v) k = Some v.
Proof.
  induction m as [|[k' v'] m IH]; simpl.
  - by rewrite String.eqb_refl.
  - destruct (String.eqb_spec k' k) as [->|Hne]; simpl.
    + by rewrite String.eqb_refl.
    + by destruct (String.eqb_spec k' k).
Qed.

Lemma mapGet_mapSet_ne m k k' v :
  k <> k' -> mapGet (mapSet m k v) k' = mapGet m k'.
Proof.
  intros Hne. induction m as [|[k0 v0] m IH]; simpl.
  - by destruct (String.eqb_spec k k').
  - destruct (String.eqb_spec k0 k) as [->|Hne0]; simpl.
    + destruct (String.eqb_spec k k'); [congruence|done].
    + by rewrite IH.
Qed.

Lemma mapGet_mapDelete_eq m k : mapGet (mapDelete m k) k = None.
Proof.
  induction m as [|[k' v'] m IH]; simpl; [done|].
  destruct (String.eqb_spec k' k) as [->|Hne]; simpl; [done|].
  by destruct (String.eqb_spec k' k).
Qed.

Lemma mapGet_mapDelete_ne m k k' :
  k <> k' -> mapGet (mapDelete m k) k' = mapGet m k'.
Proof.
  intros Hne. induction m as [|[k0 v0] m IH]; simpl; [done|].
  destruct (String.eqb_spec k0 k) as [->|Hne0]; simpl.
  - destruct (String.eqb_spec k k'); [congruence|done].
  - by rewrite IH.
Qed.

Lemma mapDelete_filter m k :
  mapDelete m k = List.filter (fun e => negb (String.eqb e.1 k)) m.
Proof.
  induction m as [|[k' v'] m IH]; simpl; [done|].
  destruct (String.eqb k' k); simpl; by rewrite IH.
Qed.

Lemma mapDelete_notin m k : k ∉ mapKeys m -> mapDelete m k = m.
Proof.
  induction m as [|[k' v'] m IH]; simpl; [done|].
  intros Hn. apply not_elem_of_cons in Hn as [Hne Hn].
  destruct (String.eqb_spec k' k); [congruence|]. by rewrite IH.
Qed.

Lemma mapSet_notin m k v : k ∉ mapKeys m -> mapSet m k v = m ++ [(k, v)].
Proof.
  induction m as [|[k' v'] m IH]; simpl; [done|].
  intros Hn. apply not_elem_of_cons in Hn as [Hne Hn].
  destruct (String.eqb_spec k' k); [congruence|]. by rewrite IH.
Qed.

Lemma mapGet_None m k : mapGet m k = None <-> k ∉ mapKeys m.
Proof.
  induction m as [|[k' v'] m IH]; simpl.
  - split; [intros _; apply not_elem_of_nil|done].
  - destruct (String.eqb_spec k' k) as [->|Hne].
    + split; [done|]. intros Hn. exfalso. apply Hn. left.
    + rewrite IH, not_elem_of_cons. split; [intros ?; split; congruence|by intros [_ ?]].
Qed.

Lemma mapGet_Some_elem_of m k v : mapGet m k = Some v -> (k, v) ∈ m.
Proof.
  induction m as [|[k' v'] m IH]; simpl; [done|].
  destruct (String.eqb_spec k' k) as [->|Hne].
  - intros [= ->]. left.
  - intros H. right. by apply IH.
Qed.

Lemma elem_of_mapGet m k v :
  NoDup (mapKeys m) -> (k, v) ∈ m -> mapGet m k = Some v.
Proof.
  induction m as [|[k' v'] m IH]; simpl.
  - intros _ H. by apply elem_of_nil in H.
  - intros Hnd H. apply NoDup_cons in Hnd as [Hn Hnd].
    apply elem_of_cons in H as [[= -> ->]|H].
    + by rewrite String.eqb_refl.
    + destruct (String.eqb_spec k' k) as [->|Hne]; [|by apply IH].
      exfalso. apply Hn. apply list_elem_of_fmap. by exists (k, v).
Qed.

(** Writing to, or deleting, the entry the iteration stands on leaves
    the entries before and after it alone. *)
Lemma mapSet_middle m1 m2 k v v' :
  k ∉ mapKeys m1 -> mapSet (m1 ++ (k, v) :: m2) k v' = m1 ++ (k, v') :: m2.
Proof.
  induction m1 as [|[k0 v0] m1 IH]; simpl.
  - intros _. by rewrite String.eqb_refl.
  - intros Hn. apply not_elem_of_cons in Hn as [Hne Hn].
    destruct (String.eqb_spec k0 k); [congruence|]. by rewrite IH.
Qed.

Lemma mapDelete_middle m1 m2 k v :
  k ∉ mapKeys m1 -> k ∉ mapKeys m2 ->
  mapDelete (m1 ++ (k, v) :: m2) k = m1 ++ m2.
Proof.
  induction m1 as [|[k0 v0] m1 IH]; simpl.
  - intros _ Hn. rewrite String.eqb_refl. by apply mapDelete_notin.
  - intros Hn Hn2. apply not_elem_of_cons in Hn as [Hne Hn].
    destruct (String.eqb_spec k0 k); [congruence|]. by rewrite IH.
Qed.

Lemma mapKeys_mapDelete_subseteq m k : mapKeys (mapDelete m k) ⊆ mapKeys m.
Proof.
  rewrite mapDelete_filter. unfold mapKeys. intros x Hx.
  apply list_elem_of_fmap in Hx as (e & -> & He).
  apply list_elem_of_In, filter_In in He as [He _].
  apply list_elem_of_fmap. exists e. split; [done|]. by apply list_elem_of_In.
Qed.

Lemma NoDup_mapDelete m k : NoDup (mapKeys m) -> NoDup (mapKeys (mapDelete m k)).
Proof.
  induction m as [|[k' v'] m IH]; simpl; [done|].
  intros Hnd. apply NoDup_cons in Hnd as [Hn Hnd].
  destruct (String.eqb k' k); [by apply IH|]. simpl.
  apply NoDup_cons. split; [|by apply IH].
  intros Hin. apply Hn. by apply (mapKeys_mapDelete_subseteq m k).
Qed.

Lemma mapKeys_mapSet m k v :
  mapKeys (mapSet m k v)
  = match mapGet m k with Some _ => mapKeys m | None => mapKeys m ++ [k] end.
Proof.
  induction m as [|[k' v'] m IH]; simpl; [done|].
  destruct (String.eqb_spec k' k) as [->|Hne]; simpl; [done|].
  rewrite IH. by destruct (mapGet m k).
Qed.

Lemma NoDup_mapSet m k v : NoDup (mapKeys m) -> NoDup (mapKeys (mapSet m k v)).
Proof.
  intros Hnd. rewrite mapKeys_mapSet.
  destruct (mapGet m k) eqn:Hg; [done|].
  apply NoDup_app. split_and!; [done| |apply NoDup_singleton].
  intros x Hx Hx'. apply list_elem_of_singleton in Hx' as ->.
  by apply mapGet_None in Hg.
Qed.

Lemma length_mapSet m k v :
  length (mapSet m k v)
  = match mapGet m k with Some _ => length m | None => S (length m) end.
Proof.
  induction m as [|[k' v'] m IH]; simpl; [done|].
  destruct (String.eqb_spec k' k); simpl; [done|].
  rewrite IH. by destruct (mapGet m k).
Qed.

Lemma length_mapDelete_le m k : (length (mapDelete m k) <= length m)%nat.
Proof.
  induction m as [|[k' v'] m IH]; simpl; [done|].
  destruct (String.eqb k' k); simpl; lia.
Qed.

Lemma Forall_mapSet (P : string * V -> Prop) m k v :
  Forall P m -> P (k, v) -> Forall P (mapSet m k v).
Proof.
  intros Hm Hk. induction Hm as [|[k' v'] m Hx Hm IH]; simpl.
  - by constructor.
  - destruct (String.eqb k' k); by constructor.
Qed.

Lemma Forall_mapDelete (P : string * V -> Prop) m k :
  Forall P m -> Forall P (mapDelete m k).
Proof.
  intros Hm. induction Hm as [|[k' v'] m Hx Hm IH]; simpl; [done|].
  destruct (String.eqb k' k); [done|by constructor].
Qed.

End JSMapFacts.

(** ** Runs *)

Lemma reachable_run actions w : reachable w -> reachable (run actions w).
Proof.
  revert w. induction actions as [|a actions IH]; intros w Hw; [done|].
  simpl. apply IH. by constructor.
Qed.

(** ** Conversion to a number *)

(** The numbers that a few texts denote: decimal literals are rounded to
    the nearest binary64 value, white space around the literal is
    dropped, and a text that is no literal is [NaN]. *)
Example stringToNumber_samples :
  JS.stringToNumber "1.8" = 1.8%float
  /\ JS.stringToNumber " 12	" = 12%float
  /\ JS.stringToNumber "" = 0%float
  /\ JS.stringToNumber "-0" = (-0)%float
  /\ JS.stringToNumber "+.5E+1" = 5%float
  /\ JS.stringToNumber "5." = 5%float
  /\ JS.stringToNumber "0x1F" = 31%float
  /\ JS.stringToNumber "0b101" = 5%float
  /\ JS.stringToNumber "-0x1F" = PrimFloat.nan
  /\ JS.stringToNumber "1e400" = PrimFloat.infinity
  /\ JS.stringToNumber "-Infinity" = PrimFloat.neg_infinity
  /\ JS.stringToNumber "9007199254740993" = 9007199254740992%float
  /\ JS.stringToNumber "0.30000000000000004" = (0.1 + 0.2)%float
  /\ JS.stringToNumber "5e-324" = 0x1p-1074%float
  /\ JS.stringToNumber "2e-324" = 0%float
  /\ JS.stringToNumber "1.7976931348623159e308" = PrimFloat.infinity
  /\ JS.stringToNumber "." = PrimFloat.nan
  /\ JS.stringToNumber "1e" = PrimFloat.nan
  /\ JS.stringToNumber "1_0" = PrimFloat.nan
  /\ JS.stringToNumber "12px" = PrimFloat.nan
  /\ JS.stringToNumber "1 2" = PrimFloat.nan.
Proof. split_and!; vm_compute; reflexivity. Qed.

Example toNumber_samples :
  JS.toNumber VNull = Some 0%float
  /\ JS.toNumber VUndefined = Some PrimFloat.nan
  /\ JS.toNumber (VBool true) = Some 1%float
  /\ JS.toNumber (VString "0.5") = Some 0.5%float
  /\ JS.toNumber (VObject []) = Some PrimFloat.nan
  /\ JS.toNumber (VObject [("valueOf"%string, VNumber 1)]) = Some PrimFloat.nan
  /\ JS.toNumber (VObject [("toString"%string, VNumber 1)]) = None.
Proof. split_and!; vm_compute; reflexivity. Qed.

(** ** Input validation *)

Lemma isValidPosition_true_iff (position : JSVal) :
  isValidPosition position = true <->
  JS.truthy position = true /\
  exists fx fz,
    JS.get position "x" = VNumber fx /\ JS.get position "z" = VNumber fz
    /\ PrimFloat.ltb 1000 (PrimFloat.abs fx) = false
    /\ PrimFloat.ltb 1000 (PrimFloat.abs fz) = false.
Proof.
  unfold isValidPosition. split.
  - destruct (JS.truthy position); simpl; [|done].
    destruct (JS.get position "x") as [| | |fx| |]; simpl; try done.
    destruct (JS.get position "z") as [| | |fz| |]; simpl; try done.
    destruct (PrimFloat.ltb 1000 (PrimFloat.abs fx)) eqn:Hx; simpl; [done|].
    destruct (PrimFloat.ltb 1000 (PrimFloat.abs fz)) eqn:Hz; simpl; [done|].
    intros _. split; [done|]. by exists fx, fz.
  - intros (-> & fx & fz & -> & -> & Hx & Hz). simpl. by rewrite Hx, Hz.
Qed.

(** Objects with a missing or non-numeric coordinate are rejected. *)
Lemma isValidPosition_rejects_non_number (position : JSVal) :
  JS.typeof (JS.get position "x") <> "number"%string
  \/ JS.typeof (JS.get position "z") <> "number"%string ->
  isValidPosition position = false.
Proof.
  intros H. destruct (isValidPosition position) eqn:Hv; [|done].
  apply isValidPosition_true_iff in Hv as (_ & fx & fz & Hx & Hz & _).
  rewrite Hx, Hz in H. by destruct H.
Qed.

(** C5 (defect in the code): validation is meant to reject every position
    with a coordinate that is not a well-formed number, yet
    [isValidPosition] accepts the position whose [x] is NaN.  NaN has type
    ["number"] and [Math.abs(NaN) > 1000] is false, so neither guard
    returns [false]. *)
Theorem isValidPosition_accepts_NaN :
  isValidPosition (VObject [("x"%string, VNumber PrimFloat.nan);
                            ("z"%string, VNumber 0)]) = true.
Proof. vm_compute. reflexivity. Qed.

Example isValidPosition_samples :
  isValidPosition (VObject [("x"%string, VNumber 1000); ("z"%string, VNumber (-1000))])
  = true
  /\ isValidPosition (VObject [("x"%string, VNumber 1000.5); ("z"%string, VNumber 0)])
     = false
  /\ isValidPosition (VObject [("x"%string, VNumber 0);
                               ("z"%string, VNumber PrimFloat.infinity)])
     = false
  /\ isValidPosition (VObject [("x"%string, VNumber 0)]) = false
  /\ isValidPosition (VObject [("x"%string, VString "5"); ("z"%string, VNumber 0)])
     = false
  /\ isValidPosition VUndefined = false.
Proof. split_and!; vm_compute; reflexivity. Qed.

(** ** The speed limit *)

(** C4, counterexample to an exact speed: the velocity (1, 1) has speed above 0.5, and after
    clamping its speed is 0.49999999999999994, not 0.5. *)
Lemma clampVelocity_speed_not_exact :
  PrimFloat.ltb 0.5 (horizontalSpeed (mkVec2 1 1)) = true
  /\ horizontalSpeed (clampVelocity (mkVec2 1 1)) <> 0.5%float.
Proof.
  split; [vm_compute; reflexivity|].
  intros H. apply (f_equal (fun s => PrimFloat.eqb s 0.5)) in H.
  vm_compute in H. discriminate H.
Qed.

(** The same components over the same factor need not keep the ratio
    either: a speed that overflows to infinity sends both to zero. *)
Lemma clampVelocity_overflow :
  clampVelocity (mkVec2 1e200 1e200) = mkVec2 0 0.
Proof. vm_compute. reflexivity. Qed.

(** C4 (amended): when the speed computed in double arithmetic exceeds
    0.5, both components are multiplied by the one factor 0.5 / speed;
    otherwise the velocity passes through unchanged. *)
Theorem clampVelocity_scales (velocity : Vec2) :
  let speed := horizontalSpeed velocity in
  (PrimFloat.ltb 0.5 speed = true
   /\ clampVelocity velocity
      = mkVec2 (v2x velocity * (0.5 / speed))%float
               (v2z velocity * (0.5 / speed))%float)
  \/ (PrimFloat.ltb 0.5 speed = false /\ clampVelocity velocity = velocity).
Proof.
  unfold clampVelocity. simpl.
  destruct (PrimFloat.ltb 0.5 (horizontalSpeed velocity)); [left|right]; done.
Qed.

(** The clamped velocity is what [handlePlayerUpdate] stores. *)
Lemma handlePlayerUpdate_velocity socketId data now w l p v :
  mapGet (players w) socketId = Some l ->
  heap w !! l = Some p ->
  isValidPosition (ud_position data) = true ->
  ud_velocity data = Some v ->
  Player.velocity <$> heap (handlePlayerUpdate socketId data now w) !! l
  = Some (clampVelocity v).
Proof.
  intros Hl Hp Hv Hvel. unfold handlePlayerUpdate, mutate, set_heap.
  rewrite Hl, Hv, Hvel. cbn [negb heap].
  by rewrite list_lookup_alter_eq, Hp.
Qed.

(** ** Loops that write to or delete the entry they stand on *)

Lemma NoDup_keys_middle {V} (done todo : list (string * V)) k v :
  NoDup (mapKeys (done ++ (k, v) :: todo)) ->
  (k ∉ mapKeys done) /\ (k ∉ mapKeys todo) /\ NoDup (mapKeys (done ++ todo))
  /\ forall v', NoDup (mapKeys ((done ++ [(k, v')]) ++ todo)).
Proof.
  unfold mapKeys. intros Hnd.
  assert (Hperm : forall v', (done ++ [(k, v')]) ++ todo ≡ₚ (k, v') :: done ++ todo).
  { intros v'. rewrite <- app_assoc. simpl. symmetry. apply Permutation_middle. }
  assert (Hnd' : NoDup (k :: (done ++ todo).*1)).
  { revert Hnd. rewrite <- (Permutation_middle done todo (k, v)). by rewrite fmap_cons. }
  apply NoDup_cons in Hnd' as [Hn Hnd']. rewrite fmap_app in Hn.
  apply not_elem_of_app in Hn as [Hn1 Hn2]. split_and!; try done.
  intros v'. rewrite (Hperm v'), fmap_cons. simpl. apply NoDup_cons.
  split; [|done]. rewrite fmap_app. by apply not_elem_of_app.
Qed.

Section InPlace.

Context {V : Type} (f : V -> V) (keep : V -> bool).

(** What such a loop leaves of a map: every value rewritten by [f], the
    entries that fail [keep] gone, the order as it was. *)
Definition rewritten (m : list (string * V)) : list (string * V) :=
  List.filter (fun e => keep e.2) (map (fun e => (e.1, f e.2)) m).

Lemma rewritten_cons k v m :
  rewritten ((k, v) :: m)
  = if keep (f v) then (k, f v) :: rewritten m else rewritten m.
Proof. done. Qed.

Lemma mapGet_rewritten m k v :
  NoDup (mapKeys m) -> (k, v) ∈ m ->
  mapGet (rewritten m) k = if keep (f v) then Some (f v) else None.
Proof.
  unfold rewritten. induction m as [|[k' v'] m IH]; simpl.
  - intros _ H. by apply elem_of_nil in H.
  - intros Hnd H. apply NoDup_cons in Hnd as [Hn Hnd].
    assert (Hrest : k' ∉ mapKeys (List.filter (fun e => keep e.2)
                                    (map (fun e => (e.1, f e.2)) m))).
    { intros Hin. apply Hn. apply list_elem_of_fmap in Hin as ([k0 v0] & -> & He).
      apply list_elem_of_In, filter_In in He as [He _].
      apply in_map_iff in He as ([k1 v1] & [= <- <-] & He).
      apply list_elem_of_fmap. exists (k1, v1). split; [done|].
      by apply list_elem_of_In. }
    apply elem_of_cons in H as [[= -> ->]|H].
    + destruct (keep (f v')); simpl.
      * by rewrite String.eqb_refl.
      * by apply mapGet_None.
    + assert (k' <> k).
      { intros ->. apply Hn. apply list_elem_of_fmap. by exists (k, v). }
      destruct (keep (f v')); simpl; [|by apply IH].
      destruct (String.eqb_spec k' k); [done|by apply IH].
Qed.

Lemma mapGet_rewritten_None m k :
  mapGet m k = None -> mapGet (rewritten m) k = None.
Proof.
  unfold rewritten. induction m as [|[k' v'] m IH]; simpl; [done|].
  destruct (String.eqb_spec k' k) as [->|Hne]; [done|]. intros H.
  destruct (keep (f v')); simpl; [|by apply IH].
  destruct (String.eqb_spec k' k); [done|by apply IH].
Qed.

End InPlace.

(** ** Projectile motion *)

Lemma isExpired_moveBullet now dt b :
  isExpired now (moveBullet dt b) = isExpired now b.
Proof. done. Qed.

Lemma updateBullets_loop now todo : forall done w,
  bullets w = done ++ todo ->
  NoDup (mapKeys (done ++ todo)) ->
  bullets (fold_left (updateBullet now) todo w)
  = done ++ rewritten (moveBullet 0.016) (fun b => negb (isExpired now b)) todo.
Proof.
  induction todo as [|[k b] todo IH]; intros done w Hw Hnd.
  - simpl. by rewrite Hw.
  - destruct (NoDup_keys_middle _ _ _ _ Hnd) as (Hn1 & Hn2 & Hnd1 & Hnd2).
    rewrite rewritten_cons, isExpired_moveBullet. cbn [fold_left].
    unfold updateBullet at 2. cbn [fst snd bullets set_bullets].
    rewrite Hw, mapSet_middle by done. rewrite isExpired_moveBullet.
    destruct (isExpired now b) eqn:He; cbn [negb].
    + apply IH; cbn [bullets emit set_bullets]; [|done].
      by rewrite mapDelete_middle.
    + rewrite (IH (done ++ [(k, moveBullet 0.016 b)])); cbn [bullets set_bullets].
      * by rewrite <- app_assoc.
      * by rewrite <- app_assoc.
      * apply Hnd2.
Qed.

Lemma updateBullets_bullets now w :
  NoDup (mapKeys (bullets w)) ->
  bullets (updateBullets now w)
  = rewritten (moveBullet 0.016) (fun b => negb (isExpired now b)) (bullets w).
Proof. intros Hnd. by apply (updateBullets_loop now (bullets w) []). Qed.

(** C3, counterexample to a delta of 1/60: a round fired from the origin along the x axis
    stands at x = 0.8 after one tick, which is 50 * 0.016 and not
    50 * (1/60) = 0.8333.... *)
Lemma updateBullets_not_one_sixtieth :
  exists b b',
    mapGet (bullets oneShotFired) "a_1000_0.5" = Some b
    /\ mapGet (bullets (updateBullets 1016 oneShotFired)) "a_1000_0.5" = Some b'
    /\ v3x (Bullet.position b')
       <> (v3x (Bullet.position b)
           + v3x (Bullet.direction b) * Bullet.speed b * (1 / 60))%float.
Proof.
  eexists _, _. split; [vm_compute; reflexivity|].
  split; [vm_compute; reflexivity|].
  intros H. apply (f_equal (fun x => PrimFloat.eqb x 0.8)) in H.
  vm_compute in H. discriminate H.
Qed.

(** C3 (amended): a tick advances every projectile of the store by
    direction * speed * 0.016 on each axis, whatever the time since the
    last tick; a projectile past its lifetime is then dropped. *)
Theorem updateBullets_advances (now : Z) (w : World) (k : string) (b : Bullet.t) :
  NoDup (mapKeys (bullets w)) ->
  (k, b) ∈ bullets w ->
  mapGet (bullets (updateBullets now w)) k
  = if isExpired now b then None
    else Some (Bullet.set_position
                 (mkVec3
                    (v3x (Bullet.position b)
                     + v3x (Bullet.direction b) * Bullet.speed b * 0.016)%float
                    (v3y (Bullet.position b)
                     + v3y (Bullet.direction b) * Bullet.speed b * 0.016)%float
                    (v3z (Bullet.position b)
                     + v3z (Bullet.direction b) * Bullet.speed b * 0.016)%float)
                 b).
Proof.
  intros Hnd Hin. rewrite updateBullets_bullets by done.
  rewrite (mapGet_rewritten _ _ _ k b) by done.
  rewrite isExpired_moveBullet. by destruct (isExpired now b).
Qed.

Lemma updateBullets_advances_witness :
  NoDup (mapKeys (bullets oneShotFired))
  /\ ("a_1000_0.5"%string,
      Bullet.mk "a_1000_0.5" "a" origin (mkVec3 1 0 0) 50 25 1000 3000)
     ∈ bullets oneShotFired
  /\ (Bullet.position
        <$> mapGet (bullets (updateBullets 1016 oneShotFired)) "a_1000_0.5")
     = Some (mkVec3 0.8 0 0).
Proof.
  assert (Hnd : NoDup (mapKeys (bullets oneShotFired))).
  { vm_compute. apply NoDup_singleton. }
  assert (Hin : ("a_1000_0.5"%string,
                 Bullet.mk "a_1000_0.5" "a" origin (mkVec3 1 0 0) 50 25 1000 3000)
                ∈ bullets oneShotFired).
  { vm_compute. left. }
  split; [exact Hnd|]. split; [exact Hin|].
  rewrite (updateBullets_advances 1016 oneShotFired _ _ Hnd Hin).
  vm_compute. reflexivity.
Defined.

(** ** Updates of one component of the state *)

Lemma set_bullets_same w : set_bullets (bullets w) w = w.
Proof. by destruct w. Qed.

Lemma set_bullets_twice m m' w : set_bullets m (set_bullets m' w) = set_bullets m w.
Proof. done. Qed.

Lemma set_heap_same w : set_heap (heap w) w = w.
Proof. by destruct w. Qed.

Lemma mutate_same l f w p :
  heap w !! l = Some p -> f p = p -> mutate l f w = w.
Proof.
  intros Hp Hf. unfold mutate.
  replace (alter f l (heap w)) with (heap w); [apply set_heap_same|].
  symmetry. apply list_eq. intros i. destruct (decide (l = i)) as [<-|Hne].
  - by rewrite list_lookup_alter_eq, Hp; simpl; rewrite Hf.
  - by rewrite list_lookup_alter_ne.
Qed.

Lemma heap_mutate_eq l f w : heap (mutate l f w) !! l = f <$> heap w !! l.
Proof. apply list_lookup_alter_eq. Qed.

Lemma heap_mutate_ne l l' f w : l <> l' -> heap (mutate l f w) !! l' = heap w !! l'.
Proof. apply list_lookup_alter_ne. Qed.

(** ** Disconnection *)

(** A loop that deletes the entries picked by [cond] while it walks the
    projectile store. *)
Lemma delete_loop (cond : string * Bullet.t -> bool) todo : forall done w,
  bullets w = done ++ todo ->
  NoDup (mapKeys (done ++ todo)) ->
  fold_left
    (fun (acc : World) (entry : string * Bullet.t) =>
       if cond entry then set_bullets (mapDelete (bullets acc) entry.1) acc else acc)
    todo w
  = set_bullets (done ++ List.filter (fun e => negb (cond e)) todo) w.
Proof.
  induction todo as [|[k b] todo IH]; intros done w Hw Hnd.
  - simpl. rewrite <- Hw. by rewrite set_bullets_same.
  - destruct (NoDup_keys_middle _ _ _ _ Hnd) as (Hn1 & Hn2 & Hnd1 & Hnd2).
    cbn [fold_left List.filter]. destruct (cond (k, b)); cbn [negb fst].
    + rewrite (IH done); cbn [bullets set_bullets]; [done| |done].
      by rewrite Hw, mapDelete_middle.
    + rewrite (IH (done ++ [(k, b)])).
      * by rewrite <- app_assoc.
      * by rewrite <- app_assoc.
      * apply Hnd2.
Qed.

Lemma handleDisconnect_eq socketId w l :
  mapGet (players w) socketId = Some l ->
  NoDup (mapKeys (bullets w)) ->
  handleDisconnect socketId w
  = emit (ToOthers socketId) (PlayerLeft socketId)
      (set_players (mapDelete (players w) socketId)
         (set_bullets
            (List.filter
               (fun e => negb (String.eqb (Bullet.playerId e.2) socketId))
               (bullets w))
            w)).
Proof.
  intros Hl Hnd. unfold handleDisconnect. rewrite Hl.
  by rewrite (delete_loop
                (fun e => String.eqb (Bullet.playerId e.2) socketId) (bullets w) []).
Qed.

(** C10: when a stored player disconnects, its record leaves the player
    store and every projectile it owns leaves the projectile store; the
    other players' records and the projectiles of other owners stay as
    they were. *)
Theorem handleDisconnect_frame (socketId : string) (w : World) (l : loc) :
  mapGet (players w) socketId = Some l ->
  NoDup (mapKeys (bullets w)) ->
  let w' := handleDisconnect socketId w in
  mapGet (players w') socketId = None
  /\ (forall e, e ∈ bullets w' <-> e ∈ bullets w /\ Bullet.playerId e.2 <> socketId)
  /\ (forall k, mapGet (bullets w') k
                = match mapGet (bullets w) k with
                  | Some b =>
                      if String.eqb (Bullet.playerId b) socketId then None else Some b
                  | None => None
                  end)
  /\ (forall other, other <> socketId ->
        mapGet (players w') other = mapGet (players w) other)
  /\ heap w' = heap w
  /\ outbox w' = outbox w ++ [(ToOthers socketId, PlayerLeft socketId)].
Proof.
  intros Hl Hnd w'. subst w'. rewrite (handleDisconnect_eq _ _ _ Hl Hnd).
  cbn [players bullets heap outbox emit set_players set_bullets].
  split_and!; try done.
  - apply mapGet_mapDelete_eq.
  - intros e. rewrite list_elem_of_In, filter_In, <- list_elem_of_In.
    destruct (String.eqb_spec (Bullet.playerId e.2) socketId) as [He|He]; simpl.
    + split; [by intros [_ ?]|by intros [_ ?]].
    + split; [by intros [? _]|by intros [? _]].
  - intros k.
    assert (Hid : map (fun e : string * Bullet.t => (e.1, id e.2)) (bullets w)
                  = bullets w).
    { rewrite <- (map_id (bullets w)) at 2. apply map_ext. by intros []. }
    pose proof (mapGet_rewritten id
                  (fun b => negb (String.eqb (Bullet.playerId b) socketId))
                  (bullets w) k) as Hr.
    pose proof (mapGet_rewritten_None id
                  (fun b => negb (String.eqb (Bullet.playerId b) socketId))
                  (bullets w) k) as Hn.
    unfold rewritten in Hr, Hn. rewrite Hid in Hr, Hn.
    destruct (mapGet (bullets w) k) as [b|] eqn:Hg.
    + rewrite (Hr b Hnd (mapGet_Some_elem_of _ _ _ Hg)). unfold id.
      by destruct (String.eqb (Bullet.playerId b) socketId).
    + by apply Hn.
  - intros other Hne. by apply mapGet_mapDelete_ne.
Qed.

Lemma handleDisconnect_frame_witness :
  mapGet (players twoPlayers) "a" = Some 0%nat
  /\ NoDup (mapKeys (bullets twoPlayers))
  /\ mapGet (players (handleDisconnect "a" twoPlayers)) "a" = None
  /\ mapGet (players (handleDisconnect "a" twoPlayers)) "b" = Some 1%nat
  /\ mapKeys (bullets (handleDisconnect "a" twoPlayers)) = ["b_1000_0.25"%string].
Proof.
  assert (Hl : mapGet (players twoPlayers) "a" = Some 0%nat) by (vm_compute; reflexivity).
  assert (Hnd : NoDup (mapKeys (bullets twoPlayers))).
  { vm_compute. apply NoDup_cons. split; [|apply NoDup_singleton].
    intros H. apply list_elem_of_singleton in H. discriminate H. }
  pose proof (handleDisconnect_frame "a" twoPlayers 0%nat Hl Hnd) as (Ha & _ & _ & Hb & _).
  split; [exact Hl|]. split; [exact Hnd|]. split; [exact Ha|].
  split; [rewrite Hb; [vm_compute; reflexivity|discriminate]|].
  vm_compute. reflexivity.
Defined.

(** ** Firing *)

Lemma mutate_const_twice l a b w :
  mutate l (fun _ => b) (mutate l (fun _ => a) w) = mutate l (fun _ => b) w.
Proof.
  unfold mutate, set_heap. cbn [heap players bullets tick lastUpdate timers outbox].
  f_equal. apply (list_alter_alter_eq (fun _ => b) (fun _ => a)).
Qed.

(** A request that comes less than 100 ms after the recorded fire time
    returns before it changes anything. *)
Lemma handlePlayerFire_rate_limited socketId data now suffix w l p t :
  mapGet (players w) socketId = Some l ->
  heap w !! l = Some p ->
  Player.lastFireTime p = Some t ->
  t <> 0 ->
  now - t < 100 ->
  handlePlayerFire socketId data now suffix w = w.
Proof.
  intros Hl Hp Ht Hne Hlt. unfold handlePlayerFire. rewrite Hl, Hp.
  destruct (_ || _ || _); [done|].
  unfold noLastFireTime. rewrite Ht.
  destruct (Z.eqb_spec t 0); [done|]. rewrite Ht. unfold default, id.
  destruct (Z.ltb_spec (now - t) 100); [|lia].
  by apply (mutate_same l _ w p).
Qed.

Lemma fireAllowed_true socketId now w :
  fireAllowed socketId now w = true <->
  exists l p,
    mapGet (players w) socketId = Some l /\ heap w !! l = Some p
    /\ 0 < Player.health p /\ Player.isReloading p = false /\ 0 < Player.ammo p
    /\ match Player.lastFireTime p with
       | None => True
       | Some t => 100 <= now - t
       end.
Proof.
  unfold fireAllowed. split.
  - destruct (mapGet (players w) socketId) as [l|] eqn:Hl; [|done].
    destruct (heap w !! l) as [p|] eqn:Hp; [|done].
    intros H. apply andb_prop in H as [H Ht]. apply andb_prop in H as [H Ha].
    apply andb_prop in H as [Hh Hr].
    exists l, p. split; [done|]. split; [done|].
    split; [by apply Z.ltb_lt|]. split; [by destruct (Player.isReloading p)|].
    split; [by apply Z.ltb_lt|].
    destruct (Player.lastFireTime p); [by apply Z.leb_le|done].
  - intros (l & p & -> & -> & Hh & Hr & Ha & Ht). rewrite Hr.
    apply Z.ltb_lt in Hh, Ha. rewrite Hh, Ha. simpl.
    destruct (Player.lastFireTime p); [by apply Z.leb_le|done].
Qed.

Lemma handlePlayerFire_rejected socketId data now suffix w :
  100 <= now ->
  fireAllowed socketId now w = false ->
  handlePlayerFire socketId data now suffix w = w.
Proof.
  intros Hnow Hf.
  destruct (mapGet (players w) socketId) as [l|] eqn:Hl;
    [|by unfold handlePlayerFire; rewrite Hl].
  destruct (heap w !! l) as [p|] eqn:Hp;
    [|by unfold handlePlayerFire; rewrite Hl, Hp].
  unfold fireAllowed in Hf. rewrite Hl, Hp in Hf.
  destruct (Z.ltb_spec 0 (Player.health p)) as [Hh|Hh];
    [|unfold handlePlayerFire; rewrite Hl, Hp;
      by destruct (Z.leb_spec (Player.health p) 0); [|lia]].
  destruct (Player.isReloading p) eqn:Hr;
    [unfold handlePlayerFire; rewrite Hl, Hp, Hr; by rewrite orb_true_r|].
  destruct (Z.ltb_spec 0 (Player.ammo p)) as [Ha|Ha];
    [|unfold handlePlayerFire; rewrite Hl, Hp;
      destruct (Z.leb_spec (Player.ammo p) 0); [by rewrite orb_true_r|lia]].
  simpl in Hf. destruct (Player.lastFireTime p) as [t|] eqn:Ht; [|done].
  apply Z.leb_gt in Hf.
  apply (handlePlayerFire_rate_limited _ _ _ _ _ l p t); try done. lia.
Qed.

Lemma handlePlayerFire_accepted socketId data now suffix w l p :
  mapGet (players w) socketId = Some l ->
  heap w !! l = Some p ->
  fireAllowed socketId now w = true ->
  100 <= now ->
  let p2 := Player.set_ammo (Player.ammo p - 1)
              (Player.set_lastFireTime (Some now) p) in
  let w2 := mutate l (fun _ => p2) w in
  let w3 := if (Player.ammo p2 <=? 0) && (0 <? Player.totalAmmo p2)
            then startReload l w2 else w2 in
  let bullet := firedBullet socketId data now suffix in
  handlePlayerFire socketId data now suffix w
  = emit ToAll
      (PlayerFired socketId (Bullet.id bullet) (fd_position data)
                   (fd_direction data) (Player.ammo p2))
      (limitBullets (set_bullets (mapSet (bullets w3) (Bullet.id bullet) bullet) w3)).
Proof.
  intros Hl Hp Hf Hnow.
  apply fireAllowed_true in Hf as (l' & p' & Hl' & Hp' & Hh & Hr & Ha & Ht).
  rewrite Hl in Hl'. injection Hl' as <-. rewrite Hp in Hp'. injection Hp' as <-.
  unfold handlePlayerFire. rewrite Hl, Hp, Hr.
  destruct (Z.leb_spec (Player.health p) 0); [lia|].
  destruct (Z.leb_spec (Player.ammo p) 0); [lia|]. cbn [orb].
  assert (Hrate : (now - default 0
                           (Player.lastFireTime
                              (if noLastFireTime p
                               then Player.set_lastFireTime (Some 0) p else p))
                   <? 100) = false).
  { apply Z.ltb_ge. unfold noLastFireTime.
    destruct (Player.lastFireTime p) as [t|] eqn:Et; simpl; [|lia].
    destruct (Z.eqb_spec t 0); simpl; [lia|]. rewrite Et. simpl. lia. }
  rewrite Hrate, mutate_const_twice.
  assert (Hp2 : Player.set_ammo
                  (Player.ammo (if noLastFireTime p
                                then Player.set_lastFireTime (Some 0) p else p) - 1)
                  (Player.set_lastFireTime (Some now)
                     (if noLastFireTime p
                      then Player.set_lastFireTime (Some 0) p else p))
                = Player.set_ammo (Player.ammo p - 1)
                    (Player.set_lastFireTime (Some now) p)).
  { by destruct (noLastFireTime p). }
  rewrite Hp2. reflexivity.
Qed.

Lemma players_limitBullets w : players (limitBullets w) = players w.
Proof.
  unfold limitBullets. destruct (_ <? _)%nat; [|done].
  by destruct (sortByCreatedAt (bullets w)).
Qed.

Lemma heap_limitBullets w : heap (limitBullets w) = heap w.
Proof.
  unfold limitBullets. destruct (_ <? _)%nat; [|done].
  by destruct (sortByCreatedAt (bullets w)).
Qed.

Lemma timers_limitBullets w : timers (limitBullets w) = timers w.
Proof.
  unfold limitBullets. destruct (_ <? _)%nat; [|done].
  by destruct (sortByCreatedAt (bullets w)).
Qed.

Lemma outbox_limitBullets w : outbox (limitBullets w) = outbox w.
Proof.
  unfold limitBullets. destruct (_ <? _)%nat; [|done].
  by destruct (sortByCreatedAt (bullets w)).
Qed.

(** After an accepted request the player record holds one round less and
    the time of the request. *)
Lemma handlePlayerFire_accepted_player socketId data now suffix w l p :
  mapGet (players w) socketId = Some l ->
  heap w !! l = Some p ->
  fireAllowed socketId now w = true ->
  100 <= now ->
  let w' := handlePlayerFire socketId data now suffix w in
  players w' = players w
  /\ exists p', heap w' !! l = Some p'
       /\ Player.ammo p' = Player.ammo p - 1
       /\ Player.totalAmmo p' = Player.totalAmmo p
       /\ Player.lastFireTime p' = Some now
       /\ Player.isReloading p'
          = (Player.ammo p - 1 <=? 0) && (0 <? Player.totalAmmo p).
Proof.
  intros Hl Hp Hf Hnow w'. subst w'.
  rewrite (handlePlayerFire_accepted _ _ _ _ _ _ _ Hl Hp Hf Hnow).
  apply fireAllowed_true in Hf as (l' & p' & Hl' & Hp' & Hh & Hr & Ha & Ht).
  rewrite Hl in Hl'. injection Hl' as <-. rewrite Hp in Hp'. injection Hp' as <-.
  cbn [players heap emit]. rewrite players_limitBullets, heap_limitBullets.
  cbn [players heap set_bullets Player.ammo Player.totalAmmo Player.set_ammo
       Player.set_lastFireTime].
  destruct ((Player.ammo p - 1 <=? 0) && (0 <? Player.totalAmmo p)) eqn:Hauto.
  - split; [done|]. unfold startReload, schedule. cbn [heap set_timers].
    rewrite !heap_mutate_eq, Hp. simpl. eexists. split; [reflexivity|]. done.
  - split; [done|]. rewrite heap_mutate_eq, Hp. simpl. eexists.
    split; [reflexivity|]. simpl. by rewrite Hr.
Qed.

(** C6: a fire request changes the state only when the player exists, is
    alive, is not reloading, has a round left and last fired at least
    100 ms ago; otherwise the state, the projectile store and the outbox
    are what they were.  Of two requests of one player less than 100 ms
    apart, the second changes nothing.  Clock readings are milliseconds
    since 1970, hence the bound on [now]. *)
Theorem handlePlayerFire_gate (socketId : string) (data : FireData) (now : Z)
    (suffix : string) (w : World) :
  100 <= now ->
  let w' := handlePlayerFire socketId data now suffix w in
  (fireAllowed socketId now w = false -> w' = w)
  /\ (fireAllowed socketId now w = true ->
      players w' = players w
      /\ exists l p p',
           mapGet (players w) socketId = Some l /\ heap w !! l = Some p
           /\ heap w' !! l = Some p'
           /\ Player.ammo p' = Player.ammo p - 1
           /\ Player.lastFireTime p' = Some now
           /\ outbox w'
              = outbox w
                ++ [(ToAll,
                     PlayerFired socketId (socketId ++ "_" ++ suffix)
                       (fd_position data) (fd_direction data) (Player.ammo p - 1))])
  /\ (fireAllowed socketId now w = true ->
      forall data2 now2 suffix2,
        now2 - now < 100 ->
        handlePlayerFire socketId data2 now2 suffix2 w' = w').
Proof.
  intros Hnow w'. split; [by apply handlePlayerFire_rejected|].
  split.
  - intros Hf. pose proof Hf as Hf'.
    apply fireAllowed_true in Hf' as (l & p & Hl & Hp & _).
    destruct (handlePlayerFire_accepted_player _ data _ suffix _ _ _ Hl Hp Hf Hnow)
      as (Hpl & p' & Hp' & Hammo & _ & Hlast & _).
    split; [done|]. exists l, p, p'. split_and!; try done.
    subst w'. rewrite (handlePlayerFire_accepted _ _ _ _ _ _ _ Hl Hp Hf Hnow).
    cbn [outbox emit]. rewrite outbox_limitBullets. cbn [outbox set_bullets].
    by destruct (_ && _).
  - intros Hf data2 now2 suffix2 Hlt. pose proof Hf as Hf'.
    apply fireAllowed_true in Hf' as (l & p & Hl & Hp & _).
    destruct (handlePlayerFire_accepted_player _ data _ suffix _ _ _ Hl Hp Hf Hnow)
      as (Hpl & p' & Hp' & _ & _ & Hlast & _).
    apply (handlePlayerFire_rate_limited _ _ _ _ _ l p' now); try done.
    + unfold w'. by rewrite Hpl.
    + lia.
Qed.

Lemma handlePlayerFire_gate_witness :
  let w := roundsFired 0 in
  let data := mkFireData origin (mkVec3 1 0 0) in
  let w1 := handlePlayerFire "a" data 1000 "x" w in
  100 <= 1000
  /\ fireAllowed "a" 1000 w = true
  /\ Player.ammo <$> heap w1 !! 0%nat = Some 29
  /\ length (bullets w1) = 1%nat
  /\ handlePlayerFire "a" data 1050 "y" w1 = w1.
Proof.
  intros w data w1.
  assert (Hnow : 100 <= 1000) by lia.
  assert (Hf : fireAllowed "a" 1000 w = true) by (vm_compute; reflexivity).
  pose proof (handlePlayerFire_gate "a" data 1000 "x" w Hnow) as (_ & _ & Hsecond).
  split; [exact Hnow|]. split; [exact Hf|].
  split; [vm_compute; reflexivity|]. split; [vm_compute; reflexivity|].
  apply (Hsecond Hf). lia.
Defined.

(** ** Reloading *)

Lemma fireTimer_reload i r1 r2 w l d :
  timers w !! i = Some (mkTimer ReloadTimer l d) ->
  fireTimer i r1 r2 w = reloadCallback l (set_timers (delete i (timers w)) w).
Proof. intros Ht. unfold fireTimer. by rewrite Ht. Qed.

Lemma fireTimer_respawn i r1 r2 w l d :
  timers w !! i = Some (mkTimer RespawnTimer l d) ->
  fireTimer i r1 r2 w = respawnPlayer l r1 r2 (set_timers (delete i (timers w)) w).
Proof. intros Ht. unfold fireTimer. by rewrite Ht. Qed.

(** C7: firing the last round with rounds in reserve raises the reloading
    flag and schedules the refill; when that timer fires,
    min(30 - ammo, reserve) rounds move from the reserve to the magazine,
    the flag is cleared, and [reload-complete] goes to the room of the
    player's own identifier and to nobody else. *)
Theorem auto_reload_refills (socketId : string) (data : FireData) (now : Z)
    (suffix : string) (w : World) (l : loc) (p : Player.t) :
  mapGet (players w) socketId = Some l ->
  heap w !! l = Some p ->
  fireAllowed socketId now w = true ->
  100 <= now ->
  Player.ammo p = 1 ->
  0 < Player.totalAmmo p ->
  let w1 := handlePlayerFire socketId data now suffix w in
  (exists p1, heap w1 !! l = Some p1 /\ Player.isReloading p1 = true
              /\ Player.ammo p1 = 0 /\ Player.totalAmmo p1 = Player.totalAmmo p)
  /\ timers w1 = timers w ++ [mkTimer ReloadTimer l 2000]
  /\ forall (w2 : World) (i : nat) (q : Player.t) (r1 r2 : float),
       timers w2 !! i = Some (mkTimer ReloadTimer l 2000) ->
       heap w2 !! l = Some q ->
       let moved := Z.min (30 - Player.ammo q) (Player.totalAmmo q) in
       let w3 := fireTimer i r1 r2 w2 in
       exists q',
         heap w3 !! l = Some q'
         /\ Player.ammo q' = Player.ammo q + moved
         /\ Player.totalAmmo q' = Player.totalAmmo q - moved
         /\ Player.isReloading q' = false
         /\ outbox w3
            = outbox w2
              ++ [(ToRoom (Player.id q),
                   ReloadComplete (Player.ammo q') (Player.totalAmmo q'))]
         /\ (Player.ammo q = 0 -> Player.totalAmmo q = 120 ->
             Player.ammo q' = 30 /\ Player.totalAmmo q' = 90).
Proof.
  intros Hl Hp Hf Hnow Hammo Hres w1. split; [|split].
  - destruct (handlePlayerFire_accepted_player _ data _ suffix _ _ _ Hl Hp Hf Hnow)
      as (_ & p1 & Hp1 & Ha & Ht & _ & Hr).
    exists p1. split; [done|]. rewrite Hr, Ha, Hammo. split; [|done].
    apply andb_true_intro. split; [done|by apply Z.ltb_lt].
  - subst w1. rewrite (handlePlayerFire_accepted _ _ _ _ _ _ _ Hl Hp Hf Hnow).
    cbn [timers emit]. rewrite timers_limitBullets.
    cbn [timers set_bullets Player.ammo Player.totalAmmo Player.set_ammo
         Player.set_lastFireTime].
    rewrite Hammo. destruct (Z.ltb_spec 0 (Player.totalAmmo p)); [|lia]. done.
  - intros w2 i q r1 r2 Ht Hq moved w3. subst w3.
    rewrite (fireTimer_reload _ _ _ _ _ _ Ht). unfold reloadCallback.
    cbn [heap set_timers]. rewrite Hq. cbn [heap outbox emit].
    rewrite heap_mutate_eq. cbn [heap set_timers]. rewrite Hq. simpl.
    eexists. split; [reflexivity|]. simpl. split_and!; try done.
    intros H0 H120. subst moved. rewrite H0, H120. done.
Qed.

Lemma auto_reload_refills_witness :
  let w := roundsFired 29 in
  let data := mkFireData origin (mkVec3 1 0 0) in
  let w1 := handlePlayerFire "a" data 3900 "x" w in
  let w2 := fireTimer 0 0 0 w1 in
  (Player.ammo <$> heap w !! 0%nat) = Some 1
  /\ fireAllowed "a" 3900 w = true
  /\ (Player.isReloading <$> heap w1 !! 0%nat) = Some true
  /\ timers w1 = [mkTimer ReloadTimer 0%nat 2000]
  /\ (Player.ammo <$> heap w2 !! 0%nat) = Some 30
  /\ (Player.totalAmmo <$> heap w2 !! 0%nat) = Some 90
  /\ last (outbox w2) = Some (ToRoom "a", ReloadComplete 30 90).
Proof.
  intros w data w1 w2.
  assert (Hl : mapGet (players w) "a" = Some 0%nat) by (vm_compute; reflexivity).
  destruct (heap w !! 0%nat) as [p|] eqn:Hp; [|vm_compute in Hp; discriminate Hp].
  assert (Hf : fireAllowed "a" 3900 w = true) by (vm_compute; reflexivity).
  assert (Hnow : 100 <= 3900) by lia.
  assert (Hammo : Player.ammo p = 1).
  { vm_compute in Hp. injection Hp as <-. reflexivity. }
  assert (Hres : 0 < Player.totalAmmo p).
  { vm_compute in Hp. injection Hp as <-. reflexivity. }
  pose proof (auto_reload_refills "a" data 3900 "x" w 0%nat p Hl Hp Hf Hnow Hammo Hres)
    as ((p1 & Hp1 & Hr1 & _) & Ht & _).
  fold w1 in Hp1, Ht.
  split; [simpl; by rewrite Hammo|]. split; [exact Hf|].
  split; [by rewrite Hp1; simpl; rewrite Hr1|].
  split; [rewrite Ht; vm_compute; reflexivity|].
  split; [vm_compute; reflexivity|]. split; vm_compute; reflexivity.
Defined.

(** ** The projectile cap *)

Lemma insertByCreatedAt_head e sorted :
  exists rest,
    insertByCreatedAt e sorted
    = match sorted with
      | [] => e
      | e' :: _ => if Bullet.createdAt e.2 <=? Bullet.createdAt e'.2 then e else e'
      end :: rest.
Proof.
  destruct sorted as [|e' sorted]; simpl; [by eexists|].
  destruct (_ <=? _); by eexists.
Qed.

(** The sort is stable: its first entry is the first of the entries with
    the lowest creation time. *)
Lemma sortByCreatedAt_head m :
  m <> [] ->
  exists old rest pre post,
    sortByCreatedAt m = old :: rest
    /\ m = pre ++ old :: post
    /\ (forall e, e ∈ pre -> Bullet.createdAt old.2 < Bullet.createdAt e.2)
    /\ (forall e, e ∈ post -> Bullet.createdAt old.2 <= Bullet.createdAt e.2).
Proof.
  induction m as [|e m IH]; [done|]. intros _.
  destruct m as [|e0 m].
  - exists e, [], [], []. split_and!; try done; intros ? H; by apply elem_of_nil in H.
  - destruct IH as (old & rest & pre & post & Hs & Hm & Hpre & Hpost); [done|].
    change (sortByCreatedAt (e :: e0 :: m))
      with (insertByCreatedAt e (sortByCreatedAt (e0 :: m))).
    rewrite Hs. simpl.
    destruct (Z.leb_spec (Bullet.createdAt e.2) (Bullet.createdAt old.2)) as [Hle|Hgt].
    + exists e, (old :: rest), [], (e0 :: m). split_and!; try done.
      * intros ? H. by apply elem_of_nil in H.
      * intros x Hx. rewrite Hm in Hx.
        apply elem_of_app in Hx as [Hx|Hx]; [specialize (Hpre x Hx); lia|].
        apply elem_of_cons in Hx as [->|Hx]; [done|]. specialize (Hpost x Hx). lia.
    + exists old, (insertByCreatedAt e rest), (e :: pre), post. split_and!; try done.
      * by rewrite Hm.
      * intros x Hx. apply elem_of_cons in Hx as [->|Hx]; [lia|by apply Hpre].
Qed.

Lemma bullets_limitBullets w :
  bullets (limitBullets w)
  = if (MAX_BULLETS <? length (bullets w))%nat then
      match sortByCreatedAt (bullets w) with
      | oldestBullet :: _ => mapDelete (bullets w) oldestBullet.1
      | [] => bullets w
      end
    else bullets w.
Proof.
  unfold limitBullets. destruct (_ <? _)%nat; [|done].
  by destruct (sortByCreatedAt (bullets w)).
Qed.

Lemma bullets_startReload l w : bullets (startReload l w) = bullets w.
Proof. done. Qed.

Lemma bullets_handlePlayerFire socketId data now suffix w :
  fireAllowed socketId now w = true ->
  100 <= now ->
  let bullet := firedBullet socketId data now suffix in
  bullets (handlePlayerFire socketId data now suffix w)
  = bullets (limitBullets
               (set_bullets (mapSet (bullets w) (Bullet.id bullet) bullet) w)).
Proof.
  intros Hf Hnow bullet. pose proof Hf as Hf'.
  apply fireAllowed_true in Hf' as (l & p & Hl & Hp & _).
  rewrite (handlePlayerFire_accepted _ _ _ _ _ _ _ Hl Hp Hf Hnow).
  cbn [bullets emit]. rewrite !bullets_limitBullets. cbn [bullets set_bullets].
  by destruct (_ && _).
Qed.

Lemma outbox_handlePlayerFire socketId data now suffix w :
  fireAllowed socketId now w = true ->
  100 <= now ->
  exists l p,
    mapGet (players w) socketId = Some l /\ heap w !! l = Some p
    /\ outbox (handlePlayerFire socketId data now suffix w)
       = outbox w
         ++ [(ToAll,
              PlayerFired socketId (socketId ++ "_" ++ suffix) (fd_position data)
                          (fd_direction data) (Player.ammo p - 1))].
Proof.
  intros Hf Hnow. pose proof Hf as Hf'.
  apply fireAllowed_true in Hf' as (l & p & Hl & Hp & _).
  exists l, p. split; [done|]. split; [done|].
  rewrite (handlePlayerFire_accepted _ _ _ _ _ _ _ Hl Hp Hf Hnow).
  cbn [outbox emit]. rewrite outbox_limitBullets. cbn [outbox set_bullets].
  by destruct (_ && _).
Qed.

(** C8: when an accepted shot brings the store above 500 projectiles,
    exactly one entry is evicted and 500 remain: the entry with the
    lowest creation time among the stored projectiles and the new one,
    the first inserted of them if several share that time.  Every other
    entry stays.  The new projectile stays exactly when some stored
    projectile is at least as old; when every stored projectile carries a
    later creation time it is the new projectile that is evicted, and the
    store is as before.  The shot is published in both cases. *)
Theorem handlePlayerFire_evicts_lowest (socketId : string) (data : FireData)
    (now : Z) (suffix : string) (w : World) :
  let bullet := firedBullet socketId data now suffix in
  let inserted := mapSet (bullets w) (Bullet.id bullet) bullet in
  let w' := handlePlayerFire socketId data now suffix w in
  fireAllowed socketId now w = true ->
  100 <= now ->
  NoDup (mapKeys (bullets w)) ->
  (length (bullets w) <= MAX_BULLETS)%nat ->
  (MAX_BULLETS < length inserted)%nat ->
  exists old pre post,
    inserted = pre ++ old :: post
    /\ (forall e, e ∈ pre -> Bullet.createdAt old.2 < Bullet.createdAt e.2)
    /\ (forall e, e ∈ post -> Bullet.createdAt old.2 <= Bullet.createdAt e.2)
    /\ (forall e, e ∈ inserted -> Bullet.createdAt old.2 <= Bullet.createdAt e.2)
    /\ bullets w' = mapDelete inserted old.1
    /\ bullets w' = pre ++ post
    /\ length (bullets w') = 500%nat
    /\ (forall e, e ∈ bullets w' <-> e ∈ inserted /\ e <> old)
    /\ (notOldest (bullets w) bullet ->
        old ∈ bullets w /\ mapGet (bullets w') (Bullet.id bullet) = Some bullet)
    /\ (~ notOldest (bullets w) bullet ->
        old = (Bullet.id bullet, bullet) /\ bullets w' = bullets w
        /\ mapGet (bullets w') (Bullet.id bullet) = None)
    /\ exists ammo,
         outbox w'
         = outbox w
           ++ [(ToAll,
                PlayerFired socketId (Bullet.id bullet) (fd_position data)
                            (fd_direction data) ammo)].
Proof.
  intros bullet inserted w' Hf Hnow Hnd Hle Hgt.
  assert (Hfresh : mapGet (bullets w) (Bullet.id bullet) = None).
  { subst inserted. rewrite length_mapSet in Hgt.
    destruct (mapGet (bullets w) (Bullet.id bullet)); [lia|done]. }
  assert (Hins : inserted = bullets w ++ [(Bullet.id bullet, bullet)]).
  { subst inserted. apply mapSet_notin. by apply mapGet_None. }
  assert (Hlen : length (bullets w) = MAX_BULLETS).
  { rewrite Hins, length_app in Hgt. simpl in Hgt. lia. }
  assert (Hnd' : NoDup (mapKeys inserted)) by (by apply NoDup_mapSet).
  destruct (sortByCreatedAt_head inserted)
    as (old & rest & pre & post & Hs & Hm & Hpre & Hpost).
  { rewrite Hins. by destruct (bullets w). }
  destruct old as [ko bo].
  assert (Hres : bullets w' = mapDelete inserted ko).
  { unfold w'. rewrite bullets_handlePlayerFire by done. rewrite bullets_limitBullets.
    cbn [bullets set_bullets]. fold bullet. fold inserted.
    destruct (Nat.ltb_spec MAX_BULLETS (length inserted)); [|lia]. by rewrite Hs. }
  assert (Hdel : mapDelete inserted ko = pre ++ post).
  { rewrite Hm in Hnd' |- *.
    destruct (NoDup_keys_middle _ _ _ _ Hnd') as (Hn1 & Hn2 & _).
    by apply mapDelete_middle. }
  assert (Hmin : forall e, e ∈ inserted -> Bullet.createdAt bo <= Bullet.createdAt e.2).
  { intros e He. rewrite Hm in He. apply elem_of_app in He as [He|He].
    - specialize (Hpre e He). simpl in Hpre. lia.
    - apply elem_of_cons in He as [->|He]; [done|by apply Hpost]. }
  (* the new entry is the last of [inserted]: it is the evicted one exactly
     when nothing follows the evicted one *)
  assert (Hcase : (post = [] /\ (ko, bo) = (Bullet.id bullet, bullet) /\ pre = bullets w)
                  \/ (post <> [] /\ (ko, bo) ∈ bullets w
                      /\ ko <> Bullet.id bullet)).
  { destruct post as [|x post'] using rev_ind.
    - left. rewrite Hins in Hm. apply app_inj_tail in Hm as [-> <-]. done.
    - right. split; [by destruct post'|].
      rewrite Hins in Hm. rewrite app_comm_cons, app_assoc in Hm.
      apply app_inj_tail in Hm as [Hw _].
      assert (Hold : (ko, bo) ∈ bullets w).
      { rewrite Hw. apply elem_of_app. right. left. }
      split; [done|]. intros ->. apply mapGet_None in Hfresh. apply Hfresh.
      apply list_elem_of_fmap. by exists (Bullet.id bullet, bo). }
  exists (ko, bo), pre, post.
  split; [done|]. split; [done|]. split; [done|]. split; [done|].
  split; [done|]. split; [by rewrite Hres|]. split.
  { rewrite Hres, Hdel.
    assert (length inserted = S (length (pre ++ post))).
    { rewrite Hm, !length_app. simpl. lia. }
    rewrite Hins, length_app, Hlen in H. simpl in H. unfold MAX_BULLETS in H. lia. }
  split.
  { intros e. rewrite Hres, Hdel. rewrite Hm in Hnd' |- *.
    destruct (NoDup_keys_middle _ _ _ _ Hnd') as (Hn1 & Hn2 & _).
    rewrite !elem_of_app, elem_of_cons. split.
    - intros He. split; [destruct He; auto|]. intros ->.
      destruct He as [He|He]; [apply Hn1|apply Hn2];
        apply list_elem_of_fmap; by exists (ko, bo).
    - intros [[He|[He|He]] Hne]; auto. done. }
  split.
  { intros (e0 & He0 & Hage).
    destruct Hcase as [(_ & Heq & Hpre_eq)|(_ & Hold & Hko)].
    - exfalso. injection Heq as -> ->. subst pre.
      specialize (Hpre e0 He0). cbn [snd] in Hpre. lia.
    - split; [done|]. rewrite Hres, mapGet_mapDelete_ne by done.
      subst inserted. apply mapGet_mapSet_eq. }
  split.
  { intros Hnot. destruct Hcase as [(-> & Heq & Hpre_eq)|(_ & Hold & _)].
    - split; [done|]. injection Heq as -> ->.
      split; [by rewrite Hres, Hdel, app_nil_r|].
      rewrite Hres. apply mapGet_mapDelete_eq.
    - exfalso. apply Hnot. exists (ko, bo). split; [done|].
      simpl. apply (Hmin (Bullet.id bullet, bullet)).
      rewrite Hins. apply elem_of_app. right. left. }
  destruct (outbox_handlePlayerFire socketId data now suffix w Hf Hnow)
    as (l & p & _ & _ & Hout).
  exists (Player.ammo p - 1). exact Hout.
Qed.
Lemma handlePlayerFire_evicts_lowest_witness :
  let data := mkFireData origin (mkVec3 1 0 0) in
  let bullet := firedBullet "a" data 1000 "x" in
  let w' := handlePlayerFire "a" data 1000 "x" fullStore in
  fireAllowed "a" 1000 fullStore = true
  /\ NoDup (mapKeys (bullets fullStore))
  /\ (length (bullets fullStore) <= MAX_BULLETS)%nat
  /\ (MAX_BULLETS < length (mapSet (bullets fullStore) (Bullet.id bullet) bullet))%nat
  /\ notOldest (bullets fullStore) bullet
  /\ length (bullets w') = 500%nat
  /\ mapGet (bullets w') "a_x" = Some bullet
  /\ mapGet (bullets w') "0" = None
  /\ (Bullet.createdAt <$> mapGet (bullets w') "1") = Some 1.
Proof.
  intros data bullet w'.
  assert (Hf : fireAllowed "a" 1000 fullStore = true) by (vm_compute; reflexivity).
  assert (Hnow : 100 <= 1000) by lia.
  assert (Hnd : NoDup (mapKeys (bullets fullStore))).
  { apply (bool_decide_unpack _). vm_compute. exact I. }
  assert (Hle : (length (bullets fullStore) <= MAX_BULLETS)%nat).
  { apply Nat.leb_le. vm_compute. reflexivity. }
  assert (Hgt : (MAX_BULLETS
                 < length (mapSet (bullets fullStore) (Bullet.id bullet) bullet))%nat).
  { apply Nat.ltb_lt. vm_compute. reflexivity. }
  assert (Hold : notOldest (bullets fullStore) bullet).
  { exists ("0"%string, Bullet.mk "0" "a" origin (mkVec3 1 0 0) 50 25 0 3000).
    split; [vm_compute; left|simpl; lia]. }
  destruct (handlePlayerFire_evicts_lowest "a" data 1000 "x" fullStore
              Hf Hnow Hnd Hle Hgt)
    as (old & pre & post & _ & _ & _ & _ & _ & _ & Hlen & _ & Hstay & _).
  destruct (Hstay Hold) as [_ Hnew].
  split; [exact Hf|]. split; [exact Hnd|]. split; [exact Hle|]. split; [exact Hgt|].
  split; [exact Hold|]. split; [exact Hlen|]. split; [exact Hnew|].
  split; vm_compute; reflexivity.
Defined.

(** With the store at capacity and a clock reading below every stored
    creation time, the projectile evicted is the one just inserted: the
    store is left as it was, and the shot is published all the same. *)
Lemma handlePlayerFire_evicts_newcomer :
  let data := mkFireData origin (mkVec3 1 0 0) in
  let bullet := firedBullet "p17" data 5000 "x" in
  let w' := handlePlayerFire "p17" data 5000 "x" crowded in
  reachable crowded
  /\ fireAllowed "p17" 5000 crowded = true
  /\ length (bullets crowded) = 500%nat
  /\ length (mapSet (bullets crowded) (Bullet.id bullet) bullet) = 501%nat
  /\ Forall (fun e => Bullet.createdAt bullet < Bullet.createdAt e.2) (bullets crowded)
  /\ mapGet (bullets w') (Bullet.id bullet) = None
  /\ bullets w' = bullets crowded
  /\ last (outbox w') = Some (ToAll, PlayerFired "p17" "p17_x" origin (mkVec3 1 0 0) 29).
Proof.
  intros data bullet w'.
  split; [apply reachable_run; constructor|].
  split; [vm_compute; reflexivity|]. split; [vm_compute; reflexivity|].
  split; [vm_compute; reflexivity|].
  split; [apply (bool_decide_unpack _); vm_compute; exact I|].
  split; [vm_compute; reflexivity|]. split; vm_compute; reflexivity.
Qed.

(** ** Collisions *)





Lemma stores_handlePlayerHit bullet hit w :
  players (handlePlayerHit bullet hit w) = players w
  /\ bullets (handlePlayerHit bullet hit w) = bullets w.
Proof.
  unfold handlePlayerHit. destruct (mapGet _ _) as [shooter|]; [|done].
  set (w1 := mutate hit _ w).
  destruct (heap w1 !! hit); [|done]. destruct (heap w1 !! shooter); [|done].
  by destruct (_ <=? 0).
Qed.

(** One step of the scan, by what it makes of the entry. *)
Lemma scanPlayers_cons bulletId bullet e rest w :
  scanPlayers bulletId bullet (e :: rest) w
  = match verdict bullet (heap w) e with
    | Passed => scanPlayers bulletId bullet rest w
    | Hit =>
        let w1 := handlePlayerHit bullet e.2 w in
        Normal (set_bullets (mapDelete (bullets w1) bulletId) w1)
    | Failed => Throw w
    end.
Proof.
  destruct e as [playerId l]. cbn [scanPlayers]. unfold verdict. cbn [fst snd].
  destruct (heap w !! l) as [player|]; [|done].
  destruct (String.eqb (Bullet.playerId bullet) playerId); cbn [orb negb andb]; [done|].
  rewrite (Z.leb_antisym 0 (Player.health player)).
  destruct (0 <? Player.health player); cbn [negb andb]; [|done].
  destruct (distance _ _) as [d|]; [|done]. by destruct (PrimFloat.ltb d 0.8).
Qed.

(** The scan is a search for the first entry at which it stops. *)
Lemma scanPlayers_find bulletId bullet w : forall entries,
  scanPlayers bulletId bullet entries w
  = match List.find (stops bullet (heap w)) entries with
    | None => Normal w
    | Some e =>
        match verdict bullet (heap w) e with
        | Hit =>
            let w1 := handlePlayerHit bullet e.2 w in
            Normal (set_bullets (mapDelete (bullets w1) bulletId) w1)
        | _ => Throw w
        end
    end.
Proof.
  induction entries as [|e entries IH]; [done|].
  rewrite scanPlayers_cons. cbn [List.find]. unfold stops at 1.
  destruct (verdict bullet (heap w) e) eqn:Hv; [exact IH| |]; by rewrite Hv.
Qed.

Lemma verdict_Hit bullet h e :
  verdict bullet h e = Hit ->
  exists player d,
    h !! e.2 = Some player /\ Bullet.playerId bullet <> e.1
    /\ 0 < Player.health player
    /\ distance (Bullet.position bullet) (Player.position player) = Some d
    /\ PrimFloat.ltb d 0.8 = true.
Proof.
  unfold verdict. destruct (h !! e.2) as [player|]; [|done].
  destruct (String.eqb_spec (Bullet.playerId bullet) e.1); cbn [negb andb]; [done|].
  destruct (Z.ltb_spec 0 (Player.health player)); [|done].
  destruct (distance _ _) as [d|] eqn:Hdist; [|done].
  destruct (PrimFloat.ltb d 0.8) eqn:Hd; [|done].
  intros _. by exists player, d.
Qed.

Lemma find_first {A} (f : A -> bool) (l : list A) (x : A) :
  List.find f l = Some x ->
  f x = true
  /\ exists pre post, l = pre ++ x :: post /\ Forall (fun y => f y = false) pre.
Proof.
  induction l as [|a l IH]; simpl; [done|].
  destruct (f a) eqn:Ha.
  - intros [= ->]. split; [done|]. by exists [], l.
  - intros Hx. destruct (IH Hx) as (Hfx & pre & post & -> & Hpre).
    split; [done|]. exists (a :: pre), post. split; [done|]. by constructor.
Qed.

(** The scan of one projectile ends in one of three ways: nothing was
    touched, an error was thrown before anything was touched, or one
    player was handed to [handlePlayerHit] and the projectile deleted. *)
Lemma scanPlayers_cases bulletId bullet entries w :
  scanPlayers bulletId bullet entries w = Normal w
  \/ scanPlayers bulletId bullet entries w = Throw w
  \/ exists e player,
       e ∈ entries /\ heap w !! e.2 = Some player
       /\ Bullet.playerId bullet <> e.1 /\ 0 < Player.health player
       /\ scanPlayers bulletId bullet entries w
          = Normal (set_bullets
                      (mapDelete (bullets (handlePlayerHit bullet e.2 w)) bulletId)
                      (handlePlayerHit bullet e.2 w)).
Proof.
  rewrite scanPlayers_find.
  destruct (List.find (stops bullet (heap w)) entries) as [e|] eqn:Hfind; [|by left].
  destruct (find_first _ _ _ Hfind) as (_ & pre & post & -> & _).
  destruct (verdict bullet (heap w) e) eqn:Hv; [by right; left| |by right; left].
  right. right. destruct (verdict_Hit _ _ _ Hv) as (player & d & Hp & Hne & Hh & _).
  exists e, player. split; [apply elem_of_app; right; left|]. done.
Qed.

(** A property of the state that the hit of a live player other than the
    shooter and the deletion of the projectile preserve holds after the
    scan. *)
Lemma scanPlayers_invariant (I : World -> Prop) bulletId bullet entries w :
  I w ->
  (forall e player,
     e ∈ entries -> heap w !! e.2 = Some player ->
     Bullet.playerId bullet <> e.1 -> 0 < Player.health player ->
     I (set_bullets (mapDelete (bullets (handlePlayerHit bullet e.2 w)) bulletId)
          (handlePlayerHit bullet e.2 w))) ->
  I (stateOf (scanPlayers bulletId bullet entries w)).
Proof.
  intros Hw Hhit.
  destruct (scanPlayers_cases bulletId bullet entries w)
    as [->|[->|(e & player & He & Hp & Hne & Hh & ->)]]; [done|done|].
  by apply (Hhit e player).
Qed.

Lemma scanBullets_invariant (I : World -> Prop) (P : string * Bullet.t -> Prop) :
  (forall w e, P e -> I w -> I (stateOf (scanPlayers e.1 e.2 (players w) w))) ->
  forall entries w, Forall P entries -> I w -> I (stateOf (scanBullets entries w)).
Proof.
  intros Hstep. induction entries as [|[bulletId bullet] entries IH]; intros w HP Hw;
    [done|].
  apply Forall_cons in HP as [He HP]. cbn [scanBullets].
  pose proof (Hstep w (bulletId, bullet) He Hw) as H1. cbn [fst snd] in H1.
  destruct (scanPlayers bulletId bullet (players w) w) as [w1|w1]; [|done].
  by apply IH.
Qed.

Lemma checkBulletCollisions_invariant (I : World -> Prop) (w : World) :
  (forall w e, I w -> I (stateOf (scanPlayers e.1 e.2 (players w) w))) ->
  I w -> I (stateOf (checkBulletCollisions w)).
Proof.
  intros Hstep Hw. unfold checkBulletCollisions.
  apply (scanBullets_invariant I (fun _ => True)); [by auto| |done].
  apply Forall_forall. done.
Qed.

(** A tick ends with the sweep of the inactive players, or where the
    collision pass has thrown. *)
Lemma updateGameState_invariant (I : World -> Prop) now w :
  I (stateOf (checkBulletCollisions
                (updateBullets now (set_clock (tick w + 1) now w)))) ->
  (forall w3, I w3 -> I (cleanupInactivePlayers now w3)) ->
  I (updateGameState now w).
Proof.
  intros Hpass Hsweep. unfold updateGameState.
  destruct (checkBulletCollisions _) as [w3|w3]; cbn [stateOf] in Hpass; auto.
Qed.








(** The distance is computed on the position as the peer sent it: a [y]
    that is [null], [false] or the text of a number counts as that
    number; one that is missing, or an object, as [NaN], which is in
    range of nothing. *)
Example checkBulletCollisions_converts_height :
  let after height := healthOf (updateGameState 1016 (standingAt height 1000)) 1%nat in
  after (VNumber 0.5) = Some 75
  /\ after VNull = Some 75
  /\ after (VBool false) = Some 75
  /\ after (VString "0.5") = Some 75
  /\ after (VString " 5e-1 ") = Some 75
  /\ after (VString "1.8") = Some 100
  /\ after (VString "up") = Some 100
  /\ after VUndefined = Some 100
  /\ after (VObject []) = Some 100.
Proof. cbn zeta. split_and!; vm_compute; reflexivity. Qed.

(** A [y] that is an object with an own [toString] property cannot be
    converted: the pass throws at the first projectile tested against
    that player, and the tick ends without the sweep of inactive
    players. *)
Example checkBulletCollisions_throws :
  let height := VObject [("toString"%string, VNumber 0)] in
  checkBulletCollisions (standingAt height 1000) = Throw (standingAt height 1000)
  /\ players (updateGameState 61016 (standingAt height 61000))
     = [("a"%string, 0%nat); ("b"%string, 1%nat)]
  /\ players (updateGameState 61016 (standingAt (VObject []) 61000)) = [].
Proof. cbn zeta. split_and!; vm_compute; reflexivity. Qed.

(** ** Timers whose player has left *)

(** C1, counterexample to a silent timer: after the player has left the store, the reload
    timer still publishes [reload-complete], and the respawn timer still
    publishes [player-respawned] to every peer. *)
Lemma timers_publish_after_disconnect :
  (mapGet (players reloadOrphan) "a" = None
   /\ timers reloadOrphan = [mkTimer ReloadTimer 0%nat 2000]
   /\ outbox (fireTimer 0 0.5 0.5 reloadOrphan)
      = outbox reloadOrphan ++ [(ToRoom "a", ReloadComplete 30 119)])
  /\ (mapGet (players respawnOrphan) "b" = None
      /\ timers respawnOrphan = [mkTimer RespawnTimer 1%nat 3000]
      /\ outbox (fireTimer 0 0.5 0.5 respawnOrphan)
         = outbox respawnOrphan
           ++ [(ToAll, PlayerRespawned "b" (JS.point 0 1.8 0) 100)]).
Proof. split; (split; [|split]); vm_compute; reflexivity. Qed.

(** C1 (amended): a timer does no lookup by identifier.  When the record
    it captured is no longer in the player store, the callback writes to
    that detached record only: the player store, the projectile store and
    every stored record are unchanged.  It still publishes its
    notification, [reload-complete] to the room of the departed player's
    identifier or [player-respawned] to every peer. *)
Theorem fireTimer_detached (i : nat) (r1 r2 : float) (w : World) (t : Timer)
    (p : Player.t) :
  timers w !! i = Some t ->
  heap w !! target t = Some p ->
  ~ stored w (target t) ->
  let w' := fireTimer i r1 r2 w in
  players w' = players w
  /\ bullets w' = bullets w
  /\ tick w' = tick w
  /\ (forall l, stored w l -> heap w' !! l = heap w !! l)
  /\ timers w' = delete i (timers w)
  /\ outbox w' = outbox w ++ [timerNotice (kind t) r1 r2 p].
Proof.
  intros Ht Hp Hgone w'. subst w'. unfold fireTimer. rewrite Ht.
  assert (Hframe : forall f l, stored w l ->
            heap (mutate (target t) f (set_timers (delete i (timers w)) w)) !! l
            = heap w !! l).
  { intros f l Hl. rewrite heap_mutate_ne; [done|]. by intros <-. }
  destruct (kind t).
  - unfold reloadCallback. cbn [heap set_timers]. rewrite Hp.
    split_and!; try done. intros l Hl. apply (Hframe _ l Hl).
  - unfold respawnPlayer. cbn [heap set_timers]. rewrite Hp.
    split_and!; try done. intros l Hl. apply (Hframe _ l Hl).
Qed.

Lemma fireTimer_detached_witness :
  timers respawnOrphan !! 0%nat = Some (mkTimer RespawnTimer 1%nat 3000)
  /\ ~ stored respawnOrphan 1%nat
  /\ players (fireTimer 0 0.5 0.5 respawnOrphan) = players respawnOrphan
  /\ bullets (fireTimer 0 0.5 0.5 respawnOrphan) = bullets respawnOrphan
  /\ length (outbox (fireTimer 0 0.5 0.5 respawnOrphan))
     = S (length (outbox respawnOrphan)).
Proof.
  assert (Ht : timers respawnOrphan !! 0%nat = Some (mkTimer RespawnTimer 1%nat 3000))
    by (vm_compute; reflexivity).
  destruct (heap respawnOrphan !! 1%nat) as [p|] eqn:Hp;
    [|vm_compute in Hp; discriminate Hp].
  assert (Hgone : ~ stored respawnOrphan (target (mkTimer RespawnTimer 1%nat 3000))).
  { intros [socketId Hs]. apply mapGet_Some_elem_of in Hs. vm_compute in Hs.
    apply list_elem_of_singleton in Hs. discriminate Hs. }
  destruct (fireTimer_detached 0 0.5 0.5 respawnOrphan _ p Ht Hp Hgone)
    as (Hpl & Hb & _ & _ & _ & Ho).
  split; [exact Ht|]. split; [exact Hgone|]. split; [exact Hpl|]. split; [exact Hb|].
  rewrite Ho, length_app. apply Nat.add_1_r.
Defined.

(** ** Health stays within bounds *)

Lemma world_ok_mutate l f w :
  (forall p, player_ok p -> player_ok (f p)) ->
  world_ok w -> world_ok (mutate l f w).
Proof.
  intros Hf (Hh & Hb & Ho). split_and!; try done.
  unfold mutate. cbn [heap set_heap]. apply Forall_alter; [done|].
  intros p _ Hp. by apply Hf.
Qed.

Lemma world_ok_emit a e w :
  message_ok (a, e) -> world_ok w -> world_ok (emit a e w).
Proof.
  intros He (Hh & Hb & Ho). split_and!; try done.
  cbn [outbox emit]. apply Forall_app. split; [done|]. by constructor.
Qed.

Lemma world_ok_set_bullets m w :
  Forall bullet_ok m -> world_ok w -> world_ok (set_bullets m w).
Proof. by intros Hm (Hh & Hb & Ho). Qed.

Lemma world_ok_set_players m w : world_ok w -> world_ok (set_players m w).
Proof. done. Qed.

Lemma world_ok_set_timers ts w : world_ok w -> world_ok (set_timers ts w).
Proof. done. Qed.

Lemma world_ok_schedule t w : world_ok w -> world_ok (schedule t w).
Proof. done. Qed.

Lemma world_ok_set_clock t u w : world_ok w -> world_ok (set_clock t u w).
Proof. done. Qed.

Lemma world_ok_bullets_delete k w :
  world_ok w -> world_ok (set_bullets (mapDelete (bullets w) k) w).
Proof.
  intros Hw. apply world_ok_set_bullets; [|done].
  apply Forall_mapDelete. apply Hw.
Qed.

Lemma world_ok_fold {A} (f : World -> A -> World) (P : A -> Prop) (l : list A) :
  (forall w x, P x -> world_ok w -> world_ok (f w x)) ->
  Forall P l -> forall w, world_ok w -> world_ok (fold_left f l w).
Proof.
  intros Hf Hl. induction Hl as [|x l Hx Hl IH]; intros w Hw; simpl; [done|].
  apply IH. by apply Hf.
Qed.

Lemma Forall_True {A} (l : list A) : Forall (fun _ => True) l.
Proof. by apply Forall_forall. Qed.

Local Ltac keeps_player_ok :=
  let p := fresh "p" in
  let H := fresh "H" in
  intros p H; exact H.

Lemma player_ok_new socketId now :
  player_ok
    (Player.mk socketId (JS.point 0 1.8 0) (mkVec3 0 0 0) (mkVec2 0 0)
               100 100 30 120 false now None
               ("Player_" ++ substring 0 6 socketId) 0 0 true).
Proof. split_and!; simpl; try lia. by exists 4. Qed.

Lemma initializePlayer_ok socketId now w :
  world_ok w -> world_ok (initializePlayer socketId now w).
Proof.
  intros (Hh & Hb & Ho). unfold initializePlayer.
  apply world_ok_emit; [done|]. apply world_ok_emit; [done|].
  apply world_ok_set_players. split_and!; try done.
  cbn [heap set_heap]. apply Forall_app. split; [done|].
  constructor; [apply player_ok_new|constructor].
Qed.

Lemma handlePlayerUpdate_ok socketId data now w :
  world_ok w -> world_ok (handlePlayerUpdate socketId data now w).
Proof.
  intros Hw. unfold handlePlayerUpdate.
  destruct (mapGet (players w) socketId); [|done].
  destruct (negb _); [done|]. apply world_ok_mutate; [keeps_player_ok|done].
Qed.

Lemma startReload_ok l w : world_ok w -> world_ok (startReload l w).
Proof.
  intros Hw. unfold startReload. apply world_ok_schedule.
  apply world_ok_mutate; [keeps_player_ok|done].
Qed.

Lemma reloadCallback_ok l w : world_ok w -> world_ok (reloadCallback l w).
Proof.
  intros Hw. unfold reloadCallback.
  destruct (heap w !! l) as [player|] eqn:Hp; [|done].
  apply world_ok_emit; [done|]. apply world_ok_mutate; [|done].
  intros _ _. destruct Hw as (Hh & _). by apply (Forall_lookup_1 _ _ _ _ Hh Hp).
Qed.

Lemma limitBullets_ok w : world_ok w -> world_ok (limitBullets w).
Proof.
  intros Hw. unfold limitBullets. destruct (_ <? _)%nat; [|done].
  destruct (sortByCreatedAt (bullets w)); [done|]. by apply world_ok_bullets_delete.
Qed.

Lemma handlePlayerFire_ok socketId data now suffix w :
  world_ok w -> world_ok (handlePlayerFire socketId data now suffix w).
Proof.
  intros Hw. unfold handlePlayerFire.
  destruct (mapGet (players w) socketId) as [l|]; [|done].
  destruct (heap w !! l) as [player|] eqn:Hp; [|done].
  destruct (_ || _ || _); [done|].
  assert (Hplayer : player_ok player).
  { destruct Hw as (Hh & _). by apply (Forall_lookup_1 _ _ _ _ Hh Hp). }
  set (player1 := if noLastFireTime player then _ else player).
  assert (Hplayer1 : player_ok player1) by (subst player1; by destruct (noLastFireTime _)).
  assert (Hw1 : world_ok (mutate l (fun _ => player1) w)).
  { by apply world_ok_mutate. }
  destruct (_ <? 100); [done|].
  apply world_ok_emit; [done|]. apply limitBullets_ok.
  match goal with
  | |- world_ok (set_bullets (mapSet (bullets ?w3) ?k ?b) ?w3) =>
      assert (Hw3 : world_ok w3)
  end.
  { assert (Hw2 : world_ok
                    (mutate l
                       (fun _ => Player.set_ammo (Player.ammo player1 - 1)
                                   (Player.set_lastFireTime (Some now) player1))
                       (mutate l (fun _ => player1) w))).
    { by apply world_ok_mutate. }
    destruct (_ && _); [by apply startReload_ok|done]. }
  apply world_ok_set_bullets; [|done].
  apply Forall_mapSet; [apply Hw3|done].
Qed.

Lemma handlePlayerReload_ok socketId w :
  world_ok w -> world_ok (handlePlayerReload socketId w).
Proof.
  intros Hw. unfold handlePlayerReload.
  destruct (mapGet (players w) socketId) as [l|]; [|done].
  destruct (heap w !! l); [|done].
  destruct (_ || _ || _); [done|by apply startReload_ok].
Qed.

Lemma handleDisconnect_ok socketId w :
  world_ok w -> world_ok (handleDisconnect socketId w).
Proof.
  intros Hw. unfold handleDisconnect.
  destruct (mapGet (players w) socketId); [|done].
  apply world_ok_emit; [done|]. apply world_ok_set_players.
  apply (world_ok_fold _ (fun _ => True)); [|apply Forall_True|done].
  intros acc e _ Hacc. destruct (String.eqb _ _); [|done].
  by apply world_ok_bullets_delete.
Qed.

Lemma updateBullets_ok now w : world_ok w -> world_ok (updateBullets now w).
Proof.
  intros Hw. unfold updateBullets.
  apply (world_ok_fold _ bullet_ok); [|apply Hw|done].
  intros acc e He Hacc. unfold updateBullet.
  assert (H1 : world_ok (set_bullets
                           (mapSet (bullets acc) e.1 (moveBullet 0.016 e.2)) acc)).
  { apply world_ok_set_bullets; [|done]. apply Forall_mapSet; [apply Hacc|done]. }
  destruct (isExpired now _); [|done].
  apply world_ok_emit; [done|]. by apply world_ok_bullets_delete.
Qed.

(** A hit on a living player leaves a health that is still a multiple of
    25 and not negative. *)
Lemma player_ok_hit p :
  player_ok p -> 0 < Player.health p ->
  player_ok (Player.set_health (Player.health p - 25) p)
  /\ 0 <= Player.health p - 25 <= 100.
Proof.
  intros (Hmax & Hrange & [q Hq]) Hpos.
  assert (0 <= Player.health p - 25 <= 100) by lia.
  split; [|done]. split_and!; simpl; try done; try lia.
  exists (q - 1). lia.
Qed.

Lemma handlePlayerHit_ok bullet hit w p :
  Bullet.damage bullet = 25 ->
  heap w !! hit = Some p ->
  0 < Player.health p ->
  world_ok w -> world_ok (handlePlayerHit bullet hit w).
Proof.
  intros Hd Hp Hpos Hw. unfold handlePlayerHit.
  destruct (mapGet (players w) (Bullet.playerId bullet)) as [shooter|]; [|done].
  assert (Hpok : player_ok p).
  { destruct Hw as (Hh & _). by apply (Forall_lookup_1 _ _ _ _ Hh Hp). }
  destruct (player_ok_hit p Hpok Hpos) as (Hp' & Hrange).
  set (w1 := mutate hit _ w).
  assert (Hhit : heap w1 !! hit
                 = Some (Player.set_health (Player.health p - Bullet.damage bullet) p)).
  { subst w1. by rewrite heap_mutate_eq, Hp. }
  assert (Hw1 : world_ok w1).
  { destruct Hw as (Hh & Hb & Ho). split_and!; try done.
    subst w1. unfold mutate. cbn [heap set_heap].
    apply Forall_alter; [done|]. intros x Hx _. rewrite Hp in Hx.
    injection Hx as <-. by rewrite Hd. }
  rewrite Hhit. destruct (heap w1 !! shooter) as [shooterPlayer|]; [|done].
  cbn [Player.health Player.set_health]. rewrite Hd.
  assert (Hw2 : world_ok
                  (emit ToAll
                     (PlayerHit
                        (Player.id (Player.set_health (Player.health p - 25) p))
                        (Player.id shooterPlayer) 25 (Player.health p - 25)
                        (Bullet.id bullet)) w1)).
  { by apply world_ok_emit. }
  destruct (_ <=? 0); [|done].
  apply world_ok_schedule. apply world_ok_emit; [done|].
  apply world_ok_mutate; [keeps_player_ok|].
  apply world_ok_mutate; [keeps_player_ok|done].
Qed.

Lemma scanPlayers_ok bulletId bullet entries w :
  Bullet.damage bullet = 25 ->
  world_ok w -> world_ok (stateOf (scanPlayers bulletId bullet entries w)).
Proof.
  intros Hd Hw. apply scanPlayers_invariant; [done|].
  intros e player _ Hp _ Hh.
  apply world_ok_bullets_delete. by apply (handlePlayerHit_ok _ _ _ player).
Qed.

Lemma checkBulletCollisions_ok w :
  world_ok w -> world_ok (stateOf (checkBulletCollisions w)).
Proof.
  intros Hw. unfold checkBulletCollisions.
  apply (scanBullets_invariant world_ok bullet_ok); [|apply Hw|done].
  intros acc e He Hacc. by apply scanPlayers_ok.
Qed.

Lemma respawnPlayer_ok l r1 r2 w : world_ok w -> world_ok (respawnPlayer l r1 r2 w).
Proof.
  intros Hw. unfold respawnPlayer.
  destruct (heap w !! l) as [player|] eqn:Hp; [|done].
  assert (Hpok : player_ok player).
  { destruct Hw as (Hh & _). by apply (Forall_lookup_1 _ _ _ _ Hh Hp). }
  destruct Hpok as (Hmax & Hrange & Hdiv).
  apply world_ok_emit; [done|]. apply world_ok_mutate; [|done].
  intros _ _. split_and!; simpl; try done; rewrite Hmax; try lia. by exists 4.
Qed.

Lemma cleanupInactivePlayers_ok now w :
  world_ok w -> world_ok (cleanupInactivePlayers now w).
Proof.
  intros Hw. unfold cleanupInactivePlayers.
  apply (world_ok_fold _ (fun _ => True)); [|apply Forall_True|done].
  intros acc e _ Hacc. destruct (heap acc !! e.2); [|done].
  destruct (_ <? _); [|done]. by apply world_ok_emit.
Qed.

Lemma cleanupLoop_ok now w : world_ok w -> world_ok (cleanupLoop now w).
Proof.
  intros Hw. unfold cleanupLoop.
  apply (world_ok_fold _ (fun _ => True)); [|apply Forall_True|done].
  intros acc e _ Hacc. destruct (isExpired _ _); [|done].
  by apply world_ok_bullets_delete.
Qed.

Lemma sendClientUpdates_ok w : world_ok w -> world_ok (sendClientUpdates w).
Proof.
  intros Hw. unfold sendClientUpdates. destruct (_ =? _)%nat; [done|].
  by apply world_ok_emit.
Qed.

Lemma fireTimer_ok i r1 r2 w : world_ok w -> world_ok (fireTimer i r1 r2 w).
Proof.
  intros Hw. unfold fireTimer. destruct (timers w !! i) as [t|]; [|done].
  destruct (kind t); [apply reloadCallback_ok|apply respawnPlayer_ok];
    by apply world_ok_set_timers.
Qed.

Lemma step_ok a w : world_ok w -> world_ok (step a w).
Proof.
  intros Hw. destruct a; simpl.
  - by apply initializePlayer_ok.
  - by apply handlePlayerUpdate_ok.
  - by apply handlePlayerFire_ok.
  - by apply handlePlayerReload_ok.
  - by apply handleDisconnect_ok.
  - apply (updateGameState_invariant world_ok).
    + apply checkBulletCollisions_ok. apply updateBullets_ok.
      by apply world_ok_set_clock.
    + intros w3. apply cleanupInactivePlayers_ok.
  - by apply sendClientUpdates_ok.
  - by apply cleanupLoop_ok.
  - by apply fireTimer_ok.
Qed.

Lemma reachable_ok w : reachable w -> world_ok w.
Proof.
  induction 1 as [now|a w Hr IH]; [|by apply step_ok].
  split_and!; constructor.
Qed.

(** C2: in every state the server can reach, every stored player has
    0 <= health <= maxHealth = 100; damage never takes a living player
    below zero, so death happens at exactly 0; and every [player-hit]
    notification ever published reports a health between 0 and 100. *)
Theorem health_within_bounds (w : World) :
  reachable w ->
  (forall socketId l p,
     mapGet (players w) socketId = Some l -> heap w !! l = Some p ->
     0 <= Player.health p <= Player.maxHealth p /\ Player.maxHealth p = 100)
  /\ (forall k b socketId l p,
        (k, b) ∈ bullets w ->
        mapGet (players w) socketId = Some l -> heap w !! l = Some p ->
        0 < Player.health p ->
        0 <= Player.health p - Bullet.damage b)
  /\ (forall a hitPlayerId shooterId damage newHealth bulletId,
        (a, PlayerHit hitPlayerId shooterId damage newHealth bulletId) ∈ outbox w ->
        0 <= newHealth <= 100).
Proof.
  intros Hr. destruct (reachable_ok w Hr) as (Hh & Hb & Ho). split_and!.
  - intros socketId l p _ Hp.
    destruct (Forall_lookup_1 _ _ _ _ Hh Hp) as (Hmax & Hrange & _). lia.
  - intros k b socketId l p Hin _ Hp Hpos.
    destruct (Forall_lookup_1 _ _ _ _ Hh Hp) as (Hmax & Hrange & [q Hq]).
    assert (Hd : bullet_ok (k, b)) by (by eapply Forall_forall in Hb).
    unfold bullet_ok in Hd. simpl in Hd. lia.
  - intros a hitPlayerId shooterId damage newHealth bulletId Hin.
    by eapply Forall_forall in Ho; [|exact Hin].
Qed.

Lemma health_within_bounds_witness :
  reachable duel
  /\ (Player.health <$> heap duel !! 1%nat) = Some 0
  /\ (ToAll, PlayerHit "b" "a" 25 0 "a_4") ∈ outbox duel
  /\ (forall socketId l p,
        mapGet (players duel) socketId = Some l -> heap duel !! l = Some p ->
        0 <= Player.health p <= Player.maxHealth p /\ Player.maxHealth p = 100).
Proof.
  assert (Hr : reachable duel) by (apply reachable_run; constructor).
  destruct (health_within_bounds duel Hr) as (Hplayers & _ & _).
  split; [exact Hr|]. split; [vm_compute; reflexivity|].
  split; [|exact Hplayers].
  apply list_elem_of_In. vm_compute. do 11 right. left. reflexivity.
Defined.

(** * Further properties of the handlers *)

(** ** Position updates *)

(** X1: a position update touches nothing but the sender's record, and in
    that record nothing but position, rotation, velocity and the time of
    the update; it publishes nothing.  From an unknown sender, or with a
    position that fails validation, it changes nothing at all. *)
Theorem handlePlayerUpdate_frame (socketId : string) (data : UpdateData) (now : Z)
    (w : World) :
  let w' := handlePlayerUpdate socketId data now w in
  players w' = players w /\ bullets w' = bullets w /\ timers w' = timers w
  /\ outbox w' = outbox w /\ tick w' = tick w
  /\ length (heap w') = length (heap w)
  /\ (forall l, mapGet (players w) socketId <> Some l -> heap w' !! l = heap w !! l)
  /\ (forall l p, heap w !! l = Some p ->
        exists p', heap w' !! l = Some p' /\ sameCombatState p p')
  /\ (mapGet (players w) socketId = None \/ isValidPosition (ud_position data) = false ->
      w' = w).
Proof.
  intros w'. subst w'. unfold handlePlayerUpdate.
  destruct (mapGet (players w) socketId) as [l0|] eqn:Hl.
  - destruct (isValidPosition (ud_position data)) eqn:Hv; cbn [negb].
    + unfold mutate. cbn [players bullets timers outbox tick heap set_heap].
      split_and!; try done.
      * apply length_alter.
      * intros l Hne. apply list_lookup_alter_ne. congruence.
      * intros l p Hp. destruct (decide (l0 = l)) as [<-|Hne].
        -- rewrite list_lookup_alter_eq, Hp. simpl. eexists. split; [reflexivity|].
           by repeat split.
        -- rewrite list_lookup_alter_ne by done. exists p. split; [done|].
           by repeat split.
      * intros [?|?]; congruence.
    + split_and!; try done. intros l p Hp. exists p. split; [done|]. by repeat split.
  - split_and!; try done. intros l p Hp. exists p. split; [done|]. by repeat split.
Qed.

(** X2: an accepted update stores the position that was sent, as it was
    sent; its [x] and [z] are numbers not beyond 1000 in absolute value.
    It also stores the rotation, the clamped velocity (zero when none was
    sent) and the time of the update. *)
Theorem handlePlayerUpdate_accepted (socketId : string) (data : UpdateData)
    (now : Z) (w : World) (l : loc) (p : Player.t) :
  mapGet (players w) socketId = Some l ->
  heap w !! l = Some p ->
  isValidPosition (ud_position data) = true ->
  exists p' fx fz,
    heap (handlePlayerUpdate socketId data now w) !! l = Some p'
    /\ JS.get (ud_position data) "x" = VNumber fx
    /\ JS.get (ud_position data) "z" = VNumber fz
    /\ Player.position p' = ud_position data
    /\ JS.get (Player.position p') "x" = VNumber fx
    /\ JS.get (Player.position p') "z" = VNumber fz
    /\ PrimFloat.ltb 1000 (PrimFloat.abs fx) = false
    /\ PrimFloat.ltb 1000 (PrimFloat.abs fz) = false
    /\ Player.rotation p' = ud_rotation data
    /\ Player.velocity p'
       = match ud_velocity data with
         | Some v => clampVelocity v
         | None => mkVec2 0 0
         end
    /\ Player.lastUpdate p' = now.
Proof.
  intros Hl Hp Hv. unfold handlePlayerUpdate. rewrite Hl, Hv. cbn [negb].
  rewrite heap_mutate_eq, Hp.
  apply isValidPosition_true_iff in Hv as (_ & fx & fz & Hx & Hz & Hbx & Hbz).
  eexists _, fx, fz. split; [reflexivity|].
  cbn. split_and!; try done. by destruct (ud_velocity data).
Qed.

Lemma handlePlayerUpdate_accepted_witness :
  let w := roundsFired 0 in
  let data := mkUpdateData
                (VObject [("x"%string, VNumber 3); ("y"%string, VNumber 1.8);
                          ("z"%string, VNumber (-4))])
                origin (Some (mkVec2 0.25 0)) in
  mapGet (players w) "a" = Some 0%nat
  /\ isValidPosition (ud_position data) = true
  /\ (Player.position <$> heap (handlePlayerUpdate "a" data 7 w) !! 0%nat)
     = Some (JS.point 3 1.8 (-4))
  /\ (Player.lastUpdate <$> heap (handlePlayerUpdate "a" data 7 w) !! 0%nat)
     = Some 7.
Proof.
  intros w data.
  assert (Hl : mapGet (players w) "a" = Some 0%nat) by (vm_compute; reflexivity).
  assert (Hv : isValidPosition (ud_position data) = true) by (vm_compute; reflexivity).
  destruct (heap w !! 0%nat) as [p|] eqn:Hp; [|vm_compute in Hp; discriminate Hp].
  destruct (handlePlayerUpdate_accepted "a" data 7 w 0%nat p Hl Hp Hv)
    as (p' & fx & fz & Hp' & _ & _ & _ & _ & _ & _ & _ & _ & _ & Hnow).
  split; [exact Hl|]. split; [exact Hv|].
  split; [vm_compute; reflexivity|]. rewrite Hp'. cbn [fmap option_fmap option_map].
  by rewrite Hnow.
Defined.

(** ** Explicit reload *)

Lemma reloadAllowed_true socketId w :
  reloadAllowed socketId w = true <->
  exists l p,
    mapGet (players w) socketId = Some l /\ heap w !! l = Some p
    /\ Player.isReloading p = false /\ 0 < Player.totalAmmo p /\ Player.ammo p < 30.
Proof.
  unfold reloadAllowed. split.
  - destruct (mapGet (players w) socketId) as [l|] eqn:Hl; [|done].
    destruct (heap w !! l) as [p|] eqn:Hp; [|done].
    intros H. apply andb_prop in H as [H Ha]. apply andb_prop in H as [Hr Ht].
    exists l, p. split; [done|]. split; [done|].
    split; [by destruct (Player.isReloading p)|].
    split; [by apply Z.ltb_lt|by apply Z.ltb_lt].
  - intros (l & p & -> & -> & Hr & Ht & Ha). rewrite Hr.
    apply Z.ltb_lt in Ht, Ha. by rewrite Ht, Ha.
Qed.

Lemma handlePlayerReload_rejected socketId w :
  reloadAllowed socketId w = false -> handlePlayerReload socketId w = w.
Proof.
  unfold reloadAllowed, handlePlayerReload.
  destruct (mapGet (players w) socketId) as [l|]; [|done].
  destruct (heap w !! l) as [p|]; [|done].
  destruct (Player.isReloading p); [done|]. cbn [negb andb orb].
  rewrite (Z.leb_antisym 0 (Player.totalAmmo p)), (Z.leb_antisym (Player.ammo p) 30).
  destruct (0 <? Player.totalAmmo p); [|done].
  by destruct (Player.ammo p <? 30).
Qed.

(** X3: an explicit reload request takes effect only for a stored player
    that is not reloading, has rounds in reserve and fewer than 30 in the
    magazine; otherwise the state is unchanged.  When it takes effect it
    raises the flag and schedules one 2000 ms timer, moves no rounds yet
    and publishes nothing; repeating the request before the timer fires
    changes nothing. *)
Theorem handlePlayerReload_gate (socketId : string) (w : World) :
  let w' := handlePlayerReload socketId w in
  (reloadAllowed socketId w = false -> w' = w)
  /\ (reloadAllowed socketId w = true ->
      (exists l p,
          mapGet (players w) socketId = Some l /\ heap w !! l = Some p
          /\ heap w' !! l = Some (Player.set_isReloading true p)
          /\ timers w' = timers w ++ [mkTimer ReloadTimer l 2000])
      /\ players w' = players w /\ bullets w' = bullets w /\ outbox w' = outbox w
      /\ handlePlayerReload socketId w' = w').
Proof.
  intros w'. split; [apply handlePlayerReload_rejected|].
  intros Ha. pose proof Ha as Ha'.
  apply reloadAllowed_true in Ha' as (l & p & Hl & Hp & Hr & Ht & Hammo).
  assert (Hw' : w' = startReload l w).
  { subst w'. unfold handlePlayerReload. rewrite Hl, Hp, Hr. cbn [orb].
    destruct (Z.leb_spec (Player.totalAmmo p) 0); [lia|].
    by destruct (Z.leb_spec 30 (Player.ammo p)); [lia|]. }
  assert (Hheap : heap w' !! l = Some (Player.set_isReloading true p)).
  { rewrite Hw'. unfold startReload, schedule. cbn [heap set_timers].
    by rewrite heap_mutate_eq, Hp. }
  split; [exists l, p; split_and!; [done|done|exact Hheap|by rewrite Hw']|].
  split; [by rewrite Hw'|]. split; [by rewrite Hw'|]. split; [by rewrite Hw'|].
  apply handlePlayerReload_rejected. unfold reloadAllowed.
  replace (players w') with (players w) by (by rewrite Hw').
  by rewrite Hl, Hheap.
Qed.

(** ** Invariants of the player records *)

Lemma fold_left_invariant {A} (I : World -> Prop) (f : World -> A -> World)
    (l : list A) :
  (forall w x, I w -> I (f w x)) -> forall w, I w -> I (fold_left f l w).
Proof.
  intros Hf. induction l as [|x l IH]; intros w Hw; simpl; [done|].
  apply IH. by apply Hf.
Qed.

(** A property of single records that every write of the handlers keeps
    is kept by every step of the server. *)
Section HeapInvariant.

Variable P : Player.t -> Prop.

Hypothesis P_new : forall socketId now,
  P (Player.mk socketId (JS.point 0 1.8 0) (mkVec3 0 0 0) (mkVec2 0 0)
               100 100 30 120 false now None
               ("Player_" ++ substring 0 6 socketId) 0 0 true).
Hypothesis P_input : forall p position rotation velocity now,
  P p ->
  P (Player.set_lastUpdate now
       (Player.set_velocity velocity
          (Player.set_rotation rotation (Player.set_position position p)))).
Hypothesis P_isReloading : forall p b, P p -> P (Player.set_isReloading b p).
Hypothesis P_lastFireTime : forall p t, P p -> P (Player.set_lastFireTime t p).
Hypothesis P_shot : forall p,
  P p -> 0 < Player.ammo p -> P (Player.set_ammo (Player.ammo p - 1) p).
Hypothesis P_reload : forall p,
  P p ->
  let moved := Z.min (30 - Player.ammo p) (Player.totalAmmo p) in
  P (Player.set_isReloading false
       (Player.set_totalAmmo (Player.totalAmmo p - moved)
          (Player.set_ammo (Player.ammo p + moved) p))).
Hypothesis P_respawn : forall p position,
  P p ->
  P (Player.set_position position
       (Player.set_isReloading false
          (Player.set_totalAmmo 120
             (Player.set_ammo 30 (Player.set_health (Player.maxHealth p) p))))).
Hypothesis P_health : forall p h, P p -> P (Player.set_health h p).
Hypothesis P_deaths : forall p, P p -> P (Player.set_deaths (Player.deaths p + 1) p).
Hypothesis P_kills : forall p, P p -> P (Player.set_kills (Player.kills p + 1) p).

Lemma heap_inv_mutate l f w :
  (forall p, heap w !! l = Some p -> P p -> P (f p)) ->
  heap_inv P w -> heap_inv P (mutate l f w).
Proof. intros Hf Hw. by apply Forall_alter. Qed.

Lemma heap_inv_lookup w l p : heap_inv P w -> heap w !! l = Some p -> P p.
Proof. intros Hw Hp. by apply (Forall_lookup_1 _ _ _ _ Hw Hp). Qed.

Lemma heap_inv_startReload l w : heap_inv P w -> heap_inv P (startReload l w).
Proof.
  intros Hw. unfold startReload, schedule, heap_inv. cbn [heap set_timers].
  apply heap_inv_mutate; [|done]. intros p _. apply P_isReloading.
Qed.

Lemma heap_inv_limitBullets w : heap_inv P w -> heap_inv P (limitBullets w).
Proof. unfold heap_inv. by rewrite heap_limitBullets. Qed.

Lemma heap_inv_handlePlayerFire socketId data now suffix w :
  heap_inv P w -> heap_inv P (handlePlayerFire socketId data now suffix w).
Proof.
  intros Hw. unfold handlePlayerFire.
  destruct (mapGet (players w) socketId) as [l|]; [|done].
  destruct (heap w !! l) as [player|] eqn:Hp; [|done].
  destruct (Z.leb_spec (Player.health player) 0); [done|].
  destruct (Player.isReloading player); [done|].
  destruct (Z.leb_spec (Player.ammo player) 0) as [|Hammo]; [done|]. cbn [orb].
  pose proof (heap_inv_lookup _ _ _ Hw Hp) as Hplayer.
  set (player1 := if noLastFireTime player then _ else player).
  assert (Hplayer1 : P player1 /\ 0 < Player.ammo player1).
  { subst player1. destruct (noLastFireTime player); [|done].
    split; [by apply P_lastFireTime|done]. }
  destruct Hplayer1 as [Hplayer1 Hammo1].
  assert (Hw1 : heap_inv P (mutate l (fun _ => player1) w)).
  { by apply heap_inv_mutate. }
  destruct (_ <? 100); [done|].
  unfold heap_inv. cbn [heap emit]. rewrite heap_limitBullets. cbn [heap set_bullets].
  assert (Hw2 : heap_inv P
                  (mutate l
                     (fun _ => Player.set_ammo (Player.ammo player1 - 1)
                                 (Player.set_lastFireTime (Some now) player1))
                     (mutate l (fun _ => player1) w))).
  { apply heap_inv_mutate; [|done]. intros _ _ _.
    apply (P_shot (Player.set_lastFireTime (Some now) player1));
      [by apply P_lastFireTime|done]. }
  destruct (_ && _); [by apply heap_inv_startReload|done].
Qed.

Lemma heap_inv_handlePlayerHit bullet hit w :
  heap_inv P w -> heap_inv P (handlePlayerHit bullet hit w).
Proof.
  intros Hw. unfold handlePlayerHit.
  destruct (mapGet (players w) (Bullet.playerId bullet)) as [shooter|]; [|done].
  set (w1 := mutate hit _ w).
  assert (Hw1 : heap_inv P w1).
  { subst w1. apply heap_inv_mutate; [|done]. intros p _. apply P_health. }
  destruct (heap w1 !! hit); [|done]. destruct (heap w1 !! shooter); [|done].
  destruct (_ <=? 0); [|done].
  unfold heap_inv, schedule. cbn [heap set_timers emit].
  apply heap_inv_mutate; [intros p _; apply P_kills|].
  apply heap_inv_mutate; [intros p _; apply P_deaths|]. done.
Qed.

Lemma heap_inv_scanPlayers bulletId bullet entries w :
  heap_inv P w -> heap_inv P (stateOf (scanPlayers bulletId bullet entries w)).
Proof.
  intros Hw. apply scanPlayers_invariant; [done|]. intros e player _ _ _ _.
  unfold heap_inv. cbn [heap set_bullets]. by apply heap_inv_handlePlayerHit.
Qed.

Lemma heap_updateBullet now w e : heap (updateBullet now w e) = heap w.
Proof. unfold updateBullet. by destruct (isExpired _ _). Qed.

Lemma heap_inv_step a w : heap_inv P w -> heap_inv P (step a w).
Proof.
  intros Hw. destruct a; simpl.
  - unfold heap_inv, initializePlayer. cbn [heap emit set_players set_heap].
    apply Forall_app. split; [done|]. constructor; [apply P_new|constructor].
  - unfold handlePlayerUpdate. destruct (mapGet (players w) socketId); [|done].
    destruct (negb _); [done|]. apply heap_inv_mutate; [|done].
    intros p _. apply P_input.
  - by apply heap_inv_handlePlayerFire.
  - unfold handlePlayerReload. destruct (mapGet (players w) socketId) as [l|]; [|done].
    destruct (heap w !! l); [|done].
    destruct (_ || _ || _); [done|by apply heap_inv_startReload].
  - unfold handleDisconnect. destruct (mapGet (players w) socketId); [|done].
    unfold heap_inv. cbn [heap emit set_players].
    apply (fold_left_invariant (heap_inv P)); [|done].
    intros acc e Hacc. by destruct (String.eqb _ _).
  - apply (updateGameState_invariant (heap_inv P)).
    + apply checkBulletCollisions_invariant.
      { intros acc e Hacc. by apply heap_inv_scanPlayers. }
      unfold updateBullets. apply (fold_left_invariant (heap_inv P)); [|done].
      intros acc e Hacc. unfold heap_inv. by rewrite heap_updateBullet.
    + intros w3 Hw3. unfold cleanupInactivePlayers.
      apply (fold_left_invariant (heap_inv P)); [|done].
      intros acc e Hacc. destruct (heap acc !! e.2); [|done]. by destruct (_ <? _).
  - unfold sendClientUpdates. by destruct (_ =? _)%nat.
  - unfold cleanupLoop. apply (fold_left_invariant (heap_inv P)); [|done].
    intros acc e Hacc. by destruct (isExpired _ _).
  - unfold fireTimer. destruct (timers w !! i) as [t|]; [|done].
    destruct (kind t).
    + unfold reloadCallback. cbn [heap set_timers].
      destruct (heap w !! target t) as [p|] eqn:Hp; [|done].
      unfold heap_inv. cbn [heap emit].
      apply (heap_inv_mutate (target t) _ (set_timers (delete i (timers w)) w));
        [|done].
      intros _ _ _. apply P_reload. by apply (heap_inv_lookup w (target t)).
    + unfold respawnPlayer. cbn [heap set_timers].
      destruct (heap w !! target t) as [p|] eqn:Hp; [|done].
      unfold heap_inv. cbn [heap emit].
      apply (heap_inv_mutate (target t) _ (set_timers (delete i (timers w)) w));
        [|done].
      intros _ _ _. apply P_respawn. by apply (heap_inv_lookup w (target t)).
Qed.

Lemma heap_inv_reachable w : reachable w -> heap_inv P w.
Proof.
  induction 1 as [now|a w Hr IH]; [constructor|by apply heap_inv_step].
Qed.

End HeapInvariant.

(** X4: in every state the server can reach, every stored player has
    between 0 and 30 rounds in the magazine and between 0 and 120 in
    reserve, and kill and death counts that are not negative. *)
Theorem counters_within_bounds (w : World) (socketId : string) (l : loc)
    (p : Player.t) :
  reachable w ->
  mapGet (players w) socketId = Some l ->
  heap w !! l = Some p ->
  0 <= Player.ammo p <= 30 /\ 0 <= Player.totalAmmo p <= 120
  /\ 0 <= Player.kills p /\ 0 <= Player.deaths p.
Proof.
  intros Hr _ Hp.
  assert (Hinv : heap_inv counters_ok w).
  { apply heap_inv_reachable; [| | | | | | | | | |done];
      unfold counters_ok; intros; simpl in *; lia. }
  apply (heap_inv_lookup counters_ok w l p Hinv Hp).
Qed.

Lemma counters_within_bounds_witness :
  reachable (roundsFired 29)
  /\ mapGet (players (roundsFired 29)) "a" = Some 0%nat
  /\ (Player.ammo <$> heap (roundsFired 29) !! 0%nat) = Some 1
  /\ (forall p, heap (roundsFired 29) !! 0%nat = Some p ->
        0 <= Player.ammo p <= 30 /\ 0 <= Player.totalAmmo p <= 120
        /\ 0 <= Player.kills p /\ 0 <= Player.deaths p).
Proof.
  assert (Hr : reachable (roundsFired 29)) by (apply reachable_run; constructor).
  assert (Hl : mapGet (players (roundsFired 29)) "a" = Some 0%nat)
    by (vm_compute; reflexivity).
  split; [exact Hr|]. split; [exact Hl|]. split; [vm_compute; reflexivity|].
  intros p Hp. exact (counters_within_bounds _ "a" 0%nat p Hr Hl Hp).
Defined.

(** ** Completion of a reload *)

(** X5: the reload callback neither creates nor loses rounds: magazine
    plus reserve is the same before and after, and afterwards the
    magazine is full or the reserve is empty.  It clears the flag, leaves
    health and counters alone, writes to no other record and keeps both
    stores. *)
Theorem reloadCallback_conserves (l : loc) (w : World) (p : Player.t) :
  heap w !! l = Some p ->
  let w' := reloadCallback l w in
  (exists p',
      heap w' !! l = Some p'
      /\ Player.ammo p' + Player.totalAmmo p' = Player.ammo p + Player.totalAmmo p
      /\ (Player.ammo p' = 30 \/ Player.totalAmmo p' = 0)
      /\ Player.isReloading p' = false
      /\ Player.health p' = Player.health p
      /\ Player.kills p' = Player.kills p /\ Player.deaths p' = Player.deaths p)
  /\ (forall l', l' <> l -> heap w' !! l' = heap w !! l')
  /\ players w' = players w /\ bullets w' = bullets w /\ timers w' = timers w.
Proof.
  intros Hp w'. subst w'. unfold reloadCallback. rewrite Hp.
  cbn [heap players bullets timers emit]. split_and!; try done.
  - rewrite heap_mutate_eq, Hp. simpl. eexists. split; [reflexivity|]. simpl.
    split_and!; try done; lia.
  - intros l' Hne. by rewrite heap_mutate_ne.
Qed.

Lemma reloadCallback_conserves_witness :
  let w := handlePlayerFire "a" (mkFireData origin (mkVec3 1 0 0)) 3900 "x"
                            (roundsFired 29) in
  (Player.ammo <$> heap w !! 0%nat) = Some 0
  /\ (Player.totalAmmo <$> heap w !! 0%nat) = Some 120
  /\ (exists p', heap (reloadCallback 0 w) !! 0%nat = Some p'
                 /\ Player.ammo p' + Player.totalAmmo p' = 120).
Proof.
  intros w.
  destruct (heap w !! 0%nat) as [p|] eqn:Hp; [|vm_compute in Hp; discriminate Hp].
  assert (Ha : Player.ammo p = 0) by (vm_compute in Hp; by injection Hp as <-).
  assert (Ht : Player.totalAmmo p = 120) by (vm_compute in Hp; by injection Hp as <-).
  destruct (reloadCallback_conserves 0%nat w p Hp) as ((p' & Hp' & Hsum & _) & _).
  split; [simpl; by rewrite Ha|]. split; [simpl; by rewrite Ht|].
  exists p'. split; [exact Hp'|]. rewrite Hsum, Ha, Ht. reflexivity.
Defined.

(** ** Invariants of the two stores *)

Lemma store_ok_bullets_delete k w :
  store_ok w -> store_ok (set_bullets (mapDelete (bullets w) k) w).
Proof.
  intros (Hp & Hb & Hlen & Hwf). unfold store_ok. cbn [players bullets set_bullets].
  split_and!; [done|by apply NoDup_mapDelete| |by apply Forall_mapDelete].
  pose proof (length_mapDelete_le (bullets w) k). lia.
Qed.

Lemma store_ok_players_delete k w :
  store_ok w -> store_ok (set_players (mapDelete (players w) k) w).
Proof.
  intros (Hp & Hb & Hlen & Hwf). unfold store_ok. cbn [players bullets set_players].
  split_and!; try done. by apply NoDup_mapDelete.
Qed.

Lemma store_ok_same w w' :
  players w' = players w -> bullets w' = bullets w -> store_ok w -> store_ok w'.
Proof. unfold store_ok. by intros -> ->. Qed.

Lemma length_mapDelete_elem {V} (m : list (string * V)) k v :
  NoDup (mapKeys m) -> (k, v) ∈ m -> S (length (mapDelete m k)) = length m.
Proof.
  intros Hnd Hin. apply list_elem_of_split in Hin as (pre & post & ->).
  destruct (NoDup_keys_middle _ _ _ _ Hnd) as (Hn1 & Hn2 & _).
  rewrite mapDelete_middle by done. rewrite !length_app. simpl. lia.
Qed.

Lemma store_ok_limitBullets w :
  NoDup (mapKeys (players w)) -> NoDup (mapKeys (bullets w)) ->
  (length (bullets w) <= S MAX_BULLETS)%nat -> Forall bullet_wf (bullets w) ->
  store_ok (limitBullets w).
Proof.
  intros Hp Hb Hlen Hwf. unfold store_ok.
  rewrite players_limitBullets, bullets_limitBullets.
  destruct (Nat.ltb_spec MAX_BULLETS (length (bullets w))) as [Hgt|Hle];
    [|by split_and!].
  destruct (sortByCreatedAt_head (bullets w)) as (old & rest & pre & post & Hs & Hm & _).
  { intros Hnil. rewrite Hnil in Hgt. simpl in Hgt. lia. }
  rewrite Hs. destruct old as [ko bo].
  assert (Hin : (ko, bo) ∈ bullets w).
  { rewrite Hm. apply elem_of_app. right. left. }
  pose proof (length_mapDelete_elem _ _ _ Hb Hin). cbn [fst].
  split_and!; [done|by apply NoDup_mapDelete|lia|by apply Forall_mapDelete].
Qed.

Lemma stores_startReload l w :
  players (startReload l w) = players w /\ bullets (startReload l w) = bullets w.
Proof. done. Qed.

Lemma stores_reloadCallback l w :
  players (reloadCallback l w) = players w /\ bullets (reloadCallback l w) = bullets w.
Proof. unfold reloadCallback. by destruct (heap w !! l). Qed.

Lemma stores_respawnPlayer l r1 r2 w :
  players (respawnPlayer l r1 r2 w) = players w
  /\ bullets (respawnPlayer l r1 r2 w) = bullets w.
Proof. unfold respawnPlayer. by destruct (heap w !! l). Qed.

Lemma store_ok_scanPlayers bulletId bullet entries w :
  store_ok w -> store_ok (stateOf (scanPlayers bulletId bullet entries w)).
Proof.
  intros Hw. apply scanPlayers_invariant; [done|]. intros e player _ _ _ _.
  apply store_ok_bullets_delete.
  destruct (stores_handlePlayerHit bullet e.2 w) as [Hp Hb].
  by apply (store_ok_same w).
Qed.

Lemma rewritten_keys_sublist {V} (f : V -> V) (keep : V -> bool)
    (m : list (string * V)) :
  mapKeys (rewritten f keep m) `sublist_of` mapKeys m.
Proof.
  induction m as [|[k v] m IH]; [done|].
  rewrite rewritten_cons. unfold mapKeys in *. rewrite fmap_cons.
  destruct (keep (f v)).
  - rewrite fmap_cons. by apply sublist_skip.
  - by apply sublist_cons.
Qed.

Lemma Forall_rewritten {V} (P : string * V -> Prop) (f : V -> V) (keep : V -> bool)
    (m : list (string * V)) :
  (forall k v, P (k, v) -> P (k, f v)) ->
  Forall P m -> Forall P (rewritten f keep m).
Proof.
  intros Hf Hm. induction Hm as [|[k v] m Hx Hm IH]; [constructor|].
  rewrite rewritten_cons. destruct (keep (f v)); [|done].
  constructor; [by apply Hf|done].
Qed.

Lemma players_updateBullets now w : players (updateBullets now w) = players w.
Proof.
  unfold updateBullets.
  apply (fold_left_invariant (fun acc => players acc = players w)); [|done].
  intros acc e Hacc. unfold updateBullet. by destruct (isExpired _ _).
Qed.

Lemma store_ok_updateBullets now w : store_ok w -> store_ok (updateBullets now w).
Proof.
  intros (Hp & Hb & Hlen & Hwf). unfold store_ok.
  rewrite players_updateBullets, updateBullets_bullets by done.
  pose proof (rewritten_keys_sublist (moveBullet 0.016)
                (fun b => negb (isExpired now b)) (bullets w)) as Hsub.
  split_and!; [done|by apply (sublist_NoDup _ _ Hb Hsub)| |].
  - apply sublist_length in Hsub. unfold mapKeys in Hsub.
    rewrite !length_fmap in Hsub. lia.
  - apply Forall_rewritten; [|done]. by intros k v.
Qed.

Lemma store_ok_step a w : store_ok w -> store_ok (step a w).
Proof.
  intros Hw. pose proof Hw as (Hp & Hb & Hlen & Hwf). destruct a; simpl.
  - unfold store_ok, initializePlayer. cbn [players bullets emit set_players set_heap].
    split_and!; try done. by apply NoDup_mapSet.
  - destruct (handlePlayerUpdate_frame socketId data now w) as (Hpl & Hbl & _).
    by apply (store_ok_same w).
  - unfold handlePlayerFire.
    destruct (mapGet (players w) socketId) as [l|]; [|done].
    destruct (heap w !! l) as [player|]; [|done].
    destruct (_ || _ || _); [done|].
    set (player1 := if noLastFireTime player then _ else player).
    destruct (_ <? 100); [by apply (store_ok_same w)|].
    match goal with
    | |- store_ok (emit _ _ (limitBullets (set_bullets (mapSet (bullets ?w3) ?k ?b) ?w3))) =>
        assert (H3 : players w3 = players w /\ bullets w3 = bullets w)
          by (by destruct (_ && _));
        destruct H3 as [Hp3 Hb3];
        apply (store_ok_same (limitBullets (set_bullets (mapSet (bullets w3) k b) w3)));
          [done|done|];
        apply store_ok_limitBullets; cbn [players bullets set_bullets];
          rewrite ?Hp3, ?Hb3
    end.
    + done.
    + by apply NoDup_mapSet.
    + rewrite length_mapSet. destruct (mapGet (bullets w) _); lia.
    + apply Forall_mapSet; [done|]. by repeat split.
  - unfold handlePlayerReload. destruct (mapGet (players w) socketId) as [l|]; [|done].
    destruct (heap w !! l); [|done]. by destruct (_ || _ || _).
  - unfold handleDisconnect. destruct (mapGet (players w) socketId); [|done].
    apply (store_ok_same
             (set_players
                (mapDelete
                   (players
                      (fold_left
                         (fun (acc : World) (entry : string * Bullet.t) =>
                            if String.eqb (Bullet.playerId entry.2) socketId
                            then set_bullets (mapDelete (bullets acc) entry.1) acc
                            else acc) (bullets w) w)) socketId)
                (fold_left
                   (fun (acc : World) (entry : string * Bullet.t) =>
                      if String.eqb (Bullet.playerId entry.2) socketId
                      then set_bullets (mapDelete (bullets acc) entry.1) acc
                      else acc) (bullets w) w))); [done|done|].
    apply store_ok_players_delete.
    apply (fold_left_invariant store_ok); [|done].
    intros acc e Hacc. destruct (String.eqb _ _); [|done].
    by apply store_ok_bullets_delete.
  - apply (updateGameState_invariant store_ok).
    + apply checkBulletCollisions_invariant.
      { intros acc e Hacc. by apply store_ok_scanPlayers. }
      apply store_ok_updateBullets. by apply (store_ok_same w).
    + intros w3 Hw3. unfold cleanupInactivePlayers.
      apply (fold_left_invariant store_ok); [|done].
      intros acc e Hacc. destruct (heap acc !! e.2); [|done].
      destruct (_ <? _); [|done].
      apply (store_ok_same (set_players (mapDelete (players acc) e.1) acc));
        [done|done|]. by apply store_ok_players_delete.
  - unfold sendClientUpdates. destruct (_ =? _)%nat; [done|].
    by apply (store_ok_same w).
  - unfold cleanupLoop. apply (fold_left_invariant store_ok); [|done].
    intros acc e Hacc. destruct (isExpired _ _); [|done].
    by apply store_ok_bullets_delete.
  - unfold fireTimer. destruct (timers w !! i) as [t|]; [|done].
    destruct (kind t).
    + destruct (stores_reloadCallback (target t) (set_timers (delete i (timers w)) w))
        as [Hp' Hb'].
      by apply (store_ok_same w).
    + destruct (stores_respawnPlayer (target t) r1 r2
                  (set_timers (delete i (timers w)) w)) as [Hp' Hb'].
      by apply (store_ok_same w).
Qed.

Lemma store_ok_reachable w : reachable w -> store_ok w.
Proof.
  induction 1 as [now|a w Hr IH]; [|by apply store_ok_step].
  unfold store_ok. cbn. split_and!; try constructor. lia.
Qed.

(** X6: in every state the server can reach the projectile store holds at
    most 500 projectiles, neither store has a key twice, and every stored
    projectile is filed under its own identifier with speed 50, damage 25
    and lifetime 3000. *)
Theorem stores_within_capacity (w : World) :
  reachable w ->
  (length (bullets w) <= 500)%nat
  /\ NoDup (mapKeys (bullets w)) /\ NoDup (mapKeys (players w))
  /\ (forall k b, mapGet (bullets w) k = Some b ->
        Bullet.id b = k /\ Bullet.speed b = 50%float /\ Bullet.damage b = 25
        /\ Bullet.lifetime b = 3000).
Proof.
  intros Hr. destruct (store_ok_reachable w Hr) as (Hp & Hb & Hlen & Hwf).
  split_and!; try done. intros k b Hg.
  apply mapGet_Some_elem_of in Hg.
  by apply (proj1 (Forall_forall _ _) Hwf (k, b)).
Qed.

Lemma stores_within_capacity_witness :
  reachable twoPlayers
  /\ (length (bullets twoPlayers) <= 500)%nat
  /\ NoDup (mapKeys (bullets twoPlayers))
  /\ mapKeys (bullets twoPlayers) = ["a_1000_0.5"; "b_1000_0.25"]%string.
Proof.
  assert (Hr : reachable twoPlayers) by (apply reachable_run; constructor).
  destruct (stores_within_capacity twoPlayers Hr) as (Hlen & Hnd & _).
  split; [exact Hr|]. split; [exact Hlen|]. split; [exact Hnd|].
  vm_compute. reflexivity.
Defined.

(** ** Sweeps *)

Lemma NoDup_keys_filter {V} (f : string * V -> bool) (m : list (string * V)) :
  NoDup (mapKeys m) -> NoDup (mapKeys (List.filter f m)).
Proof.
  unfold mapKeys. induction m as [|e m IH]; simpl; [done|].
  intros Hnd. apply NoDup_cons in Hnd as [Hn Hnd].
  destruct (f e); [|by apply IH]. rewrite fmap_cons. apply NoDup_cons.
  split; [|by apply IH]. intros Hin. apply Hn.
  apply list_elem_of_fmap in Hin as (e' & -> & He').
  apply list_elem_of_In, filter_In in He' as [He' _].
  apply list_elem_of_fmap. exists e'. split; [done|]. by apply list_elem_of_In.
Qed.

Lemma filter_filter_same {A} (f : A -> bool) (l : list A) :
  List.filter f (List.filter f l) = List.filter f l.
Proof.
  induction l as [|x l IH]; simpl; [done|].
  destruct (f x) eqn:Hx; simpl; [|done]. by rewrite Hx, IH.
Qed.

Lemma cleanupLoop_eq now w :
  NoDup (mapKeys (bullets w)) ->
  cleanupLoop now w
  = set_bullets (List.filter (fun e => negb (isExpired now e.2)) (bullets w)) w.
Proof.
  intros Hnd. unfold cleanupLoop.
  by rewrite (delete_loop (fun e => isExpired now e.2) (bullets w) []).
Qed.

(** X7: the five-second sweep removes exactly the projectiles past their
    lifetime, keeps the others in order, touches nothing else and
    publishes nothing; running it again at the same time changes
    nothing. *)
Theorem cleanupLoop_sweeps (now : Z) (w : World) :
  NoDup (mapKeys (bullets w)) ->
  let w' := cleanupLoop now w in
  w' = set_bullets (List.filter (fun e => negb (isExpired now e.2)) (bullets w)) w
  /\ (forall e, e ∈ bullets w' <->
                e ∈ bullets w /\ now - Bullet.createdAt e.2 <= Bullet.lifetime e.2)
  /\ outbox w' = outbox w /\ heap w' = heap w /\ players w' = players w
  /\ cleanupLoop now w' = w'.
Proof.
  intros Hnd w'. subst w'. rewrite (cleanupLoop_eq _ _ Hnd).
  split; [done|]. cbn [bullets outbox heap players set_bullets]. split_and!; try done.
  - intros e. rewrite list_elem_of_In, filter_In, <- list_elem_of_In.
    unfold isExpired. destruct (Z.ltb_spec (Bullet.lifetime e.2)
                                           (now - Bullet.createdAt e.2)); simpl.
    + split; [by intros [_ ?]|intros [_ ?]; lia].
    + split; [by intros [? _]|by intros [? _]].
  - rewrite cleanupLoop_eq; cbn [bullets set_bullets].
    + by rewrite filter_filter_same.
    + by apply NoDup_keys_filter.
Qed.

Lemma cleanupLoop_sweeps_witness :
  NoDup (mapKeys (bullets twoPlayers))
  /\ bullets (cleanupLoop 4000 twoPlayers) = bullets twoPlayers
  /\ bullets (cleanupLoop 4001 twoPlayers) = []
  /\ cleanupLoop 4001 (cleanupLoop 4001 twoPlayers) = cleanupLoop 4001 twoPlayers.
Proof.
  assert (Hnd : NoDup (mapKeys (bullets twoPlayers))).
  { vm_compute. apply NoDup_cons. split; [|apply NoDup_singleton].
    intros H. apply list_elem_of_singleton in H. discriminate H. }
  destruct (cleanupLoop_sweeps 4001 twoPlayers Hnd) as (_ & _ & _ & _ & _ & Hidem).
  split; [exact Hnd|]. split; [vm_compute; reflexivity|].
  split; [vm_compute; reflexivity|exact Hidem].
Defined.

(** ** Expiry during the tick *)

Lemma updateBullet_rest now w e :
  outbox (updateBullet now w e)
  = outbox w ++ (if isExpired now e.2 then [(ToAll, BulletExpired e.1)] else [])
  /\ heap (updateBullet now w e) = heap w
  /\ players (updateBullet now w e) = players w
  /\ timers (updateBullet now w e) = timers w
  /\ tick (updateBullet now w e) = tick w.
Proof.
  unfold updateBullet. rewrite isExpired_moveBullet.
  destruct (isExpired now e.2); cbn; [done|]. by rewrite app_nil_r.
Qed.

Lemma updateBullets_rest now todo : forall w,
  let w' := fold_left (updateBullet now) todo w in
  outbox w'
  = outbox w
    ++ map (fun e : string * Bullet.t => (ToAll, BulletExpired e.1))
           (List.filter (fun e => isExpired now e.2) todo)
  /\ heap w' = heap w /\ players w' = players w /\ timers w' = timers w
  /\ tick w' = tick w.
Proof.
  induction todo as [|e todo IH]; intros w; simpl.
  - by rewrite app_nil_r.
  - destruct (IH (updateBullet now w e)) as (Ho & Hh & Hp & Ht & Hk).
    destruct (updateBullet_rest now w e) as (Ho1 & Hh1 & Hp1 & Ht1 & Hk1).
    rewrite Ho, Hh, Hp, Ht, Hk, Ho1, Hh1, Hp1, Ht1, Hk1.
    split_and!; try done. rewrite <- app_assoc.
    by destruct (isExpired now e.2).
Qed.

(** X8: the per-tick projectile update publishes one [bullet-expired] to
    all peers for each projectile past its lifetime, in store order, and
    nothing else; afterwards the store holds no projectile past its
    lifetime, so a projectile whose age equals its lifetime is kept.  No
    player record, store entry of a player or timer is touched. *)
Theorem updateBullets_expiry (now : Z) (w : World) :
  NoDup (mapKeys (bullets w)) ->
  let w' := updateBullets now w in
  outbox w'
  = outbox w
    ++ map (fun e : string * Bullet.t => (ToAll, BulletExpired e.1))
           (List.filter (fun e => Bullet.lifetime e.2 <? now - Bullet.createdAt e.2)
                        (bullets w))
  /\ (forall k b, mapGet (bullets w') k = Some b ->
        now - Bullet.createdAt b <= Bullet.lifetime b)
  /\ (forall k b, mapGet (bullets w) k = Some b ->
        now - Bullet.createdAt b <= Bullet.lifetime b ->
        exists b', mapGet (bullets w') k = Some b')
  /\ heap w' = heap w /\ players w' = players w /\ timers w' = timers w.
Proof.
  intros Hnd w'. subst w'.
  destruct (updateBullets_rest now (bullets w) w) as (Ho & Hh & Hp & Ht & _).
  split; [exact Ho|]. split; [|split; [|done]].
  - intros k b Hg. destruct (mapGet (bullets w) k) as [b0|] eqn:Hg0.
    + apply mapGet_Some_elem_of in Hg0.
      rewrite (updateBullets_advances now w k b0 Hnd Hg0) in Hg.
      unfold isExpired in Hg.
      destruct (Z.ltb_spec (Bullet.lifetime b0) (now - Bullet.createdAt b0)); [done|].
      injection Hg as <-. simpl. lia.
    + rewrite updateBullets_bullets in Hg by done.
      by rewrite mapGet_rewritten_None in Hg.
  - intros k b Hg Hage. apply mapGet_Some_elem_of in Hg.
    rewrite (updateBullets_advances now w k b Hnd Hg). unfold isExpired.
    destruct (Z.ltb_spec (Bullet.lifetime b) (now - Bullet.createdAt b)); [lia|].
    by eexists.
Qed.

Lemma updateBullets_expiry_witness :
  NoDup (mapKeys (bullets twoPlayers))
  /\ outbox (updateBullets 4000 twoPlayers) = outbox twoPlayers
  /\ mapKeys (bullets (updateBullets 4000 twoPlayers))
     = ["a_1000_0.5"; "b_1000_0.25"]%string
  /\ outbox (updateBullets 4001 twoPlayers)
     = outbox twoPlayers
       ++ [(ToAll, BulletExpired "a_1000_0.5"); (ToAll, BulletExpired "b_1000_0.25")].
Proof.
  assert (Hnd : NoDup (mapKeys (bullets twoPlayers))).
  { vm_compute. apply NoDup_cons. split; [|apply NoDup_singleton].
    intros H. apply list_elem_of_singleton in H. discriminate H. }
  destruct (updateBullets_expiry 4001 twoPlayers Hnd) as (Ho & _).
  split; [exact Hnd|]. split; [vm_compute; reflexivity|].
  split; [vm_compute; reflexivity|]. rewrite Ho. vm_compute. reflexivity.
Defined.

(** ** Inactive players *)

Lemma cleanupInactivePlayers_loop now todo : forall seen w,
  players w = seen ++ todo ->
  NoDup (mapKeys (seen ++ todo)) ->
  let w' :=
    fold_left
      (fun (acc : World) (entry : string * loc) =>
         match heap acc !! entry.2 with
         | None => acc
         | Some player =>
             if 60000 <? now - Player.lastUpdate player
             then emit ToAll (PlayerLeft entry.1)
                       (set_players (mapDelete (players acc) entry.1) acc)
             else acc
         end)
      todo w in
  players w'
  = seen ++ List.filter (fun e => negb (isInactive now (heap w) e)) todo
  /\ outbox w'
     = outbox w
       ++ map (fun e : string * loc => (ToAll, PlayerLeft e.1))
              (List.filter (isInactive now (heap w)) todo)
  /\ heap w' = heap w /\ bullets w' = bullets w /\ timers w' = timers w.
Proof.
  induction todo as [|[k l] todo IH]; intros seen w Hw Hnd.
  - simpl. by rewrite Hw, !app_nil_r.
  - destruct (NoDup_keys_middle _ _ _ _ Hnd) as (Hn1 & Hn2 & Hnd1 & Hnd2).
    cbn [fold_left List.filter fst snd].
    destruct (isInactive now (heap w) (k, l)) eqn:Hin; cbn [negb map].
    + unfold isInactive in Hin. cbn [snd] in Hin.
      destruct (heap w !! l) as [player|]; [|done]. rewrite Hin.
      destruct (IH seen
                  (emit ToAll (PlayerLeft k)
                     (set_players (mapDelete (players w) k) w)))
        as (Hp & Ho & Hh & Hb & Ht).
      { cbn [players emit set_players]. by rewrite Hw, mapDelete_middle. }
      { done. }
      rewrite Hp, Ho, Hh, Hb, Ht. cbn [heap outbox bullets timers emit set_players].
      by rewrite <- app_assoc.
    + assert (Hstep : match heap w !! l with
                      | Some player =>
                          if 60000 <? now - Player.lastUpdate player
                          then emit ToAll (PlayerLeft k)
                                    (set_players (mapDelete (players w) k) w)
                          else w
                      | None => w
                      end = w).
      { unfold isInactive in Hin. cbn [snd] in Hin.
        destruct (heap w !! l) as [player|]; [|done]. by rewrite Hin. }
      rewrite Hstep.
      destruct (IH (seen ++ [(k, l)]) w) as (Hp & Ho & Hh & Hb & Ht).
      { by rewrite <- app_assoc. }
      { apply Hnd2. }
      rewrite Hp, Ho, Hh, Hb, Ht. by rewrite <- app_assoc.
Qed.

(** X9: the inactivity sweep removes from the player store exactly the
    entries whose record has had no update for more than 60000 ms and
    publishes one [player-left] to all peers for each, in store order.
    The records themselves, the pending timers and the projectile store
    stay as they are: the projectiles of a removed player are not
    deleted. *)
Theorem cleanupInactivePlayers_removes (now : Z) (w : World) :
  NoDup (mapKeys (players w)) ->
  let w' := cleanupInactivePlayers now w in
  players w' = List.filter (fun e => negb (isInactive now (heap w) e)) (players w)
  /\ outbox w'
     = outbox w
       ++ map (fun e : string * loc => (ToAll, PlayerLeft e.1))
              (List.filter (isInactive now (heap w)) (players w))
  /\ heap w' = heap w /\ bullets w' = bullets w /\ timers w' = timers w.
Proof.
  intros Hnd. apply (cleanupInactivePlayers_loop now (players w) [] w); done.
Qed.

Lemma cleanupInactivePlayers_removes_witness :
  NoDup (mapKeys (players twoPlayers))
  /\ players (cleanupInactivePlayers 60000 twoPlayers) = players twoPlayers
  /\ players (cleanupInactivePlayers 60001 twoPlayers) = []
  /\ bullets (cleanupInactivePlayers 60001 twoPlayers) = bullets twoPlayers.
Proof.
  assert (Hnd : NoDup (mapKeys (players twoPlayers))).
  { vm_compute. apply NoDup_cons. split; [|apply NoDup_singleton].
    intros H. apply list_elem_of_singleton in H. discriminate H. }
  destruct (cleanupInactivePlayers_removes 60001 twoPlayers Hnd) as (_ & _ & _ & Hb & _).
  split; [exact Hnd|]. split; [vm_compute; reflexivity|].
  split; [vm_compute; reflexivity|exact Hb].
Defined.

(** ** Joining *)

Lemma elem_of_mapSet {V} (m : list (string * V)) k v e :
  e ∈ mapSet m k v -> e ∈ m \/ e = (k, v).
Proof.
  induction m as [|[k' v'] m IH]; simpl.
  - intros H. apply list_elem_of_singleton in H. by right.
  - destruct (String.eqb k' k).
    + intros H. apply elem_of_cons in H as [->|H]; [by right|]. left. by right.
    + intros H. apply elem_of_cons in H as [->|H]; [left; left|].
      destruct (IH H) as [?|?]; [left; by right|by right].
Qed.

Lemma elem_of_mapDelete {V} (m : list (string * V)) k e :
  e ∈ mapDelete m k -> e ∈ m.
Proof.
  rewrite mapDelete_filter, !list_elem_of_In, filter_In. by intros [? _].
Qed.

(** X10: a connection files a fresh record under the socket identifier:
    full health, 30 rounds, 120 in reserve, no kills or deaths, at the
    spawn point.  Looking the identifier up afterwards gives that record.
    Every record that existed and every other entry of the player store
    is untouched, as are projectiles and timers.  [game-init] goes to the
    new socket with a player list that contains the new record, and
    [player-joined] to the others. *)
Theorem initializePlayer_joins (socketId : string) (now : Z) (w : World) :
  let w' := initializePlayer socketId now w in
  let l := length (heap w) in
  exists p,
    mapGet (players w') socketId = Some l
    /\ heap w' !! l = Some p
    /\ Player.id p = socketId /\ Player.health p = 100 /\ Player.maxHealth p = 100
    /\ Player.ammo p = 30 /\ Player.totalAmmo p = 120
    /\ Player.isReloading p = false /\ Player.kills p = 0 /\ Player.deaths p = 0
    /\ Player.lastUpdate p = now /\ Player.position p = JS.point 0 1.8 0
    /\ (forall l' q, heap w !! l' = Some q -> heap w' !! l' = Some q)
    /\ (forall other, other <> socketId ->
          mapGet (players w') other = mapGet (players w) other)
    /\ bullets w' = bullets w /\ timers w' = timers w /\ tick w' = tick w
    /\ outbox w'
       = outbox w
         ++ [(ToSocket socketId,
              GameInit socketId (playerValues w') (tick w) (lastUpdate w));
             (ToOthers socketId, PlayerJoined p)]
    /\ p ∈ playerValues w'.
Proof.
  intros w' l. subst w' l. unfold initializePlayer.
  cbn [players heap bullets timers tick outbox emit set_players set_heap].
  eexists. split; [apply mapGet_mapSet_eq|].
  split; [by rewrite lookup_app_r, Nat.sub_diag|].
  split_and!; try done.
  - intros l' q Hq. by apply lookup_app_l_Some.
  - intros other Hne. by apply mapGet_mapSet_ne.
  - by rewrite <- app_assoc.
  - unfold playerValues. cbn [players heap emit set_players set_heap].
    apply list_elem_of_omap. exists (socketId, length (heap w)).
    split; [apply mapGet_Some_elem_of, mapGet_mapSet_eq|].
    cbn [snd]. by rewrite lookup_app_r, Nat.sub_diag.
Qed.

(** X11: a player that joins and leaves at once leaves both stores as
    they were, provided the identifier was not in use and no stored
    projectile carries it; only the three notifications and a detached
    record remain. *)
Theorem join_then_leave (socketId : string) (now : Z) (w : World) :
  mapGet (players w) socketId = None ->
  NoDup (mapKeys (bullets w)) ->
  (forall e, e ∈ bullets w -> Bullet.playerId e.2 <> socketId) ->
  let w' := handleDisconnect socketId (initializePlayer socketId now w) in
  players w' = players w /\ bullets w' = bullets w /\ timers w' = timers w
  /\ length (outbox w') = (length (outbox w) + 3)%nat
  /\ last (outbox w') = Some (ToOthers socketId, PlayerLeft socketId).
Proof.
  intros Hfresh Hnd Hown w'. subst w'.
  set (w1 := initializePlayer socketId now w).
  assert (Hl : mapGet (players w1) socketId = Some (length (heap w))).
  { subst w1. unfold initializePlayer. cbn [players emit set_players].
    apply mapGet_mapSet_eq. }
  rewrite (handleDisconnect_eq socketId w1 _ Hl) by done.
  cbn [players bullets timers outbox emit set_players set_bullets].
  subst w1. unfold initializePlayer.
  cbn [players bullets timers outbox emit set_players set_heap].
  split_and!; try done.
  - apply mapGet_None in Hfresh. rewrite mapSet_notin by done.
    rewrite mapDelete_middle; [apply app_nil_r|done|apply not_elem_of_nil].
  - induction (bullets w) as [|e m IH]; [done|]. simpl.
    assert (He : Bullet.playerId e.2 <> socketId) by (apply Hown; left).
    destruct (String.eqb_spec (Bullet.playerId e.2) socketId); [done|]. simpl.
    f_equal. apply IH.
    + unfold mapKeys in Hnd. rewrite fmap_cons in Hnd. by apply NoDup_cons in Hnd as [_ ?].
    + intros e' He'. apply Hown. by right.
  - rewrite !length_app. simpl. lia.
  - by rewrite last_snoc.
Qed.

Lemma join_then_leave_witness :
  let w := oneShotFired in
  mapGet (players w) "c" = None
  /\ NoDup (mapKeys (bullets w))
  /\ players (handleDisconnect "c" (initializePlayer "c" 5 w)) = players w
  /\ bullets (handleDisconnect "c" (initializePlayer "c" 5 w)) = bullets w.
Proof.
  intros w.
  assert (Hfresh : mapGet (players w) "c" = None) by (vm_compute; reflexivity).
  assert (Hnd : NoDup (mapKeys (bullets w))) by (vm_compute; apply NoDup_singleton).
  assert (Hown : forall e, e ∈ bullets w -> Bullet.playerId e.2 <> "c"%string).
  { intros e He. vm_compute in He. apply list_elem_of_singleton in He. by subst e. }
  destruct (join_then_leave "c" 5 w Hfresh Hnd Hown) as (Hp & Hb & _).
  split; [exact Hfresh|]. split; [exact Hnd|]. split; [exact Hp|exact Hb].
Defined.

(** ** Resolution of a hit *)

(** X12: with the shooter [q] still stored, a hit takes the projectile's
    damage off the victim [p] and publishes [player-hit] with the new
    health.  If that health is above zero nothing else happens.
    Otherwise the victim gets one more death and the shooter one more
    kill, [player-killed] follows [player-hit], and one respawn timer of
    3000 ms is scheduled for the victim.  No third record, store or
    pending timer changes. *)
Theorem handlePlayerHit_accounting (bullet : Bullet.t) (hit shooter : loc)
    (w : World) (p q : Player.t) :
  mapGet (players w) (Bullet.playerId bullet) = Some shooter ->
  heap w !! hit = Some p ->
  heap w !! shooter = Some q ->
  hit <> shooter ->
  let w' := handlePlayerHit bullet hit w in
  let newHealth := Player.health p - Bullet.damage bullet in
  let notice := (ToAll, PlayerHit (Player.id p) (Player.id q) (Bullet.damage bullet)
                                  newHealth (Bullet.id bullet)) in
  (forall l, l <> hit -> l <> shooter -> heap w' !! l = heap w !! l)
  /\ players w' = players w /\ bullets w' = bullets w
  /\ if newHealth <=? 0 then
       heap w' !! hit
       = Some (Player.set_deaths (Player.deaths p + 1) (Player.set_health newHealth p))
       /\ heap w' !! shooter = Some (Player.set_kills (Player.kills q + 1) q)
       /\ timers w' = timers w ++ [mkTimer RespawnTimer hit 3000]
       /\ outbox w'
          = outbox w
            ++ [notice;
                (ToAll, PlayerKilled (Player.id p) (Player.id q) (Player.name q)
                                     (Player.name p))]
     else
       heap w' !! hit = Some (Player.set_health newHealth p)
       /\ heap w' !! shooter = Some q
       /\ timers w' = timers w
       /\ outbox w' = outbox w ++ [notice].
Proof.
  intros Hs Hp Hq Hne w' newHealth notice. subst w' notice.
  destruct (stores_handlePlayerHit bullet hit w) as [Hpl Hbl].
  unfold handlePlayerHit in *. rewrite Hs in *.
  set (w1 := mutate hit _ w) in *.
  assert (H1 : heap w1 !! hit = Some (Player.set_health newHealth p)).
  { subst w1. by rewrite heap_mutate_eq, Hp. }
  assert (H2 : heap w1 !! shooter = Some q).
  { subst w1. by rewrite heap_mutate_ne, Hq. }
  assert (H3 : forall l, l <> hit -> heap w1 !! l = heap w !! l).
  { intros l Hl. subst w1. by rewrite heap_mutate_ne. }
  rewrite H1, H2 in *. cbn [Player.health Player.set_health Player.id Player.name] in *.
  fold newHealth.
  destruct (newHealth <=? 0).
  - split; [|split; [done|split; [done|]]].
    + intros l Hl1 Hl2. unfold schedule. cbn [heap set_timers emit].
      rewrite !heap_mutate_ne by done. cbn [heap emit]. by apply H3.
    + unfold schedule. cbn [heap timers outbox set_timers emit].
      split_and!.
      * rewrite heap_mutate_ne by done. rewrite heap_mutate_eq. cbn [heap emit].
        by rewrite H1.
      * rewrite heap_mutate_eq, heap_mutate_ne by done. cbn [heap emit].
        by rewrite H2.
      * done.
      * subst w1. unfold mutate. cbn [outbox set_heap emit]. by rewrite <- app_assoc.
  - split; [|split; [done|split; [done|]]].
    + intros l Hl1 Hl2. cbn [heap emit]. by apply H3.
    + cbn [heap timers outbox emit]. by split_and!.
Qed.

Lemma handlePlayerHit_accounting_witness :
  let bullet := firedBullet "a" (mkFireData spawnPoint origin) 1000 "1" in
  let w' := handlePlayerHit bullet 1 threePlayers in
  mapGet (players threePlayers) (Bullet.playerId bullet) = Some 0%nat
  /\ (Player.health <$> heap w' !! 1%nat) = Some 75
  /\ (Player.kills <$> heap w' !! 0%nat) = Some 0
  /\ timers w' = timers threePlayers
  /\ heap w' !! 2%nat = heap threePlayers !! 2%nat.
Proof.
  intros bullet w'.
  assert (Hs : mapGet (players threePlayers) (Bullet.playerId bullet) = Some 0%nat)
    by (vm_compute; reflexivity).
  destruct (heap threePlayers !! 1%nat) as [p|] eqn:Hp;
    [|vm_compute in Hp; discriminate Hp].
  destruct (heap threePlayers !! 0%nat) as [q|] eqn:Hq;
    [|vm_compute in Hq; discriminate Hq].
  assert (Hne : 1%nat <> 0%nat) by discriminate.
  destruct (handlePlayerHit_accounting bullet 1 0 threePlayers p q Hs Hp Hq Hne)
    as (Hother & _ & _ & _).
  split; [exact Hs|]. split; [vm_compute; reflexivity|].
  split; [vm_compute; reflexivity|]. split; [vm_compute; reflexivity|].
  apply Hother; discriminate.
Defined.

(** ** The tick counter *)

Lemma tick_handlePlayerHit bullet hit w : tick (handlePlayerHit bullet hit w) = tick w.
Proof.
  unfold handlePlayerHit. destruct (mapGet _ _) as [shooter|]; [|done].
  set (w1 := mutate hit _ w).
  destruct (heap w1 !! hit); [|done]. destruct (heap w1 !! shooter); [|done].
  by destruct (_ <=? 0).
Qed.

Lemma tick_scanPlayers bulletId bullet entries w :
  tick (stateOf (scanPlayers bulletId bullet entries w)) = tick w.
Proof.
  apply (scanPlayers_invariant (fun w' => tick w' = tick w)); [done|].
  intros e player _ _ _ _. cbn [tick set_bullets]. apply tick_handlePlayerHit.
Qed.

Lemma tick_step a w :
  tick (step a w) = match a with GameTick _ => tick w + 1 | _ => tick w end.
Proof.
  destruct a; simpl.
  - done.
  - by destruct (handlePlayerUpdate_frame socketId data now w) as (_ & _ & _ & _ & ? & _).
  - unfold handlePlayerFire. destruct (mapGet _ _) as [l|]; [|done].
    destruct (heap w !! l); [|done]. destruct (_ || _ || _); [done|].
    destruct (_ <? 100); [done|]. cbn [tick emit].
    unfold limitBullets. destruct (_ <? _)%nat.
    + destruct (sortByCreatedAt _); by destruct (_ && _).
    + by destruct (_ && _).
  - unfold handlePlayerReload. destruct (mapGet _ _) as [l|]; [|done].
    destruct (heap w !! l); [|done]. by destruct (_ || _ || _).
  - unfold handleDisconnect. destruct (mapGet _ _); [|done]. cbn [tick emit set_players].
    apply (fold_left_invariant (fun acc => tick acc = tick w)); [|done].
    intros acc e Hacc. by destruct (String.eqb _ _).
  - apply (updateGameState_invariant (fun acc => tick acc = tick w + 1)).
    + apply (checkBulletCollisions_invariant (fun acc => tick acc = tick w + 1)).
      { intros acc e Hacc. by rewrite tick_scanPlayers. }
      unfold updateBullets.
      destruct (updateBullets_rest now (bullets (set_clock (tick w + 1) now w))
                  (set_clock (tick w + 1) now w)) as (_ & _ & _ & _ & Hk).
      by rewrite Hk.
    + intros w3 Hw3. unfold cleanupInactivePlayers.
      apply (fold_left_invariant (fun acc => tick acc = tick w + 1)); [|done].
      intros acc e Hacc. destruct (heap acc !! e.2); [|done]. by destruct (_ <? _).
  - unfold sendClientUpdates. by destruct (_ =? _)%nat.
  - unfold cleanupLoop.
    apply (fold_left_invariant (fun acc => tick acc = tick w)); [|done].
    intros acc e Hacc. by destruct (isExpired _ _).
  - unfold fireTimer. destruct (timers w !! i) as [t|]; [|done].
    destruct (kind t).
    + unfold reloadCallback. cbn [heap set_timers]. by destruct (heap w !! target t).
    + unfold respawnPlayer. cbn [heap set_timers]. by destruct (heap w !! target t).
Qed.

(** X13: the tick counter counts the simulation ticks and nothing else:
    after any run of handlers, ticks and timers it has grown by the
    number of simulation ticks in the run, so it never decreases and no
    peer input moves it. *)
Theorem tick_counts_ticks (actions : list Action) (w : World) :
  tick (run actions w) = tick w + Z.of_nat (countTicks actions).
Proof.
  revert w. induction actions as [|a actions IH]; intros w.
  - unfold countTicks. simpl. lia.
  - change (run (a :: actions) w) with (run actions (step a w)).
    rewrite IH, tick_step. unfold countTicks.
    destruct a; cbn [List.filter length]; lia.
Qed.

(** ** What validation does not look at *)

(** X14: validation reads [x] and [z] only: a field of any other name,
    such as [y], is accepted whatever its value. *)
Theorem isValidPosition_other_field (k : string) (v : JSVal)
    (fields : list (string * JSVal)) :
  k <> "x"%string -> k <> "z"%string ->
  isValidPosition (VObject ((k, v) :: fields)) = isValidPosition (VObject fields).
Proof.
  intros Hx Hz. unfold isValidPosition. cbn [JS.truthy JS.get JS.lookupField].
  destruct (String.eqb_spec k "x"); [done|].
  by destruct (String.eqb_spec k "z").
Qed.

Lemma isValidPosition_other_field_witness :
  isValidPosition (VObject [("y"%string, VString "up"); ("x"%string, VNumber 1);
                            ("z"%string, VNumber 2)])
  = isValidPosition (VObject [("x"%string, VNumber 1); ("z"%string, VNumber 2)])
  /\ isValidPosition (VObject [("x"%string, VNumber 1); ("z"%string, VNumber 2)]) = true.
Proof.
  split; [|vm_compute; reflexivity].
  apply (isValidPosition_other_field "y" (VString "up")); discriminate.
Defined.

(** ** References between the stores, the timers and the records *)

Lemma refs_ok_same w w' :
  heap w' = heap w -> players w' = players w -> timers w' = timers w ->
  refs_ok w -> refs_ok w'.
Proof. unfold refs_ok. by intros -> -> ->. Qed.

Lemma refs_ok_mutate l f w :
  (forall p, heap w !! l = Some p -> Player.id (f p) = Player.id p) ->
  refs_ok w -> refs_ok (mutate l f w).
Proof.
  intros Hf (Hp & Ht). split.
  - intros k l' Hin. destruct (Hp k l' Hin) as (p & Hl' & Hid).
    cbn [players mutate set_heap] in *. destruct (decide (l = l')) as [<-|Hne].
    + exists (f p). rewrite heap_mutate_eq, Hl'. split; [done|].
      by rewrite Hf.
    + exists p. by rewrite heap_mutate_ne.
  - unfold mutate. cbn [heap timers set_heap]. by rewrite length_alter.
Qed.

Lemma refs_ok_schedule t w :
  (target t < length (heap w))%nat -> refs_ok w -> refs_ok (schedule t w).
Proof.
  intros Hv (Hp & Ht). split; [done|]. cbn [heap timers schedule set_timers].
  apply Forall_app. split; [done|]. by constructor.
Qed.

Lemma refs_ok_players_delete k w :
  refs_ok w -> refs_ok (set_players (mapDelete (players w) k) w).
Proof.
  intros (Hp & Ht). split; [|done]. intros k' l Hin. apply (Hp k' l).
  by apply (elem_of_mapDelete _ k).
Qed.

Lemma refs_ok_startReload l w p :
  heap w !! l = Some p -> refs_ok w -> refs_ok (startReload l w).
Proof.
  intros Hl Hw. unfold startReload. apply refs_ok_schedule.
  - unfold mutate. cbn [heap set_heap]. rewrite length_alter.
    by apply lookup_lt_Some in Hl.
  - by apply refs_ok_mutate.
Qed.

Lemma refs_ok_handlePlayerFire socketId data now suffix w :
  refs_ok w -> refs_ok (handlePlayerFire socketId data now suffix w).
Proof.
  intros Hw. unfold handlePlayerFire.
  destruct (mapGet (players w) socketId) as [l|]; [|done].
  destruct (heap w !! l) as [player|] eqn:Hp; [|done].
  destruct (_ || _ || _); [done|].
  set (player1 := if noLastFireTime player then _ else player).
  assert (Hid1 : Player.id player1 = Player.id player).
  { subst player1. by destruct (noLastFireTime player). }
  assert (Hw1 : refs_ok (mutate l (fun _ => player1) w)).
  { apply refs_ok_mutate; [|done]. intros p Hp'. rewrite Hp in Hp'. by injection Hp' as <-. }
  destruct (_ <? 100); [done|].
  set (player2 := Player.set_ammo _ _).
  set (w2 := mutate l (fun _ => player2) _).
  assert (H2 : heap w2 !! l = Some player2).
  { subst w2. by rewrite !heap_mutate_eq, Hp. }
  assert (Hw2 : refs_ok w2).
  { subst w2. apply refs_ok_mutate; [|done]. intros p Hp'.
    rewrite heap_mutate_eq, Hp in Hp'. injection Hp' as <-. done. }
  match goal with
  | |- refs_ok (emit _ _ (limitBullets (set_bullets _ ?w3))) =>
      apply (refs_ok_same w3);
        [cbn [heap emit]; by rewrite heap_limitBullets
        |cbn [players emit]; by rewrite players_limitBullets
        |cbn [timers emit]; by rewrite timers_limitBullets|]
  end.
  destruct (_ && _); [by apply (refs_ok_startReload l w2 player2)|done].
Qed.

Lemma refs_ok_handlePlayerHit bullet hit w :
  (hit < length (heap w))%nat ->
  refs_ok w -> refs_ok (handlePlayerHit bullet hit w).
Proof.
  intros Hv Hw. unfold handlePlayerHit.
  destruct (mapGet (players w) (Bullet.playerId bullet)) as [shooter|]; [|done].
  set (w1 := mutate hit _ w).
  assert (Hw1 : refs_ok w1) by (subst w1; by apply refs_ok_mutate).
  destruct (heap w1 !! hit); [|done]. destruct (heap w1 !! shooter); [|done].
  destruct (_ <=? 0); [|done].
  apply refs_ok_schedule.
  - subst w1. unfold mutate. cbn [heap set_heap emit]. by rewrite !length_alter.
  - apply (refs_ok_same
             (mutate shooter (fun p => Player.set_kills (Player.kills p + 1) p)
                (mutate hit (fun p => Player.set_deaths (Player.deaths p + 1) p) w1)));
      [done|done|done|].
    apply refs_ok_mutate; [done|]. by apply refs_ok_mutate.
Qed.

Lemma refs_ok_scanPlayers bulletId bullet entries w :
  refs_ok w -> refs_ok (stateOf (scanPlayers bulletId bullet entries w)).
Proof.
  intros Hw. apply scanPlayers_invariant; [done|]. intros e player _ Hl _ _.
  apply (refs_ok_same (handlePlayerHit bullet e.2 w)); [done|done|done|].
  apply refs_ok_handlePlayerHit; [|done]. by apply lookup_lt_Some in Hl.
Qed.

Lemma refs_ok_fireTimer i r1 r2 w : refs_ok w -> refs_ok (fireTimer i r1 r2 w).
Proof.
  intros Hw. unfold fireTimer. destruct (timers w !! i) as [t|]; [|done].
  assert (Hw1 : refs_ok (set_timers (delete i (timers w)) w)).
  { destruct Hw as (Hp & Ht). split; [done|]. cbn [heap timers set_timers].
    by apply Forall_delete. }
  destruct (kind t).
  - unfold reloadCallback. cbn [heap set_timers].
    destruct (heap w !! target t) as [p|] eqn:Hp; [|done].
    apply (refs_ok_same (mutate (target t)
             (fun _ => Player.set_isReloading false
                         (Player.set_totalAmmo
                            (Player.totalAmmo p
                             - Z.min (30 - Player.ammo p) (Player.totalAmmo p))
                            (Player.set_ammo
                               (Player.ammo p
                                + Z.min (30 - Player.ammo p) (Player.totalAmmo p)) p)))
             (set_timers (delete i (timers w)) w))); [done|done|done|].
    apply refs_ok_mutate; [|done]. intros q Hq. cbn [heap set_timers] in Hq.
    rewrite Hp in Hq. by injection Hq as <-.
  - unfold respawnPlayer. cbn [heap set_timers].
    destruct (heap w !! target t) as [p|] eqn:Hp; [|done].
    apply (refs_ok_same (mutate (target t)
             (fun _ => Player.set_position
                         (JS.point ((r1 - 0.5) * 50)%float 1.8 ((r2 - 0.5) * 50)%float)
                         (Player.set_isReloading false
                            (Player.set_totalAmmo 120
                               (Player.set_ammo 30
                                  (Player.set_health (Player.maxHealth p) p)))))
             (set_timers (delete i (timers w)) w))); [done|done|done|].
    apply refs_ok_mutate; [|done]. intros q Hq. cbn [heap set_timers] in Hq.
    rewrite Hp in Hq. by injection Hq as <-.
Qed.

Lemma refs_ok_initializePlayer socketId now w :
  refs_ok w -> refs_ok (initializePlayer socketId now w).
Proof.
  intros (Hp & Ht). unfold initializePlayer. split.
  - cbn [players heap emit set_players set_heap]. intros k l Hin.
    apply elem_of_mapSet in Hin as [Hin|[= -> ->]].
    + destruct (Hp k l Hin) as (p & Hl & Hid). exists p. split; [|done].
      by apply lookup_app_l_Some.
    + eexists. split; [by rewrite lookup_app_r, Nat.sub_diag|done].
  - cbn [timers heap emit set_players set_heap]. rewrite length_app.
    eapply Forall_impl; [exact Ht|]. intros t Hlt. simpl in *. lia.
Qed.

Lemma refs_ok_step a w : refs_ok w -> refs_ok (step a w).
Proof.
  intros Hw. destruct a; simpl.
  - by apply refs_ok_initializePlayer.
  - unfold handlePlayerUpdate. destruct (mapGet _ _); [|done].
    destruct (negb _); [done|]. by apply refs_ok_mutate.
  - by apply refs_ok_handlePlayerFire.
  - unfold handlePlayerReload. destruct (mapGet _ _) as [l|]; [|done].
    destruct (heap w !! l) as [p|] eqn:Hl; [|done].
    destruct (_ || _ || _); [done|by apply (refs_ok_startReload l w p)].
  - unfold handleDisconnect. destruct (mapGet _ _); [|done].
    match goal with
    | |- refs_ok (emit _ _ (set_players (mapDelete (players ?w1) ?k) ?w1)) =>
        apply (refs_ok_same (set_players (mapDelete (players w1) k) w1));
          [done|done|done|]; apply refs_ok_players_delete
    end.
    apply (fold_left_invariant refs_ok); [|done].
    intros acc e Hacc. by destruct (String.eqb _ _).
  - apply (updateGameState_invariant refs_ok).
    + apply checkBulletCollisions_invariant.
      { intros acc e Hacc. by apply refs_ok_scanPlayers. }
      unfold updateBullets.
      destruct (updateBullets_rest now (bullets (set_clock (tick w + 1) now w))
                  (set_clock (tick w + 1) now w)) as (_ & Hh & Hp & Ht & _).
      by apply (refs_ok_same w).
    + intros w3 Hw3. unfold cleanupInactivePlayers.
      apply (fold_left_invariant refs_ok); [|done].
      intros acc e Hacc. destruct (heap acc !! e.2); [|done].
      destruct (_ <? _); [|done].
      apply (refs_ok_same (set_players (mapDelete (players acc) e.1) acc));
        [done|done|done|]. by apply refs_ok_players_delete.
  - unfold sendClientUpdates. by destruct (_ =? _)%nat.
  - unfold cleanupLoop. apply (fold_left_invariant refs_ok); [|done].
    intros acc e Hacc. by destruct (isExpired _ _).
  - by apply refs_ok_fireTimer.
Qed.

Lemma refs_ok_reachable w : reachable w -> refs_ok w.
Proof.
  induction 1 as [now|a w Hr IH]; [|by apply refs_ok_step].
  split; [|constructor]. intros k l Hin. by apply elem_of_nil in Hin.
Qed.

(** X15: in every state the server can reach, each entry of the player
    store leads to an existing record whose identifier is the entry's
    key, so two identifiers never share a record; and every pending
    reload or respawn timer holds a record that exists. *)
Theorem references_are_sound (w : World) :
  reachable w ->
  (forall socketId l, mapGet (players w) socketId = Some l ->
     exists p, heap w !! l = Some p /\ Player.id p = socketId)
  /\ (forall k1 k2 l, mapGet (players w) k1 = Some l ->
        mapGet (players w) k2 = Some l -> k1 = k2)
  /\ (forall i t, timers w !! i = Some t -> exists p, heap w !! target t = Some p).
Proof.
  intros Hr. destruct (refs_ok_reachable w Hr) as (Hp & Ht).
  assert (H1 : forall socketId l, mapGet (players w) socketId = Some l ->
                 exists p, heap w !! l = Some p /\ Player.id p = socketId).
  { intros k l Hg. apply Hp. by apply mapGet_Some_elem_of. }
  split; [exact H1|]. split.
  - intros k1 k2 l Hg1 Hg2. destruct (H1 k1 l Hg1) as (p1 & Hl1 & <-).
    destruct (H1 k2 l Hg2) as (p2 & Hl2 & <-). congruence.
  - intros i t Hi. apply (Forall_lookup_1 _ _ _ _ Ht) in Hi.
    by apply lookup_lt_is_Some_2 in Hi.
Qed.

Lemma references_are_sound_witness :
  reachable respawnOrphan
  /\ mapGet (players respawnOrphan) "a" = Some 0%nat
  /\ (exists p, heap respawnOrphan !! 0%nat = Some p /\ Player.id p = "a"%string)
  /\ timers respawnOrphan !! 0%nat = Some (mkTimer RespawnTimer 1 3000)
  /\ (exists p, heap respawnOrphan !! 1%nat = Some p).
Proof.
  assert (Hr : reachable respawnOrphan).
  { apply (reachable_step (Disconnect "b")). apply reachable_run. constructor. }
  assert (Hl : mapGet (players respawnOrphan) "a" = Some 0%nat)
    by (vm_compute; reflexivity).
  assert (Ht : timers respawnOrphan !! 0%nat = Some (mkTimer RespawnTimer 1 3000))
    by (vm_compute; reflexivity).
  destruct (references_are_sound respawnOrphan Hr) as (H1 & _ & H3).
  split; [exact Hr|]. split; [exact Hl|]. split; [exact (H1 "a"%string 0%nat Hl)|].
  split; [exact Ht|]. exact (H3 0%nat _ Ht).
Defined.

(** ** Firing is a matter of one player *)

Lemma handlePlayerFire_frame socketId data now suffix w :
  let w' := handlePlayerFire socketId data now suffix w in
  players w' = players w
  /\ forall l, mapGet (players w) socketId <> Some l -> heap w' !! l = heap w !! l.
Proof.
  intros w'. subst w'. unfold handlePlayerFire.
  destruct (mapGet (players w) socketId) as [l0|]; [|done].
  destruct (heap w !! l0) as [player|]; [|done].
  destruct (_ || _ || _); [done|].
  set (player1 := if noLastFireTime player then _ else player).
  destruct (_ <? 100).
  - split; [done|]. intros l Hne. apply heap_mutate_ne. congruence.
  - cbn [players heap emit]. rewrite players_limitBullets, heap_limitBullets.
    cbn [players heap set_bullets]. split; [by destruct (_ && _)|].
    intros l Hne. assert (l0 <> l) by congruence.
    destruct (_ && _); unfold startReload, schedule; cbn [heap set_timers];
      by rewrite !heap_mutate_ne.
Qed.

(** X16: a fire request of one player leaves every other stored player's
    record as it was, and with it whether that player may fire or reload:
    the rate limit and the ammunition are kept per player. *)
Theorem fire_is_per_player (socketId other : string) (data : FireData) (now t : Z)
    (suffix : string) (w : World) :
  reachable w ->
  other <> socketId ->
  let w' := handlePlayerFire socketId data now suffix w in
  mapGet (players w') other = mapGet (players w) other
  /\ (forall l, mapGet (players w) other = Some l -> heap w' !! l = heap w !! l)
  /\ fireAllowed other t w' = fireAllowed other t w
  /\ reloadAllowed other w' = reloadAllowed other w.
Proof.
  intros Hr Hne w'.
  destruct (handlePlayerFire_frame socketId data now suffix w) as (Hpl & Hheap).
  destruct (references_are_sound w Hr) as (_ & Hinj & _).
  assert (Hsame : forall l, mapGet (players w) other = Some l ->
                            heap w' !! l = heap w !! l).
  { intros l Hl. apply Hheap. intros Hs. apply Hne. by apply (Hinj other socketId l). }
  split; [unfold w'; by rewrite Hpl|]. split; [exact Hsame|].
  unfold fireAllowed, reloadAllowed. unfold w' at 1 3. rewrite Hpl.
  destruct (mapGet (players w) other) as [l|] eqn:Hl; [|done].
  by rewrite (Hsame l eq_refl).
Qed.

Lemma fire_is_per_player_witness :
  let w := twoPlayers in
  let w' := handlePlayerFire "a" (mkFireData origin origin) 1050 "x" w in
  reachable w
  /\ fireAllowed "b" 1100 w = true
  /\ fireAllowed "b" 1100 w' = true
  /\ heap w' !! 1%nat = heap w !! 1%nat.
Proof.
  intros w w'.
  assert (Hr : reachable w) by (apply reachable_run; constructor).
  assert (Hne : "b"%string <> "a"%string) by discriminate.
  destruct (fire_is_per_player "a" "b" (mkFireData origin origin) 1050 1100 "x" w
              Hr Hne) as (_ & Hheap & Hfire & _).
  assert (Hb : fireAllowed "b" 1100 w = true) by (vm_compute; reflexivity).
  split; [exact Hr|]. split; [exact Hb|]. split; [fold w' in Hfire; by rewrite Hfire|].
  apply Hheap. vm_compute. reflexivity.
Defined.

(** ** Respawn *)

(** X17: the respawn callback restores the record it holds to maximum
    health, 30 rounds and 120 in reserve, clears the reloading flag, puts
    it at height 1.8 and keeps identifier, kills and deaths; it publishes
    one [player-respawned] to all peers and touches no other record and
    neither store.  A reload timer left over from before the respawn then
    moves no rounds. *)
Theorem respawnPlayer_restores (l : loc) (r1 r2 : float) (w : World) (p : Player.t) :
  heap w !! l = Some p ->
  let w' := respawnPlayer l r1 r2 w in
  (exists p',
      heap w' !! l = Some p'
      /\ Player.health p' = Player.maxHealth p /\ Player.ammo p' = 30
      /\ Player.totalAmmo p' = 120 /\ Player.isReloading p' = false
      /\ Player.position p'
         = JS.point ((r1 - 0.5) * 50)%float 1.8 ((r2 - 0.5) * 50)%float
      /\ JS.get (Player.position p') "y" = VNumber 1.8
      /\ Player.id p' = Player.id p /\ Player.kills p' = Player.kills p
      /\ Player.deaths p' = Player.deaths p
      /\ outbox w'
         = outbox w
           ++ [(ToAll, PlayerRespawned (Player.id p) (Player.position p')
                                       (Player.maxHealth p))]
      /\ exists p'', heap (reloadCallback l w') !! l = Some p''
                     /\ Player.ammo p'' = 30 /\ Player.totalAmmo p'' = 120)
  /\ (forall l', l' <> l -> heap w' !! l' = heap w !! l')
  /\ players w' = players w /\ bullets w' = bullets w /\ timers w' = timers w.
Proof.
  intros Hp w'. subst w'. unfold respawnPlayer. rewrite Hp.
  set (p' := Player.set_position _ _).
  set (w1 := emit _ _ _).
  assert (Hl1 : heap w1 !! l = Some p').
  { subst w1. cbn [heap emit]. by rewrite heap_mutate_eq, Hp. }
  split; [|split; [|done]].
  - exists p'. split; [exact Hl1|]. split_and!; try done.
    unfold reloadCallback. rewrite Hl1. cbn [heap emit].
    rewrite heap_mutate_eq, Hl1. eexists. split; [reflexivity|]. done.
  - intros l' Hne. subst w1. cbn [heap emit]. by rewrite heap_mutate_ne.
Qed.

Lemma respawnPlayer_restores_witness :
  (Player.health <$> heap duel !! 1%nat) = Some 0
  /\ (Player.health <$> heap (respawnPlayer 1 0.5 0.5 duel) !! 1%nat) = Some 100
  /\ (Player.deaths <$> heap (respawnPlayer 1 0.5 0.5 duel) !! 1%nat) = Some 1
  /\ heap (respawnPlayer 1 0.5 0.5 duel) !! 0%nat = heap duel !! 0%nat.
Proof.
  destruct (heap duel !! 1%nat) as [p|] eqn:Hp; [|vm_compute in Hp; discriminate Hp].
  destruct (respawnPlayer_restores 1 0.5 0.5 duel p Hp) as (_ & Hother & _).
  split; [vm_compute in Hp; by injection Hp as <-|].
  split; [vm_compute; reflexivity|]. split; [vm_compute; reflexivity|].
  apply Hother. discriminate.
Defined.

(** ** Kills and deaths *)

Lemma balance_app h1 h2 : balance (h1 ++ h2) = balance h1 + balance h2.
Proof. induction h1 as [|p h1 IH]; simpl; [done|]. rewrite IH. lia. Qed.

Lemma balance_alter l f h p :
  h !! l = Some p ->
  balance (alter f l h)
  = balance h + (Player.kills (f p) - Player.deaths (f p))
    - (Player.kills p - Player.deaths p).
Proof.
  revert l. induction h as [|q h IH]; intros [|l] Hl; try done.
  - injection Hl as ->. simpl. lia.
  - change (balance (alter f (S l) (q :: h)))
      with (Player.kills q - Player.deaths q + balance (alter f l h)).
    change (balance (q :: h)) with (Player.kills q - Player.deaths q + balance h).
    rewrite (IH l Hl). lia.
Qed.

Lemma balance_mutate_keep l f w :
  (forall p, heap w !! l = Some p ->
     Player.kills (f p) = Player.kills p /\ Player.deaths (f p) = Player.deaths p) ->
  balance (heap (mutate l f w)) = balance (heap w).
Proof.
  intros Hf. unfold mutate. cbn [heap set_heap].
  destruct (heap w !! l) as [p|] eqn:Hl.
  - rewrite (balance_alter l f _ p Hl). destruct (Hf p eq_refl) as [-> ->]. lia.
  - f_equal. apply list_eq. intros i. destruct (decide (l = i)) as [<-|Hne].
    + by rewrite list_lookup_alter_eq, Hl.
    + by rewrite list_lookup_alter_ne.
Qed.

Lemma balance_handlePlayerHit bullet hit w :
  balance (heap (handlePlayerHit bullet hit w)) = balance (heap w).
Proof.
  unfold handlePlayerHit.
  destruct (mapGet (players w) (Bullet.playerId bullet)) as [shooter|]; [|done].
  set (w1 := mutate hit _ w).
  assert (H1 : balance (heap w1) = balance (heap w)).
  { subst w1. by apply balance_mutate_keep. }
  destruct (heap w1 !! hit) as [hitPlayer|] eqn:Hh; [|done].
  destruct (heap w1 !! shooter) as [shooterPlayer|] eqn:Hs; [|done].
  destruct (_ <=? 0); [|done].
  unfold schedule, mutate. cbn [heap set_timers set_heap emit].
  assert (Hs' : is_Some
                  (alter (fun p => Player.set_deaths (Player.deaths p + 1) p) hit
                         (heap w1) !! shooter)).
  { destruct (decide (hit = shooter)) as [->|Hne].
    - rewrite list_lookup_alter_eq, Hs. by eexists.
    - rewrite list_lookup_alter_ne, Hs by done. by eexists. }
  destruct Hs' as [sp Hsp].
  rewrite (balance_alter shooter _ _ sp Hsp), (balance_alter hit _ _ hitPlayer Hh).
  rewrite H1. simpl. lia.
Qed.

Lemma balance_scanPlayers bulletId bullet entries w :
  balance (heap (stateOf (scanPlayers bulletId bullet entries w))) = balance (heap w).
Proof.
  apply (scanPlayers_invariant (fun w' => balance (heap w') = balance (heap w)));
    [done|].
  intros e player _ _ _ _. cbn [heap set_bullets]. apply balance_handlePlayerHit.
Qed.

Lemma balance_step a w : balance (heap (step a w)) = balance (heap w).
Proof.
  destruct a; simpl.
  - unfold initializePlayer. cbn [heap emit set_players set_heap].
    rewrite balance_app. simpl. lia.
  - unfold handlePlayerUpdate. destruct (mapGet _ _); [|done].
    destruct (negb _); [done|]. by apply balance_mutate_keep.
  - unfold handlePlayerFire. destruct (mapGet _ _) as [l|]; [|done].
    destruct (heap w !! l) as [player|] eqn:Hp; [|done].
    destruct (_ || _ || _); [done|].
    set (player1 := if noLastFireTime player then _ else player).
    assert (H1 : balance (heap (mutate l (fun _ => player1) w)) = balance (heap w)).
    { apply balance_mutate_keep. intros p Hp'. rewrite Hp in Hp'.
      injection Hp' as <-. subst player1. by destruct (noLastFireTime player). }
    destruct (_ <? 100); [done|].
    cbn [heap emit]. rewrite heap_limitBullets. cbn [heap set_bullets].
    set (player2 := Player.set_ammo _ _).
    assert (H2 : balance (heap (mutate l (fun _ => player2)
                                  (mutate l (fun _ => player1) w)))
                 = balance (heap w)).
    { rewrite <- H1. apply balance_mutate_keep. intros p Hp'.
      rewrite heap_mutate_eq, Hp in Hp'. by injection Hp' as <-. }
    destruct (_ && _); [|done]. unfold startReload, schedule. cbn [heap set_timers].
    rewrite <- H2. by apply balance_mutate_keep.
  - unfold handlePlayerReload. destruct (mapGet _ _) as [l|]; [|done].
    destruct (heap w !! l); [|done]. destruct (_ || _ || _); [done|].
    unfold startReload, schedule. cbn [heap set_timers]. by apply balance_mutate_keep.
  - unfold handleDisconnect. destruct (mapGet _ _); [|done].
    cbn [heap emit set_players].
    apply (fold_left_invariant (fun acc => balance (heap acc) = balance (heap w)));
      [|done].
    intros acc e Hacc. by destruct (String.eqb _ _).
  - apply (updateGameState_invariant
             (fun acc => balance (heap acc) = balance (heap w))).
    + apply (checkBulletCollisions_invariant
               (fun acc => balance (heap acc) = balance (heap w))).
      { intros acc e Hacc. by rewrite balance_scanPlayers. }
      unfold updateBullets.
      destruct (updateBullets_rest now (bullets (set_clock (tick w + 1) now w))
                  (set_clock (tick w + 1) now w)) as (_ & Hh & _).
      by rewrite Hh.
    + intros w3 Hw3. unfold cleanupInactivePlayers.
      apply (fold_left_invariant (fun acc => balance (heap acc) = balance (heap w)));
        [|done].
      intros acc e Hacc. destruct (heap acc !! e.2); [|done]. by destruct (_ <? _).
  - unfold sendClientUpdates. by destruct (_ =? _)%nat.
  - unfold cleanupLoop.
    apply (fold_left_invariant (fun acc => balance (heap acc) = balance (heap w)));
      [|done].
    intros acc e Hacc. by destruct (isExpired _ _).
  - unfold fireTimer. destruct (timers w !! i) as [t|]; [|done].
    destruct (kind t).
    + unfold reloadCallback. cbn [heap set_timers].
      destruct (heap w !! target t) as [p|] eqn:Hp; [|done]. cbn [heap emit].
      apply (balance_mutate_keep (target t) _ (set_timers (delete i (timers w)) w)).
      intros q Hq. cbn [heap set_timers] in Hq. rewrite Hp in Hq. by injection Hq as <-.
    + unfold respawnPlayer. cbn [heap set_timers].
      destruct (heap w !! target t) as [p|] eqn:Hp; [|done]. cbn [heap emit].
      apply (balance_mutate_keep (target t) _ (set_timers (delete i (timers w)) w)).
      intros q Hq. cbn [heap set_timers] in Hq. rewrite Hp in Hq. by injection Hq as <-.
Qed.

(** X18: kills and deaths are awarded in pairs: over all player records
    created since the server started, those of departed players
    included, the kills add up to the deaths. *)
Theorem kills_equal_deaths (w : World) :
  reachable w ->
  foldr (fun p acc => Player.kills p + acc) 0 (heap w)
  = foldr (fun p acc => Player.deaths p + acc) 0 (heap w).
Proof.
  intros Hr.
  assert (Hb : balance (heap w) = 0).
  { induction Hr as [now|a w Hr IH]; [done|]. by rewrite balance_step. }
  revert Hb. unfold balance. generalize (heap w). intros h.
  assert (Hsplit : foldr (fun p acc => Player.kills p - Player.deaths p + acc) 0 h
                   = foldr (fun p acc => Player.kills p + acc) 0 h
                     - foldr (fun p acc => Player.deaths p + acc) 0 h).
  { induction h as [|p h IH]; simpl; [done|]. rewrite IH. lia. }
  rewrite Hsplit. lia.
Qed.

Lemma kills_equal_deaths_witness :
  reachable respawnOrphan
  /\ foldr (fun p acc => Player.kills p + acc) 0 (heap respawnOrphan) = 1
  /\ foldr (fun p acc => Player.deaths p + acc) 0 (heap respawnOrphan) = 1.
Proof.
  assert (Hr : reachable respawnOrphan).
  { apply (reachable_step (Disconnect "b")). apply reachable_run. constructor. }
  pose proof (kills_equal_deaths respawnOrphan Hr) as Heq.
  split; [exact Hr|]. split; [vm_compute; reflexivity|].
  rewrite <- Heq. vm_compute. reflexivity.
Defined.

(** ** The periodic snapshot *)

Lemma playerValues_ids (h : list Player.t) (m : list (string * loc)) :
  (forall k l, (k, l) ∈ m -> exists p, h !! l = Some p /\ Player.id p = k) ->
  map Player.id (omap (fun e : string * loc => h !! e.2) m) = mapKeys m.
Proof.
  induction m as [|[k l] m IH]; intros Hm; [done|].
  destruct (Hm k l) as (p & Hl & Hid); [left|].
  cbn [omap list_omap snd]. change (h !! (k, l).2) with (h !! l). rewrite Hl.
  unfold mapKeys. rewrite fmap_cons. simpl. rewrite Hid. f_equal.
  apply IH. intros k' l' Hin. apply Hm. by right.
Qed.

Lemma bullet_ids (m : list (string * Bullet.t)) :
  Forall bullet_wf m ->
  map (fun e : string * Bullet.t => Bullet.id e.2) m = mapKeys m.
Proof.
  induction 1 as [|[k b] m (Hid & _) Hm IH]; [done|].
  unfold mapKeys. rewrite fmap_cons. simpl in *. rewrite Hid. f_equal. exact IH.
Qed.

(** X19: the snapshot broadcast changes nothing in the state.  With no
    player stored it publishes nothing; otherwise it publishes one
    [game-update] to all peers carrying the tick, one entry for each
    stored player, in store order and under that player's identifier,
    and one entry for each stored projectile likewise. *)
Theorem sendClientUpdates_snapshot (w : World) :
  reachable w ->
  let w' := sendClientUpdates w in
  heap w' = heap w /\ players w' = players w /\ bullets w' = bullets w
  /\ timers w' = timers w /\ tick w' = tick w
  /\ match players w with
     | [] => outbox w' = outbox w
     | _ :: _ =>
         exists playersData bulletsData,
           outbox w' = outbox w ++ [(ToAll, GameUpdate playersData bulletsData (tick w))]
           /\ map pd_id playersData = mapKeys (players w)
           /\ map bd_id bulletsData = mapKeys (bullets w)
     end.
Proof.
  intros Hr w'. subst w'. unfold sendClientUpdates.
  destruct (refs_ok_reachable w Hr) as (Hrefs & _).
  destruct (store_ok_reachable w Hr) as (_ & _ & _ & Hwf).
  destruct (players w) as [|e m] eqn:Hpl; cbn [length Nat.eqb].
  - by split_and!.
  - cbn [heap players bullets timers tick outbox emit]. split_and!; try done.
    eexists _, _. split; [reflexivity|]. split.
    + rewrite map_map. cbn [pd_id]. unfold playerValues. rewrite Hpl.
      by rewrite <- (playerValues_ids (heap w) (e :: m)).
    + rewrite map_map. cbn [bd_id]. by apply bullet_ids.
Qed.

Lemma sendClientUpdates_snapshot_witness :
  reachable twoPlayers
  /\ players (sendClientUpdates twoPlayers) = players twoPlayers
  /\ length (outbox (sendClientUpdates twoPlayers)) = S (length (outbox twoPlayers)).
Proof.
  assert (Hr : reachable twoPlayers) by (apply reachable_run; constructor).
  destruct (sendClientUpdates_snapshot twoPlayers Hr) as (_ & Hp & _).
  split; [exact Hr|]. split; [exact Hp|]. vm_compute. reflexivity.
Defined.

(** ** Hit notifications *)

Lemma notices_ok_emit a e w :
  hit_notice_ok (a, e) -> notices_ok w -> notices_ok (emit a e w).
Proof.
  intros He Hw. unfold notices_ok. cbn [outbox emit].
  apply Forall_app. split; [done|]. by constructor.
Qed.

Lemma outbox_handlePlayerHit_ok bullet playerId hit w p :
  refs_ok w -> notices_ok w ->
  Bullet.damage bullet = 25 ->
  (playerId, hit) ∈ players w ->
  heap w !! hit = Some p ->
  Bullet.playerId bullet <> playerId ->
  notices_ok (handlePlayerHit bullet hit w).
Proof.
  intros (Hrefs & _) Hn Hd Hin Hp Hne. unfold handlePlayerHit.
  destruct (mapGet (players w) (Bullet.playerId bullet)) as [shooter|] eqn:Hs; [|done].
  apply mapGet_Some_elem_of in Hs.
  destruct (Hrefs _ _ Hs) as (q & Hq & Hqid).
  destruct (Hrefs _ _ Hin) as (p' & Hp' & Hpid).
  rewrite Hp in Hp'. injection Hp' as <-.
  set (w1 := mutate hit _ w).
  assert (H1 : heap w1 !! hit
               = Some (Player.set_health (Player.health p - Bullet.damage bullet) p)).
  { subst w1. by rewrite heap_mutate_eq, Hp. }
  rewrite H1.
  destruct (heap w1 !! shooter) as [shooterPlayer|] eqn:Hsp; [|done].
  assert (Hsid : Player.id shooterPlayer = Bullet.playerId bullet).
  { subst w1. destruct (decide (hit = shooter)) as [->|Hneq].
    - rewrite Hsp in H1. injection H1 as ->. simpl. congruence.
    - rewrite heap_mutate_ne in Hsp by done. congruence. }
  assert (Hmsg : notices_ok
                   (emit ToAll
                      (PlayerHit
                         (Player.id (Player.set_health
                                       (Player.health p - Bullet.damage bullet) p))
                         (Player.id shooterPlayer) (Bullet.damage bullet)
                         (Player.health (Player.set_health
                                           (Player.health p - Bullet.damage bullet) p))
                         (Bullet.id bullet)) w1)).
  { apply notices_ok_emit; [|done]. unfold hit_notice_ok. simpl.
    split; [congruence|done]. }
  destruct (_ <=? 0); [|done].
  unfold notices_ok, schedule. cbn [outbox set_timers].
  apply (notices_ok_emit ToAll); [done|]. exact Hmsg.
Qed.

Lemma notices_ok_scanPlayers bulletId bullet w entries :
  refs_ok w -> notices_ok w ->
  Bullet.damage bullet = 25 ->
  (forall e, e ∈ entries -> e ∈ players w) ->
  notices_ok (stateOf (scanPlayers bulletId bullet entries w)).
Proof.
  intros Hrefs Hn Hd Hsub. apply scanPlayers_invariant; [done|].
  intros [playerId l] player He Hl Hne _. cbn [fst snd] in Hl, Hne |- *.
  unfold notices_ok. cbn [outbox set_bullets].
  apply (outbox_handlePlayerHit_ok bullet playerId l w player); try done.
  by apply Hsub.
Qed.

Lemma Forall_map_notice {A} (f : A -> Audience * Event) (l : list A) :
  (forall x, hit_notice_ok (f x)) -> Forall hit_notice_ok (map f l).
Proof. intros Hf. induction l; simpl; by constructor. Qed.

Lemma notices_ok_step a w :
  refs_ok w -> world_ok w -> notices_ok w -> notices_ok (step a w).
Proof.
  intros Hrefs Hok Hn. destruct a; simpl.
  - unfold initializePlayer. apply notices_ok_emit; [done|].
    by apply notices_ok_emit.
  - by destruct (handlePlayerUpdate_frame socketId data now w)
      as (_ & _ & _ & Ho & _); unfold notices_ok; rewrite Ho.
  - unfold handlePlayerFire. destruct (mapGet _ _) as [l|]; [|done].
    destruct (heap w !! l); [|done]. destruct (_ || _ || _); [done|].
    destruct (_ <? 100); [done|]. apply notices_ok_emit; [done|].
    unfold notices_ok. rewrite outbox_limitBullets. cbn [outbox set_bullets].
    by destruct (_ && _).
  - unfold handlePlayerReload. destruct (mapGet _ _) as [l|]; [|done].
    destruct (heap w !! l); [|done]. by destruct (_ || _ || _).
  - unfold handleDisconnect. destruct (mapGet _ _); [|done].
    apply notices_ok_emit; [done|]. unfold notices_ok. cbn [outbox set_players].
    apply (fold_left_invariant notices_ok); [|done].
    intros acc e Hacc. by destruct (String.eqb _ _).
  - apply (updateGameState_invariant notices_ok).
    + set (w1 := set_clock (tick w + 1) now w).
      assert (Hrefs2 : refs_ok (updateBullets now w1)).
      { destruct (updateBullets_rest now (bullets w1) w1) as (_ & Hh & Hp & Ht & _).
        by apply (refs_ok_same w). }
      assert (Hok2 : world_ok (updateBullets now w1)) by (by apply updateBullets_ok).
      assert (Hn2 : notices_ok (updateBullets now w1)).
      { destruct (updateBullets_rest now (bullets w1) w1) as (Ho & _).
        unfold notices_ok, updateBullets. rewrite Ho. apply Forall_app.
        split; [done|]. by apply Forall_map_notice. }
      unfold checkBulletCollisions.
      apply (scanBullets_invariant
               (fun acc => refs_ok acc /\ world_ok acc /\ notices_ok acc) bullet_ok);
        [|apply Hok2|by split_and!].
      intros acc e He (Hr' & Hk' & Hn').
      split; [by apply refs_ok_scanPlayers|].
      split; [by apply scanPlayers_ok|]. by apply notices_ok_scanPlayers.
    + intros w3 Hw3. unfold cleanupInactivePlayers.
      apply (fold_left_invariant notices_ok); [|done].
      intros acc e Hacc. destruct (heap acc !! e.2); [|done].
      destruct (_ <? _); [|done]. by apply notices_ok_emit.
  - unfold sendClientUpdates. destruct (_ =? _)%nat; [done|].
    by apply notices_ok_emit.
  - unfold cleanupLoop. apply (fold_left_invariant notices_ok); [|done].
    intros acc e Hacc. by destruct (isExpired _ _).
  - unfold fireTimer. destruct (timers w !! i) as [t|]; [|done].
    destruct (kind t).
    + unfold reloadCallback. cbn [heap set_timers].
      destruct (heap w !! target t); [|done]. by apply notices_ok_emit.
    + unfold respawnPlayer. cbn [heap set_timers].
      destruct (heap w !! target t); [|done]. by apply notices_ok_emit.
Qed.

(** X20: no projectile ever hits its own shooter: in every
    [player-hit] notification the server has published the victim and
    the shooter are different players and the damage is 25. *)
Theorem hits_name_two_players (w : World) (a : Audience)
    (hitPlayerId shooterId : string) (damage newHealth : Z) (bulletId : string) :
  reachable w ->
  (a, PlayerHit hitPlayerId shooterId damage newHealth bulletId) ∈ outbox w ->
  hitPlayerId <> shooterId /\ damage = 25.
Proof.
  intros Hr.
  assert (Hn : notices_ok w).
  { induction Hr as [now|act w Hr IH]; [constructor|].
    apply notices_ok_step; [by apply refs_ok_reachable|by apply reachable_ok|].
    apply IH. }
  intros Hin. by apply (proj1 (Forall_forall _ _) Hn _ Hin).
Qed.

Lemma hits_name_two_players_witness :
  reachable duel
  /\ (ToAll, PlayerHit "b" "a" 25 0 "a_4") ∈ outbox duel
  /\ "b"%string <> "a"%string.
Proof.
  assert (Hr : reachable duel) by (apply reachable_run; constructor).
  assert (Hin : (ToAll, PlayerHit "b" "a" 25 0 "a_4") ∈ outbox duel).
  { apply list_elem_of_In. vm_compute. do 11 right. left. reflexivity. }
  destruct (hits_name_two_players duel ToAll "b" "a" 25 0 "a_4" Hr Hin) as (Hne & _).
  split; [exact Hr|]. split; [exact Hin|exact Hne].
Defined.

(** ** The projectile of an accepted shot *)

(** X21: below capacity an accepted shot evicts nothing: the new
    projectile is filed under its identifier, owned by the sender, with
    the position and direction that were sent, speed 50, damage 25,
    lifetime 3000 and the time of the request; every other key of the
    projectile store keeps its value. *)
Theorem handlePlayerFire_inserts (socketId : string) (data : FireData) (now : Z)
    (suffix : string) (w : World) :
  fireAllowed socketId now w = true ->
  100 <= now ->
  (length (bullets w) < MAX_BULLETS)%nat ->
  let w' := handlePlayerFire socketId data now suffix w in
  let bulletId := (socketId ++ "_" ++ suffix)%string in
  mapGet (bullets w') bulletId
  = Some (Bullet.mk bulletId socketId (fd_position data) (fd_direction data)
                    50 25 now 3000)
  /\ (forall k, k <> bulletId -> mapGet (bullets w') k = mapGet (bullets w) k)
  /\ (length (bullets w') <= S (length (bullets w)))%nat.
Proof.
  intros Hf Hnow Hlen w' bulletId. subst w'.
  rewrite (bullets_handlePlayerFire _ data _ suffix _ Hf Hnow), bullets_limitBullets.
  cbn [bullets set_bullets Bullet.id firedBullet]. fold bulletId.
  set (bullet := firedBullet socketId data now suffix).
  assert (Hl : (length (mapSet (bullets w) bulletId bullet) <= MAX_BULLETS)%nat).
  { rewrite length_mapSet. destruct (mapGet (bullets w) bulletId); lia. }
  destruct (Nat.ltb_spec MAX_BULLETS (length (mapSet (bullets w) bulletId bullet)));
    [lia|].
  split; [apply mapGet_mapSet_eq|]. split.
  - intros k Hk. by apply mapGet_mapSet_ne.
  - rewrite length_mapSet. destruct (mapGet (bullets w) bulletId); lia.
Qed.

Lemma handlePlayerFire_inserts_witness :
  let w := roundsFired 0 in
  let w' := handlePlayerFire "a" (mkFireData origin (mkVec3 1 0 0)) 1000 "x" w in
  fireAllowed "a" 1000 w = true
  /\ (length (bullets w) < MAX_BULLETS)%nat
  /\ mapGet (bullets w') "a_x"
     = Some (Bullet.mk "a_x" "a" origin (mkVec3 1 0 0) 50 25 1000 3000).
Proof.
  intros w w'.
  assert (Hf : fireAllowed "a" 1000 w = true) by (vm_compute; reflexivity).
  assert (Hnow : 100 <= 1000) by lia.
  assert (Hlen : (length (bullets w) < MAX_BULLETS)%nat).
  { apply Nat.ltb_lt. vm_compute. reflexivity. }
  destruct (handlePlayerFire_inserts "a" (mkFireData origin (mkVec3 1 0 0)) 1000 "x" w
              Hf Hnow Hlen) as (Hget & _).
  split; [exact Hf|]. split; [exact Hlen|exact Hget].
Defined.

(** ** What a tick leaves behind *)




